(** * mcp-debug: a shallow embedding of the data-plane core

    The development follows the TypeScript sources of the repository:

    - [Json]    JavaScript values as they arrive from [JSON.parse], property
                reads, truthiness, [String(v)] and [JSON.stringify];
    - [Chaos]   [chaos/injector.ts]: the seeded generator and [ChaosInjector];
    - [Store]   [server/db/schema.ts] and [server/db/queries.ts]: the four
                tables and [RunQueries];
    - [Tracer]  [tracer/recorder.ts]: [TraceRecorder];
    - [Proxy]   [commands/proxy.ts]: the two line handlers of [proxyCommand];
    - [Stress]  [stress/schema-mutator.ts], [server/routes/stress.ts]:
                [generateMutations], [classifyOutcome], [runStressTests];
    - [Diff]    [diff/comparator.ts]: [compareTraces].

    Conventions.  A JavaScript string is a Rocq [string] holding the UTF-8
    bytes of the text.  [undefined] is [None]; JSON [null] is [JNull].  A JSON
    number is an integer [Z] (the identifiers, counters and millisecond values
    the program handles); call latencies compared by the diff engine are IEEE
    binary64 values ([float]), probabilities are rationals ([Q]).  Clock reads
    ([Date.now()], [new Date().toISOString()]) and fresh identifiers
    ([uuidv4()]) are arguments of the operation that performs them. *)

From Stdlib Require Import ZArith QArith Qround Floats Ascii String List Lia.
From stdpp Require Import base strings list sorting gmap pretty.

Set Warnings "-register-all".

Local Open Scope Z_scope.
Local Open Scope string_scope.

(* ================================================================== *)
(** ** JavaScript values *)
(* ================================================================== *)

Module Json.

Inductive json : Type :=
| JNull
| JBool (b : bool)
| JNum (n : Z)
| JStr (s : string)
| JArr (items : list json)
| JObj (fields : list (string * json)).

(** First binding of a key in an insertion-ordered property list. *)
Fixpoint assoc {A : Type} (k : string) (l : list (string * A)) : option A :=
  match l with
  | [] => None
  | (k', v) :: l' => if bool_decide (k = k') then Some v else assoc k l'
  end.

(** [v.k] on a value that is not [null]: only objects carry the properties
    the program reads ([id], [method], [params], [name], ...). *)
Definition prop (k : string) (v : json) : option json :=
  match v with
  | JObj fs => assoc k fs
  | _ => None
  end.

(** [v?.k], where [v] may be [undefined] or [null]. *)
Definition opt_prop (k : string) (v : option json) : option json :=
  match v with
  | None | Some JNull => None
  | Some w => prop k w
  end.

(** JavaScript truthiness, [if (v)]. *)
Definition truthy (v : json) : bool :=
  match v with
  | JNull => false
  | JBool b => b
  | JNum n => negb (n =? 0)%Z
  | JStr s => negb (bool_decide (s = ""))
  | JArr _ | JObj _ => true
  end.

Definition truthy_opt (o : option json) : bool :=
  match o with
  | None => false
  | Some v => truthy v
  end.

(** [v === s] for a string literal [s]. *)
Definition is_string (s : string) (v : json) : bool :=
  match v with
  | JStr x => bool_decide (x = s)
  | _ => false
  end.

(** An optional string that is truthy: [x || null], [if (x)], [x && ...]. *)
Definition nonempty (x : option string) : option string :=
  match x with
  | Some s => if bool_decide (s = "") then None else Some s
  | None => None
  end.

(** [String(v)]. *)
Fixpoint js_String (v : json) : string :=
  match v with
  | JNull => "null"
  | JBool true => "true"
  | JBool false => "false"
  | JNum n => pretty n
  | JStr s => s
  | JArr l =>
      String.concat ","
        (map (fun x => match x with JNull => "" | _ => js_String x end) l)
  | JObj _ => "[object Object]"
  end.

Definition dquote : ascii := ascii_of_nat 34.
Definition backslash : ascii := ascii_of_nat 92.

Definition hex_digit (n : nat) : ascii :=
  ascii_of_nat (if (n <? 10)%nat then 48 + n else 87 + n)%nat.

(** The escape [JSON.stringify] writes for one character of a string. *)
Definition escape_char (c : ascii) : string :=
  let n := nat_of_ascii c in
  if bool_decide (c = dquote) then String backslash (String dquote "")
  else if bool_decide (c = backslash) then String backslash (String backslash "")
  else if (n =? 8)%nat then String backslash "b"
  else if (n =? 9)%nat then String backslash "t"
  else if (n =? 10)%nat then String backslash "n"
  else if (n =? 12)%nat then String backslash "f"
  else if (n =? 13)%nat then String backslash "r"
  else if (n <? 32)%nat then
    String backslash
      (String "u" (String "0" (String "0"
        (String (hex_digit (n / 16)) (String (hex_digit (n mod 16)) "")))))
  else String c "".

Fixpoint escape (s : string) : string :=
  match s with
  | EmptyString => ""
  | String c s' => escape_char c ++ escape s'
  end.

Definition quote (s : string) : string :=
  String dquote (escape s ++ String dquote "").

(** [JSON.stringify(v)] for a defined value. *)
Fixpoint stringify (v : json) : string :=
  match v with
  | JNull => "null"
  | JBool true => "true"
  | JBool false => "false"
  | JNum n => pretty n
  | JStr s => quote s
  | JArr l => "[" ++ String.concat "," (map stringify l) ++ "]"
  | JObj fs =>
      "{" ++ String.concat ","
               (map (fun kv => match kv with
                               | (k, x) => quote k ++ ":" ++ stringify x
                               end) fs) ++ "}"
  end.

(** [JSON.stringify(v)] where [v] may be [undefined]: the result is then
    [undefined] too. *)
Definition stringify_opt (o : option json) : option string :=
  match o with
  | None => None
  | Some v => Some (stringify v)
  end.

(** [v ? JSON.stringify(v) : null], the idiom of [insertTraceEvent]. *)
Definition stringify_if_truthy (o : option json) : option string :=
  match o with
  | Some v => if truthy v then Some (stringify v) else None
  | None => None
  end.

(** [{...o, [k]: x}] and [o[k] = x]: an existing key keeps its place. *)
Fixpoint set_field (k : string) (x : json) (fs : list (string * json))
  : list (string * json) :=
  match fs with
  | [] => [(k, x)]
  | (k', y) :: fs' =>
      if bool_decide (k = k') then (k', x) :: fs'
      else (k', y) :: set_field k x fs'
  end.

(** [delete o[k]]. *)
Definition delete_field (k : string) (fs : list (string * json))
  : list (string * json) :=
  filter (fun kv => k <> fst kv) fs.

End Json.

(* ================================================================== *)
(** ** Chaos engine ([chaos/types.ts], [chaos/injector.ts]) *)
(* ================================================================== *)

Module Chaos.

(** [ProbabilisticValue]: [{p, value?, min?, max?}]. *)
Record ProbabilisticValue : Type := {
  pv_p : Q;
  pv_value : option Z;
  pv_min : option Z;
  pv_max : option Z
}.

(** [number | ProbabilisticValue]. *)
Inductive Magnitude : Type :=
| Fixed (n : Z)
| Probabilistic (v : ProbabilisticValue).

Record ChaosRule : Type := {
  delayMs : option Magnitude;
  failRate : option Q;
  errorCode : option Z;
  errorMessage : option string;
  corruptResponse : option bool;
  timeoutMs : option Magnitude
}.

Record ChaosConfig : Type := {
  seed : option Z;
  global : option ChaosRule;
  tools : option (list (string * ChaosRule))
}.

(** [ChaosApplied]; the fields are written in the order [applyChaos] sets
    them. *)
Record ChaosApplied : Type := {
  ca_seed : option Z;
  ca_delayMs : option Z;
  ca_errorInjected : option bool;
  ca_responseCorrupted : option bool
}.

(** *** [SeededRandom]

    [state] is a JavaScript number that [next] increases by [0x6d2b79f5]
    without wrapping; it is an exact integer below 2^53, modelled by [Z].
    The 32-bit steps wrap as [ToInt32] and [ToUint32] do. *)

Definition ToUint32 (x : Z) : Z := x mod 2 ^ 32.

Definition ToInt32 (x : Z) : Z :=
  let u := x mod 2 ^ 32 in
  if (u <? 2 ^ 31)%Z then u else u - 2 ^ 32.

(** [Math.imul(a, b)]. *)
Definition imul (a b : Z) : Z := ToInt32 (ToInt32 a * ToInt32 b).
(** [a ^ b]. *)
Definition bxor (a b : Z) : Z := ToInt32 (Z.lxor (ToInt32 a) (ToInt32 b)).
(** [a | b]. *)
Definition bor (a b : Z) : Z := ToInt32 (Z.lor (ToInt32 a) (ToInt32 b)).
(** [a >>> n]. *)
Definition ushr (a n : Z) : Z := Z.shiftr (ToUint32 a) n.

Record SeededRandom : Type := { state : Z }.

(** The 32-bit word [next] divides by 4294967296. *)
Definition next_word (t0 : Z) : Z :=
  let t1 := imul (bxor t0 (ushr t0 15)) (bor t0 1) in
  let t2 := bxor t1 (t1 + imul (bxor t1 (ushr t1 7)) (bor t1 61)) in
  ushr (bxor t2 (ushr t2 14)) 0.

Definition next (rng : SeededRandom) : Q * SeededRandom :=
  let s := state rng + 0x6d2b79f5 in
  (Qmake (next_word s) (2 ^ 32), {| state := s |}).

(** [Math.floor(this.next() * (max - min + 1)) + min]. *)
Definition nextInt (lo hi : Z) (rng : SeededRandom) : Z * SeededRandom :=
  let '(r, rng') := next rng in
  (Qfloor (r * inject_Z (hi - lo + 1)) + lo, rng').

(** *** [ChaosInjector] *)

Record ChaosInjector : Type := {
  inj_config : ChaosConfig;
  inj_rng : SeededRandom;
  inj_seed : Z
}.

(** [new ChaosInjector(config)]; [now] is the value of [Date.now()]. *)
Definition new_ChaosInjector (config : ChaosConfig) (now : Z) : ChaosInjector :=
  let s := match seed config with Some s => s | None => now end in
  {| inj_config := config; inj_rng := {| state := s |}; inj_seed := s |}.

Definition getSeed (inj : ChaosInjector) : Z := inj_seed inj.

Definition empty_rule : ChaosRule :=
  {| delayMs := None; failRate := None; errorCode := None;
     errorMessage := None; corruptResponse := None; timeoutMs := None |}.

Definition or_else {A : Type} (x y : option A) : option A :=
  match x with Some _ => x | None => y end.

(** [{ ...g, ...t }]: the fields of [t] win. *)
Definition spread (g t : ChaosRule) : ChaosRule :=
  {| delayMs := or_else (delayMs t) (delayMs g);
     failRate := or_else (failRate t) (failRate g);
     errorCode := or_else (errorCode t) (errorCode g);
     errorMessage := or_else (errorMessage t) (errorMessage g);
     corruptResponse := or_else (corruptResponse t) (corruptResponse g);
     timeoutMs := or_else (timeoutMs t) (timeoutMs g) |}.

Definition global_rule (config : ChaosConfig) : ChaosRule :=
  match global config with Some g => g | None => empty_rule end.

Definition tool_rule (config : ChaosConfig) (name : string) : option ChaosRule :=
  match tools config with
  | Some ts => Json.assoc name ts
  | None => None
  end.

(** [getRuleForTool(toolName)].  The name is declared a string and comes
    from a parsed message: the test [toolName && tools?.[toolName]] takes
    any truthy value and reads the property named by its string. *)
Definition getRuleForTool (inj : ChaosInjector) (toolName : option Json.json)
  : ChaosRule :=
  match toolName with
  | Some name =>
      if Json.truthy name then
        match tool_rule (inj_config inj) (Json.js_String name) with
        | Some t => spread (global_rule (inj_config inj)) t
        | None => global_rule (inj_config inj)
        end
      else global_rule (inj_config inj)
  | None => global_rule (inj_config inj)
  end.

(** [a > b] and [a < b] on probabilities. *)
Definition Qgtb (a b : Q) : bool := negb (Qle_bool a b).
Definition Qltb (a b : Q) : bool := negb (Qle_bool b a).

Definition resolveValue (value : option Magnitude) (rng : SeededRandom)
  : option Z * SeededRandom :=
  match value with
  | None => (None, rng)
  | Some (Fixed n) => (Some n, rng)
  | Some (Probabilistic v) =>
      let '(prob, rng1) := next rng in
      if Qgtb prob (pv_p v) then (None, rng1)
      else match pv_value v with
           | Some x => (Some x, rng1)
           | None =>
               match pv_min v, pv_max v with
               | Some lo, Some hi =>
                   let '(n, rng2) := nextInt lo hi rng1 in (Some n, rng2)
               | _, _ => (None, rng1)
               end
           end
  end.

Definition with_rng (inj : ChaosInjector) (rng : SeededRandom) : ChaosInjector :=
  {| inj_config := inj_config inj; inj_rng := rng; inj_seed := inj_seed inj |}.

Definition getDelay (toolName : option Json.json) (inj : ChaosInjector)
  : Z * ChaosInjector :=
  let rule := getRuleForTool inj toolName in
  let '(r, rng') := resolveValue (delayMs rule) (inj_rng inj) in
  (match r with Some d => d | None => 0 end, with_rng inj rng').

Definition getTimeout (toolName : option Json.json) (inj : ChaosInjector)
  : option Z * ChaosInjector :=
  let rule := getRuleForTool inj toolName in
  let '(r, rng') := resolveValue (timeoutMs rule) (inj_rng inj) in
  (r, with_rng inj rng').

Definition shouldFail (toolName : option Json.json) (inj : ChaosInjector)
  : bool * ChaosInjector :=
  let rule := getRuleForTool inj toolName in
  match failRate rule with
  | None => (false, inj)
  | Some rate =>
      if Qle_bool rate 0 then (false, inj)
      else let '(r, rng') := next (inj_rng inj) in
           (Qltb r rate, with_rng inj rng')
  end.

Definition getErrorResponse (toolName : option Json.json) (inj : ChaosInjector)
  : option (Z * string) * ChaosInjector :=
  let '(fail, inj') := shouldFail toolName inj in
  if fail then
    let rule := getRuleForTool inj' toolName in
    (Some (match errorCode rule with Some c => c | None => -32603 end,
           match errorMessage rule with
           | Some m => m
           | None => "Chaos-injected error"
           end), inj')
  else (None, inj').

Definition shouldCorruptResponse (toolName : option Json.json) (inj : ChaosInjector)
  : bool :=
  match corruptResponse (getRuleForTool inj toolName) with
  | Some b => b
  | None => false
  end.

Definition applyChaos (toolName : option Json.json) (inj : ChaosInjector)
  : ChaosApplied * ChaosInjector :=
  let '(delay, inj1) := getDelay toolName inj in
  let '(fail, inj2) := shouldFail toolName inj1 in
  ({| ca_seed := Some (inj_seed inj);
      ca_delayMs := if (0 <? delay)%Z then Some delay else None;
      ca_errorInjected := if fail then Some true else None;
      ca_responseCorrupted :=
        if shouldCorruptResponse toolName inj2 then Some true else None |},
   inj2).

(** The queries a caller can put to one injector, and their answers. *)
Inductive Query : Type :=
| QDelay (tool : option Json.json)
| QTimeout (tool : option Json.json)
| QShouldFail (tool : option Json.json)
| QErrorResponse (tool : option Json.json)
| QShouldCorrupt (tool : option Json.json)
| QApply (tool : option Json.json).

Inductive Answer : Type :=
| ADelay (ms : Z)
| ATimeout (ms : option Z)
| AFail (b : bool)
| AErrorResponse (e : option (Z * string))
| ACorrupt (b : bool)
| AApplied (a : ChaosApplied).

Definition ask (q : Query) (inj : ChaosInjector) : Answer * ChaosInjector :=
  match q with
  | QDelay t => let '(d, inj') := getDelay t inj in (ADelay d, inj')
  | QTimeout t => let '(d, inj') := getTimeout t inj in (ATimeout d, inj')
  | QShouldFail t => let '(b, inj') := shouldFail t inj in (AFail b, inj')
  | QErrorResponse t =>
      let '(e, inj') := getErrorResponse t inj in (AErrorResponse e, inj')
  | QShouldCorrupt t => (ACorrupt (shouldCorruptResponse t inj), inj)
  | QApply t => let '(a, inj') := applyChaos t inj in (AApplied a, inj')
  end.

(** One execution: the answers to a sequence of queries, in order. *)
Fixpoint execute (qs : list Query) (inj : ChaosInjector) : list Answer :=
  match qs with
  | [] => []
  | q :: qs' => let '(a, inj') := ask q inj in a :: execute qs' inj'
  end.

(** The chaos-applied descriptors among the answers. *)
Definition descriptors (answers : list Answer) : list ChaosApplied :=
  omap (fun a => match a with AApplied d => Some d | _ => None end) answers.

(** The descriptor as the JSON object that [JSON.stringify] receives. *)
Definition ChaosApplied_json (a : ChaosApplied) : Json.json :=
  Json.JObj
    (match ca_seed a with Some s => [("seed", Json.JNum s)] | None => [] end ++
     match ca_delayMs a with Some d => [("delayMs", Json.JNum d)] | None => [] end ++
     match ca_errorInjected a with
     | Some b => [("errorInjected", Json.JBool b)] | None => [] end ++
     match ca_responseCorrupted a with
     | Some b => [("responseCorrupted", Json.JBool b)] | None => [] end).

End Chaos.

(* ================================================================== *)
(** ** Exceptions and results *)
(* ================================================================== *)

(** What a JavaScript [throw] carries in the modelled code: the [TypeError]
    of a property read on [null] or of a refused bound parameter, the
    [RangeError] of a wrong number of bound parameters, and the error of
    the SQLite driver with its result code. *)
Inductive Exn : Type :=
| TypeError (what : string)
| RangeError (what : string)
| SqliteError (code : string).

Inductive Result (A : Type) : Type :=
| Ok (a : A)
| Throw (e : Exn).

Arguments Ok {A} a.
Arguments Throw {A} e.

Definition is_Ok {A : Type} (r : Result A) : bool :=
  match r with Ok _ => true | Throw _ => false end.

(* ================================================================== *)
(** ** Trace events ([tracer/types.ts]) *)
(* ================================================================== *)

Module Events.
Import Json.

Inductive StressOutcome : Type := pass | graceful_fail | crash_or_hang.

Definition outcome_text (o : StressOutcome) : string :=
  match o with
  | pass => "pass"
  | graceful_fail => "graceful_fail"
  | crash_or_hang => "crash_or_hang"
  end.

(** The [mutation] member of a [StressMutationEvent]. *)
Record MutationInfo : Type := {
  mi_type : string;
  mi_description : string;
  mi_input : json
}.

(** The union [TraceEvent]; a constructor is named by the tag [t] of its
    interface.  Members typed [unknown] or filled from parsed messages are
    JSON values. *)
Inductive TraceEvent : Type :=
| rpc_request (id : option json) (method : json) (params : option json) (ts : Z)
| rpc_response (id : option json) (result error : option json) (ts : Z)
    (latencyMs : option Z)
| tool_call (tool : json) (args : option json) (ts : Z) (callId : string)
| tool_result (callId : string) (ok : bool) (result error : option json)
    (ts : Z) (latencyMs : Z) (chaos : option Chaos.ChaosApplied)
| session_start (sessionId target targetCmd : string) (targetArgs : list string)
    (chaosConfig : option Chaos.ChaosConfig) (ts : Z)
| session_end (sessionId : string) (ts : Z) (totalCalls totalErrors : Z)
| stress_mutation (ts : Z) (tool : string) (mutation : MutationInfo)
    (outcome : StressOutcome) (result error : option json) (latencyMs : Z)
| chat_message (ts : Z) (role content : string)
    (toolCalls : option (list (string * json))).

(** [event.t]. *)
Definition event_t (e : TraceEvent) : string :=
  match e with
  | rpc_request _ _ _ _ => "rpc_request"
  | rpc_response _ _ _ _ _ => "rpc_response"
  | tool_call _ _ _ _ => "tool_call"
  | tool_result _ _ _ _ _ _ _ => "tool_result"
  | session_start _ _ _ _ _ _ => "session_start"
  | session_end _ _ _ _ => "session_end"
  | stress_mutation _ _ _ _ _ _ _ => "stress_mutation"
  | chat_message _ _ _ _ => "chat_message"
  end.

(** [event.ts]. *)
Definition event_ts (e : TraceEvent) : Z :=
  match e with
  | rpc_request _ _ _ ts | rpc_response _ _ _ ts _ | tool_call _ _ ts _
  | tool_result _ _ _ _ ts _ _ | session_start _ _ _ _ _ ts
  | session_end _ ts _ _ | stress_mutation ts _ _ _ _ _ _
  | chat_message ts _ _ _ => ts
  end.

End Events.

(* ================================================================== *)
(** ** The SQL statements that [RunQueries] assembles as text *)
(* ================================================================== *)

(** [listRuns] and [getRunEvents] build their statement by appending
    clauses to a string, and hand it to [db.prepare].  The module reads
    such a string back the way SQLite's grammar does for this family of
    statements,

      SELECT * FROM t WHERE c [AND c]... ORDER BY col ASC|DESC
        [LIMIT ? [OFFSET ?]]

    where [OFFSET] exists only as a part of the [LIMIT] clause, and runs
    the statement over a table. *)

Module Sql.

Inductive SqlValue : Type :=
| SqlNull
| SqlInt (n : Z)
| SqlText (s : string).

Inductive Cond : Type :=
| CTrue
| CEq (col : string)
| CLike (col : string).

Record Select : Type := {
  sel_table : string;
  sel_where : list Cond;
  sel_order_by : string;
  sel_desc : bool;
  sel_limit : bool;
  sel_offset : bool
}.

(** Blank-separated tokens. *)
Fixpoint tokens_from (s : string) (cur : string) : list string :=
  match s with
  | EmptyString => if bool_decide (cur = "") then [] else [cur]
  | String c s' =>
      if bool_decide (c = " "%char) then
        if bool_decide (cur = "") then tokens_from s' ""
        else cur :: tokens_from s' ""
      else tokens_from s' (cur ++ String c "")
  end.

Definition tokens (s : string) : list string := tokens_from s "".

Definition eqs (t k : string) : bool := bool_decide (t = k).

(** [c AND c ...]; returns the conditions and the tokens that follow. *)
Fixpoint parse_conds (ts : list string) : option (list Cond * list string) :=
  let more (c : Cond) (rest : list string) :=
    match rest with
    | t :: rest' =>
        if eqs t "AND" then
          match parse_conds rest' with
          | Some (cs, r) => Some (c :: cs, r)
          | None => None
          end
        else Some ([c], rest)
    | [] => Some ([c], [])
    end in
  match ts with
  | [] => None
  | t1 :: ts1 =>
      if eqs t1 "1=1" then more CTrue ts1
      else match ts1 with
           | op :: q :: ts3 =>
               if eqs q "?" then
                 if eqs op "=" then more (CEq t1) ts3
                 else if eqs op "LIKE" then more (CLike t1) ts3
                 else None
               else None
           | _ => None
           end
  end.

Definition syntax_error {A : Type} : Result A :=
  Throw (SqliteError "SQLITE_ERROR").

(** [db.prepare(sql)]. *)
Definition prepare (sql : string) : Result Select :=
  match tokens sql with
  | s :: star :: from :: tbl :: wh :: rest =>
      if eqs s "SELECT" && eqs star "*" && eqs from "FROM" && eqs wh "WHERE" then
        match parse_conds rest with
        | Some (cs, o :: b :: col :: dir :: tail) =>
            if eqs o "ORDER" && eqs b "BY" && (eqs dir "ASC" || eqs dir "DESC") then
              let q l f :=
                {| sel_table := tbl; sel_where := cs; sel_order_by := col;
                   sel_desc := eqs dir "DESC"; sel_limit := l;
                   sel_offset := f |} in
              match tail with
              | [] => Ok (q false false)
              | [l; m] =>
                  if eqs l "LIMIT" && eqs m "?" then Ok (q true false)
                  else syntax_error
              | [l; m; f; n] =>
                  if eqs l "LIMIT" && eqs m "?" && eqs f "OFFSET" && eqs n "?"
                  then Ok (q true true)
                  else syntax_error
              | _ => syntax_error
              end
            else syntax_error
        | _ => syntax_error
        end
      else syntax_error
  | _ => syntax_error
  end.

(** [=] of two values; [NULL] equals nothing. *)
Definition sql_eq (a b : SqlValue) : bool :=
  match a, b with
  | SqlInt x, SqlInt y => (x =? y)%Z
  | SqlText x, SqlText y => bool_decide (x = y)
  | _, _ => false
  end.

(** The order of [ORDER BY]: [NULL] first, then numbers, then text. *)
Definition sql_le (a b : SqlValue) : bool :=
  match a, b with
  | SqlNull, _ => true
  | SqlInt _, SqlNull => false
  | SqlInt x, SqlInt y => (x <=? y)%Z
  | SqlInt _, SqlText _ => true
  | SqlText x, SqlText y => String.leb x y
  | SqlText _, _ => false
  end.

Definition lower (c : ascii) : ascii :=
  let n := nat_of_ascii c in
  if (65 <=? n)%nat && (n <=? 90)%nat then ascii_of_nat (n + 32) else c.

(** Bytes 10xxxxxx continue a UTF-8 character. *)
Definition continuation (c : ascii) : bool :=
  let n := nat_of_ascii c in (128 <=? n)%nat && (n <? 192)%nat.

Fixpoint drop_continuation (s : list ascii) : list ascii :=
  match s with
  | c :: s' => if continuation c then drop_continuation s' else s
  | [] => []
  end.

(** [LIKE]: [%] is any run of characters, [_] is one character, letters of
    ASCII match in either case. *)
Fixpoint like (p s : list ascii) : bool :=
  match p with
  | [] => match s with [] => true | _ => false end
  | c :: p' =>
      if bool_decide (c = "%"%char) then
        (fix any (s : list ascii) : bool :=
           like p' s || match s with
                        | [] => false
                        | _ :: s' => any s'
                        end) s
      else if bool_decide (c = "_"%char) then
        match s with
        | _ :: s' => like p' (drop_continuation s')
        | [] => false
        end
      else
        match s with
        | x :: s' => bool_decide (lower c = lower x) && like p' s'
        | [] => false
        end
  end.

Definition sql_like (v pattern : SqlValue) : bool :=
  match v, pattern with
  | SqlText s, SqlText p => like (list_ascii_of_string p) (list_ascii_of_string s)
  | _, _ => false
  end.

Section Run.
Context {R : Type} (column : string -> R -> SqlValue).

(** The [WHERE] clause; each [?] takes the next bound value. *)
Fixpoint where_ (cs : list Cond) (params : list SqlValue) (rows : list R)
  : option (list R * list SqlValue) :=
  match cs with
  | [] => Some (rows, params)
  | CTrue :: cs' => where_ cs' params rows
  | CEq c :: cs' =>
      match params with
      | v :: ps =>
          where_ cs' ps (filter (fun r => sql_eq (column c r) v = true) rows)
      | [] => None
      end
  | CLike c :: cs' =>
      match params with
      | v :: ps =>
          where_ cs' ps (filter (fun r => sql_like (column c r) v = true) rows)
      | [] => None
      end
  end.

Definition before (col : string) (desc : bool) (x y : R) : Prop :=
  if desc then sql_le (column col y) (column col x) = true
  else sql_le (column col x) (column col y) = true.

#[local] Instance before_dec col desc : RelDecision (before col desc).
Proof. intros x y. unfold before. destruct desc; apply _. Defined.

(** Rows with equal keys keep their order in the table. *)
Definition order_by (col : string) (desc : bool) (rows : list R) : list R :=
  merge_sort (before col desc) rows.

(** A negative [LIMIT] is no limit; a negative [OFFSET] is none. *)
Definition limit (n : Z) (rows : list R) : list R :=
  if (n <? 0)%Z then rows else take (Z.to_nat n) rows.
Definition offset (n : Z) (rows : list R) : list R := drop (Z.to_nat n) rows.

Definition wrong_arity {A : Type} : Result A :=
  Throw (RangeError "Wrong number of parameter values").
Definition mismatch {A : Type} : Result A :=
  Throw (SqliteError "SQLITE_MISMATCH").

(** [stmt.all(...params)]. *)
Definition all (q : Select) (params : list SqlValue) (rows : list R)
  : Result (list R) :=
  match where_ (sel_where q) params rows with
  | None => wrong_arity
  | Some (kept, ps) =>
      let sorted := order_by (sel_order_by q) (sel_desc q) kept in
      match sel_limit q, sel_offset q, ps with
      | false, _, [] => Ok sorted
      | true, false, [SqlInt l] => Ok (limit l sorted)
      | true, true, [SqlInt l; SqlInt f] => Ok (limit l (offset f sorted))
      | true, false, [_] | true, true, [_; _] => mismatch
      | _, _, _ => wrong_arity
      end
  end.
End Run.

End Sql.

(* ================================================================== *)
(** ** Journal store ([server/db/schema.ts], [server/db/queries.ts]) *)
(* ================================================================== *)

Module Store.
Import Json Events.

Inductive Status : Type := pending | running | completed | failed.
Inductive RunType : Type := proxy | stress.

Definition status_text (s : Status) : string :=
  match s with
  | pending => "pending"
  | running => "running"
  | completed => "completed"
  | failed => "failed"
  end.

Definition run_type_text (t : RunType) : string :=
  match t with proxy => "proxy" | stress => "stress" end.

#[global] Instance Status_eq_dec : EqDecision Status.
Proof. solve_decision. Defined.
#[global] Instance RunType_eq_dec : EqDecision RunType.
Proof. solve_decision. Defined.

(** *** Rows.  A field is named by its column, after a prefix for the table
    ([pj_], [ag_], [r_], [ev_]).  Timestamps are clock values. *)

Record Project : Type := {
  pj_id : string;
  pj_name : string;
  pj_description : option string;
  pj_created_at : Z
}.

Record Agent : Type := {
  ag_id : string;
  ag_project_id : string;
  ag_name : string;
  ag_target : string;
  ag_chaos_profile : option string;
  ag_created_at : Z
}.

Record Run : Type := {
  r_id : string;
  r_agent_id : option string;
  r_name : option string;
  r_target : string;
  r_run_type : RunType;
  r_chaos_profile : option string;
  r_status : Status;
  r_started_at : option Z;
  r_ended_at : option Z;
  r_total_calls : Z;
  r_total_errors : Z;
  r_stress_passed : Z;
  r_stress_graceful : Z;
  r_stress_crashed : Z;
  r_stress_score : Z;
  r_created_at : Z
}.

Record TraceEventRow : Type := {
  ev_id : Z;
  ev_run_id : string;
  ev_event_type : string;
  ev_method : option string;
  ev_tool_name : option string;
  ev_params_json : option string;
  ev_result_json : option string;
  ev_error_json : option string;
  ev_latency_ms : option Z;
  ev_timestamp : Z;
  ev_chaos_applied : option string
}.

(** The database: the four tables of [initDatabase], rows in insertion
    order, and the counter behind [INTEGER PRIMARY KEY AUTOINCREMENT].
    Foreign keys are enforced, as in the SQLite build of the driver. *)
Record Database : Type := {
  projects : list Project;
  agents : list Agent;
  runs : list Run;
  trace_events : list TraceEventRow;
  last_event_id : Z
}.

Definition empty_db : Database :=
  {| projects := []; agents := []; runs := []; trace_events := [];
     last_event_id := 0 |}.

Definition with_projects (db : Database) (l : list Project) : Database :=
  {| projects := l; agents := agents db; runs := runs db;
     trace_events := trace_events db; last_event_id := last_event_id db |}.

Definition with_agents (db : Database) (l : list Agent) : Database :=
  {| projects := projects db; agents := l; runs := runs db;
     trace_events := trace_events db; last_event_id := last_event_id db |}.

Definition with_runs (db : Database) (l : list Run) : Database :=
  {| projects := projects db; agents := agents db; runs := l;
     trace_events := trace_events db; last_event_id := last_event_id db |}.

Definition with_trace_events (db : Database) (l : list TraceEventRow)
  : Database :=
  {| projects := projects db; agents := agents db; runs := runs db;
     trace_events := l; last_event_id := last_event_id db |}.

(** [UPDATE t SET ... WHERE c]: the rows that satisfy [c] are rewritten in
    place. *)
Definition update_where {A : Type} (c : A -> bool) (f : A -> A) (l : list A)
  : list A :=
  map (fun x => if c x then f x else x) l.

(** *** Projects *)

Definition getProject (id : string) (db : Database) : option Project :=
  find (fun p => bool_decide (pj_id p = id)) (projects db).

Definition getProjectByName (name : string) (db : Database) : option Project :=
  find (fun p => bool_decide (pj_name p = name)) (projects db).

Definition createProject (id : string) (now : Z) (name : string)
    (description : option string) (db : Database)
  : Result (Project * Database) :=
  if existsb (fun p => bool_decide (pj_id p = id)) (projects db)
  then Throw (SqliteError "SQLITE_CONSTRAINT_PRIMARYKEY")
  else if existsb (fun p => bool_decide (pj_name p = name)) (projects db)
  then Throw (SqliteError "SQLITE_CONSTRAINT_UNIQUE")
  else
    let p := {| pj_id := id; pj_name := name;
                pj_description := nonempty description;
                pj_created_at := now |} in
    Ok (p, with_projects db (projects db ++ [p])).

Definition clear_agent (r : Run) : Run :=
  {| r_id := r_id r; r_agent_id := None; r_name := r_name r;
     r_target := r_target r; r_run_type := r_run_type r;
     r_chaos_profile := r_chaos_profile r; r_status := r_status r;
     r_started_at := r_started_at r; r_ended_at := r_ended_at r;
     r_total_calls := r_total_calls r; r_total_errors := r_total_errors r;
     r_stress_passed := r_stress_passed r;
     r_stress_graceful := r_stress_graceful r;
     r_stress_crashed := r_stress_crashed r;
     r_stress_score := r_stress_score r; r_created_at := r_created_at r |}.

(** [runs.agent_id ... REFERENCES agents(id) ON DELETE SET NULL]: what the
    removal of the agents [gone] does to the table of runs. *)
Definition runs_of_removed_agent (gone : list string) (r : Run) : bool :=
  match r_agent_id r with
  | Some a => bool_decide (a ∈ gone)
  | None => false
  end.

Definition on_delete_agents (gone : list string) (rs : list Run) : list Run :=
  update_where (runs_of_removed_agent gone) clear_agent rs.

(** [DELETE FROM projects WHERE id = ?], with
    [agents.project_id ... REFERENCES projects(id) ON DELETE CASCADE]. *)
Definition deleteProject (id : string) (db : Database) : bool * Database :=
  if existsb (fun p => bool_decide (pj_id p = id)) (projects db) then
    let gone := map ag_id (filter (fun a => ag_project_id a = id) (agents db)) in
    (true,
     {| projects := filter (fun p => pj_id p <> id) (projects db);
        agents := filter (fun a => ag_project_id a <> id) (agents db);
        runs := on_delete_agents gone (runs db);
        trace_events := trace_events db;
        last_event_id := last_event_id db |})
  else (false, db).

(** *** Agents *)

Definition getAgent (id : string) (db : Database) : option Agent :=
  find (fun a => bool_decide (ag_id a = id)) (agents db).

Definition getAgentByName (projectId name : string) (db : Database)
  : option Agent :=
  find (fun a => bool_decide (ag_project_id a = projectId)
                 && bool_decide (ag_name a = name)) (agents db).

(** [chaosProfile] is the text [JSON.stringify(chaosProfile)] of a given
    profile. *)
Definition createAgent (id : string) (now : Z) (projectId name target : string)
    (chaosProfile : option string) (db : Database)
  : Result (Agent * Database) :=
  if existsb (fun a => bool_decide (ag_id a = id)) (agents db)
  then Throw (SqliteError "SQLITE_CONSTRAINT_PRIMARYKEY")
  else if existsb (fun a => bool_decide (ag_project_id a = projectId)
                            && bool_decide (ag_name a = name)) (agents db)
  then Throw (SqliteError "SQLITE_CONSTRAINT_UNIQUE")
  else if negb (existsb (fun p => bool_decide (pj_id p = projectId))
                  (projects db))
  then Throw (SqliteError "SQLITE_CONSTRAINT_FOREIGNKEY")
  else
    let a := {| ag_id := id; ag_project_id := projectId; ag_name := name;
                ag_target := target; ag_chaos_profile := chaosProfile;
                ag_created_at := now |} in
    Ok (a, with_agents db (agents db ++ [a])).

Definition deleteAgent (id : string) (db : Database) : bool * Database :=
  if existsb (fun a => bool_decide (ag_id a = id)) (agents db) then
    (true,
     {| projects := projects db;
        agents := filter (fun a => ag_id a <> id) (agents db);
        runs := on_delete_agents [id] (runs db);
        trace_events := trace_events db;
        last_event_id := last_event_id db |})
  else (false, db).

(** *** Runs *)

Definition set_total_calls (n : Z) (r : Run) : Run :=
  {| r_id := r_id r; r_agent_id := r_agent_id r; r_name := r_name r;
     r_target := r_target r; r_run_type := r_run_type r;
     r_chaos_profile := r_chaos_profile r; r_status := r_status r;
     r_started_at := r_started_at r; r_ended_at := r_ended_at r;
     r_total_calls := n; r_total_errors := r_total_errors r;
     r_stress_passed := r_stress_passed r;
     r_stress_graceful := r_stress_graceful r;
     r_stress_crashed := r_stress_crashed r;
     r_stress_score := r_stress_score r; r_created_at := r_created_at r |}.

Definition set_total_errors (n : Z) (r : Run) : Run :=
  {| r_id := r_id r; r_agent_id := r_agent_id r; r_name := r_name r;
     r_target := r_target r; r_run_type := r_run_type r;
     r_chaos_profile := r_chaos_profile r; r_status := r_status r;
     r_started_at := r_started_at r; r_ended_at := r_ended_at r;
     r_total_calls := r_total_calls r; r_total_errors := n;
     r_stress_passed := r_stress_passed r;
     r_stress_graceful := r_stress_graceful r;
     r_stress_crashed := r_stress_crashed r;
     r_stress_score := r_stress_score r; r_created_at := r_created_at r |}.

Definition set_status (s : Status) (r : Run) : Run :=
  {| r_id := r_id r; r_agent_id := r_agent_id r; r_name := r_name r;
     r_target := r_target r; r_run_type := r_run_type r;
     r_chaos_profile := r_chaos_profile r; r_status := s;
     r_started_at := r_started_at r; r_ended_at := r_ended_at r;
     r_total_calls := r_total_calls r; r_total_errors := r_total_errors r;
     r_stress_passed := r_stress_passed r;
     r_stress_graceful := r_stress_graceful r;
     r_stress_crashed := r_stress_crashed r;
     r_stress_score := r_stress_score r; r_created_at := r_created_at r |}.

Definition set_started_at (t : Z) (r : Run) : Run :=
  {| r_id := r_id r; r_agent_id := r_agent_id r; r_name := r_name r;
     r_target := r_target r; r_run_type := r_run_type r;
     r_chaos_profile := r_chaos_profile r; r_status := r_status r;
     r_started_at := Some t; r_ended_at := r_ended_at r;
     r_total_calls := r_total_calls r; r_total_errors := r_total_errors r;
     r_stress_passed := r_stress_passed r;
     r_stress_graceful := r_stress_graceful r;
     r_stress_crashed := r_stress_crashed r;
     r_stress_score := r_stress_score r; r_created_at := r_created_at r |}.

Definition set_ended_at (t : Z) (r : Run) : Run :=
  {| r_id := r_id r; r_agent_id := r_agent_id r; r_name := r_name r;
     r_target := r_target r; r_run_type := r_run_type r;
     r_chaos_profile := r_chaos_profile r; r_status := r_status r;
     r_started_at := r_started_at r; r_ended_at := Some t;
     r_total_calls := r_total_calls r; r_total_errors := r_total_errors r;
     r_stress_passed := r_stress_passed r;
     r_stress_graceful := r_stress_graceful r;
     r_stress_crashed := r_stress_crashed r;
     r_stress_score := r_stress_score r; r_created_at := r_created_at r |}.

Definition has_id (id : string) (r : Run) : bool := bool_decide (r_id r = id).

Definition getRun (id : string) (db : Database) : option Run :=
  find (has_id id) (runs db).

(** [SELECT COUNT( * ) FROM trace_events WHERE run_id = ? AND event_type = ?]. *)
Definition count_events (runId type : string) (db : Database) : Z :=
  Z.of_nat (length (filter (fun e => ev_run_id e = runId
                                     /\ ev_event_type e = type)
                      (trace_events db))).

Definition is_stale (agentId : string) (runType : RunType) (r : Run) : bool :=
  bool_decide (r_agent_id r = Some agentId)
  && bool_decide (r_status r = running)
  && bool_decide (r_run_type r = runType).

(** [cleanupStaleRuns(agentId, runType)]: two [UPDATE]s over the runs of
    the agent that are still [running]. *)
Definition cleanupStaleRuns (agentId : option string) (runType : option RunType)
    (now : Z) (db : Database) : Z * Database :=
  match nonempty agentId with
  | None => (0, db)
  | Some a =>
      let t := match runType with Some t => t | None => proxy end in
      let runs1 :=
        update_where (is_stale a t)
          (fun r => set_total_calls (count_events (r_id r) "tool_call" db) r)
          (runs db) in
      let runs2 :=
        update_where (is_stale a t)
          (fun r => set_ended_at now (set_status completed r)) runs1 in
      (Z.of_nat (length (filter (fun r => is_stale a t r = true) runs1)),
       with_runs db runs2)
  end.

(** [createRun(target, chaosProfile, agentId, runType)]; [id] is the fresh
    [uuidv4()], [chaosProfile] the text of the profile.  The clean-up is
    kept when the [INSERT] is refused. *)
Definition createRun (id : string) (now : Z) (target : string)
    (chaosProfile : option string) (agentId : option string)
    (runType : RunType) (db : Database) : Result Run * Database :=
  let '(_, db1) := cleanupStaleRuns agentId (Some runType) now db in
  if existsb (has_id id) (runs db1)
  then (Throw (SqliteError "SQLITE_CONSTRAINT_PRIMARYKEY"), db1)
  else if match nonempty agentId with
          | Some a => negb (existsb (fun x => bool_decide (ag_id x = a))
                              (agents db1))
          | None => false
          end
  then (Throw (SqliteError "SQLITE_CONSTRAINT_FOREIGNKEY"), db1)
  else
    let r := {| r_id := id; r_agent_id := nonempty agentId; r_name := None;
                r_target := target; r_run_type := runType;
                r_chaos_profile := chaosProfile; r_status := pending;
                r_started_at := None; r_ended_at := None;
                r_total_calls := 0; r_total_errors := 0;
                r_stress_passed := 0; r_stress_graceful := 0;
                r_stress_crashed := 0; r_stress_score := 0;
                r_created_at := now |} in
    (Ok r, with_runs db1 (runs db1 ++ [r])).

(** The optional [stats] argument of [updateRunStatus]. *)
Record RunStats : Type := {
  totalCalls : option Z;
  totalErrors : option Z
}.

Definition stat {A : Type} (f : RunStats -> option A) (stats : option RunStats)
  : option A :=
  match stats with Some s => f s | None => None end.

(** The [SET] list [updateRunStatus] assembles, applied to one row. *)
Definition apply_status (status : Status) (stats : option RunStats) (now : Z)
    (r : Run) : Run :=
  let r1 := set_status status r in
  let r2 := if bool_decide (status = running) then set_started_at now r1
            else r1 in
  let r3 := if bool_decide (status = completed) || bool_decide (status = failed)
            then set_ended_at now r2 else r2 in
  let r4 := match stat totalCalls stats with
            | Some n => set_total_calls n r3
            | None => r3
            end in
  match stat totalErrors stats with
  | Some n => set_total_errors n r4
  | None => r4
  end.

(** [updateRunStatus(id, status, stats)]:
    [UPDATE runs SET status = ?, ... WHERE id = ?]. *)
Definition updateRunStatus (id : string) (status : Status)
    (stats : option RunStats) (now : Z) (db : Database) : Database :=
  with_runs db (update_where (has_id id) (apply_status status stats now)
                  (runs db)).

(** [DELETE FROM runs WHERE id = ?], with
    [trace_events.run_id ... REFERENCES runs(id) ON DELETE CASCADE]. *)
Definition deleteRun (id : string) (db : Database) : bool * Database :=
  if existsb (has_id id) (runs db) then
    (true,
     {| projects := projects db; agents := agents db;
        runs := filter (fun r => r_id r <> id) (runs db);
        trace_events := filter (fun e => ev_run_id e <> id) (trace_events db);
        last_event_id := last_event_id db |})
  else (false, db).

(** *** Events *)

(** A value bound to a [TEXT] column: the driver takes strings, numbers
    and [null], and refuses the rest. *)
Definition bind_text (v : json) : Result (option string) :=
  match v with
  | JStr s => Ok (Some s)
  | JNum n => Ok (Some (pretty n))
  | JNull => Ok None
  | JBool _ | JArr _ | JObj _ =>
      Throw (TypeError
        "SQLite3 can only bind numbers, strings, bigints, buffers, and null")
  end.

Definition MutationInfo_json (m : MutationInfo) : json :=
  JObj [("type", JStr (mi_type m));
        ("description", JStr (mi_description m));
        ("input", mi_input m)].

Definition toolCalls_json (cs : list (string * json)) : json :=
  JArr (map (fun c => JObj [("name", JStr (fst c)); ("arguments", snd c)]) cs).

(** The ten values [insertTraceEvent] binds, but for the run and row
    identifiers. *)
Definition row_of_event (id : Z) (runId : string) (event : TraceEvent)
  : Result TraceEventRow :=
  let row method toolName params result error latency chaos :=
    {| ev_id := id; ev_run_id := runId; ev_event_type := event_t event;
       ev_method := method; ev_tool_name := toolName;
       ev_params_json := params; ev_result_json := result;
       ev_error_json := error; ev_latency_ms := latency;
       ev_timestamp := event_ts event; ev_chaos_applied := chaos |} in
  match event with
  | rpc_request _ method params _ =>
      match bind_text method with
      | Ok m => Ok (row m None (stringify_if_truthy params) None None None None)
      | Throw e => Throw e
      end
  | rpc_response _ result error _ latencyMs =>
      Ok (row None None None (stringify_if_truthy result)
            (stringify_if_truthy error) latencyMs None)
  | tool_call tool args _ _ =>
      match bind_text tool with
      | Ok t => Ok (row None t (stringify_if_truthy args) None None None None)
      | Throw e => Throw e
      end
  | tool_result _ _ result error _ latencyMs chaos =>
      Ok (row None None None (stringify_if_truthy result)
            (stringify_if_truthy error) (Some latencyMs)
            (match chaos with
             | Some c => Some (stringify (Chaos.ChaosApplied_json c))
             | None => None
             end))
  | session_start _ _ _ _ _ _ | session_end _ _ _ _ =>
      Ok (row None None None None None None None)
  | stress_mutation _ tool mutation outcome result error latencyMs =>
      Ok (row None (Some tool)
            (Some (stringify (JObj [("mutation", MutationInfo_json mutation);
                                    ("outcome", JStr (outcome_text outcome))])))
            (stringify_if_truthy result) (stringify_if_truthy error)
            (Some latencyMs) None)
  | chat_message _ role content toolCalls =>
      Ok (row None None
            (Some (stringify
                     (JObj ([("role", JStr role); ("content", JStr content)] ++
                            match toolCalls with
                            | Some cs => [("toolCalls", toolCalls_json cs)]
                            | None => []
                            end))))
            None None None None)
  end.

(** [insertTraceEvent(runId, event)]. *)
Definition insertTraceEvent (runId : string) (event : TraceEvent)
    (db : Database) : Result Database :=
  match row_of_event (last_event_id db + 1) runId event with
  | Throw e => Throw e
  | Ok row =>
      if existsb (has_id runId) (runs db) then
        Ok {| projects := projects db; agents := agents db; runs := runs db;
              trace_events := trace_events db ++ [row];
              last_event_id := last_event_id db + 1 |}
      else Throw (SqliteError "SQLITE_CONSTRAINT_FOREIGNKEY")
  end.

Definition getRunEventCount (runId : string) (db : Database) : Z :=
  Z.of_nat (length (filter (fun e => ev_run_id e = runId) (trace_events db))).

(** *** Stress statistics *)

Definition set_stress (passed graceful crashed score total : Z) (r : Run) : Run :=
  {| r_id := r_id r; r_agent_id := r_agent_id r; r_name := r_name r;
     r_target := r_target r; r_run_type := r_run_type r;
     r_chaos_profile := r_chaos_profile r; r_status := r_status r;
     r_started_at := r_started_at r; r_ended_at := r_ended_at r;
     r_total_calls := total; r_total_errors := r_total_errors r;
     r_stress_passed := passed; r_stress_graceful := graceful;
     r_stress_crashed := crashed; r_stress_score := score;
     r_created_at := r_created_at r |}.

Definition updateStressStats (runId : string) (passed graceful crashed score : Z)
    (db : Database) : Database :=
  let totalCalls := passed + graceful + crashed in
  with_runs db
    (update_where (has_id runId)
       (set_stress passed graceful crashed score totalCalls) (runs db)).

(** *** Queries assembled as text *)

Import Sql.

Definition run_column (c : string) (r : Run) : SqlValue :=
  if eqs c "id" then SqlText (r_id r)
  else if eqs c "agent_id" then
    match r_agent_id r with Some a => SqlText a | None => SqlNull end
  else if eqs c "status" then SqlText (status_text (r_status r))
  else if eqs c "run_type" then SqlText (run_type_text (r_run_type r))
  else if eqs c "target" then SqlText (r_target r)
  else if eqs c "created_at" then SqlInt (r_created_at r)
  else SqlNull.

Definition event_column (c : string) (e : TraceEventRow) : SqlValue :=
  if eqs c "id" then SqlInt (ev_id e)
  else if eqs c "run_id" then SqlText (ev_run_id e)
  else if eqs c "event_type" then SqlText (ev_event_type e)
  else SqlNull.

Record RunFilters : Type := {
  f_status : option string;
  f_target : option string;
  f_agentId : option string;
  f_runType : option RunType;
  f_limit : option Z;
  f_offset : option Z
}.

(** [if (n)] on an optional number: [undefined], [NaN] and [0] are falsy;
    an absent or unparsed number is [None]. *)
Definition nonzero (n : option Z) : option Z :=
  match n with
  | Some z => if (z =? 0)%Z then None else Some z
  | None => None
  end.

(** One [if (x) { sql += clause; params.push(v) }]. *)
Definition clause {A : Type} (x : option A) (text : string) (v : A -> SqlValue)
    (acc : string * list SqlValue) : string * list SqlValue :=
  match x with
  | Some a => (fst acc ++ text, (snd acc ++ [v a])%list)
  | None => acc
  end.

(** The text and the bound values of [listRuns(filters)]. *)
Definition listRuns_sql (filters : RunFilters) : string * list SqlValue :=
  let q0 := ("SELECT * FROM runs WHERE 1=1", []) in
  let q1 := clause (nonempty (f_agentId filters)) " AND agent_id = ?" SqlText q0 in
  let q2 := clause (nonempty (f_status filters)) " AND status = ?" SqlText q1 in
  let q3 := clause (f_runType filters) " AND run_type = ?"
              (fun t => SqlText (run_type_text t)) q2 in
  let q4 := clause (nonempty (f_target filters)) " AND target LIKE ?"
              (fun t => SqlText ("%" ++ t ++ "%")) q3 in
  let q5 := (fst q4 ++ " ORDER BY created_at DESC", snd q4) in
  let q6 := clause (nonzero (f_limit filters)) " LIMIT ?" SqlInt q5 in
  clause (nonzero (f_offset filters)) " OFFSET ?" SqlInt q6.

Definition no_such_table {A : Type} : Result A :=
  Throw (SqliteError "SQLITE_ERROR").

Definition listRuns (filters : RunFilters) (db : Database) : Result (list Run) :=
  let '(sql, params) := listRuns_sql filters in
  match prepare sql with
  | Throw e => Throw e
  | Ok q =>
      if eqs (sel_table q) "runs" then all run_column q params (runs db)
      else no_such_table
  end.

(** The text and the bound values of [getRunEvents(runId, limit, offset)]. *)
Definition getRunEvents_sql (runId : string) (limit offset : option Z)
  : string * list SqlValue :=
  let q0 := ("SELECT * FROM trace_events WHERE run_id = ? ORDER BY id ASC",
             [SqlText runId]) in
  let q1 := clause (nonzero limit) " LIMIT ?" SqlInt q0 in
  clause (nonzero offset) " OFFSET ?" SqlInt q1.

Definition getRunEvents (runId : string) (limit offset : option Z)
    (db : Database) : Result (list TraceEventRow) :=
  let '(sql, params) := getRunEvents_sql runId limit offset in
  match prepare sql with
  | Throw e => Throw e
  | Ok q =>
      if eqs (sel_table q) "trace_events"
      then all event_column q params (trace_events db)
      else no_such_table
  end.

(** *** Queries with a fixed text *)

Definition project_column (c : string) (p : Project) : SqlValue :=
  if eqs c "id" then SqlText (pj_id p)
  else if eqs c "name" then SqlText (pj_name p)
  else if eqs c "created_at" then SqlInt (pj_created_at p)
  else SqlNull.

Definition agent_column (c : string) (a : Agent) : SqlValue :=
  if eqs c "id" then SqlText (ag_id a)
  else if eqs c "project_id" then SqlText (ag_project_id a)
  else if eqs c "name" then SqlText (ag_name a)
  else if eqs c "created_at" then SqlInt (ag_created_at a)
  else SqlNull.

(** [SELECT * FROM projects ORDER BY created_at DESC]. *)
Definition listProjects (db : Database) : list Project :=
  order_by project_column "created_at" true (projects db).

(** [SELECT * FROM agents WHERE project_id = ? ORDER BY created_at DESC]. *)
Definition listAgents (projectId : string) (db : Database) : list Agent :=
  order_by agent_column "created_at" true
    (filter (fun a => sql_eq (agent_column "project_id" a) (SqlText projectId)
                      = true) (agents db)).

(** [SELECT * FROM runs WHERE agent_id = ? AND run_type = 'stress'
    ORDER BY created_at DESC LIMIT 1], read with [stmt.get]. *)
Definition getLatestStressRun (agentId : string) (db : Database) : option Run :=
  head
    (limit 1
       (order_by run_column "created_at" true
          (filter (fun r => sql_eq (run_column "run_type" r) (SqlText "stress")
                            = true)
             (filter (fun r => sql_eq (run_column "agent_id" r) (SqlText agentId)
                               = true) (runs db))))).

End Store.

(* ================================================================== *)
(** ** State and exceptions *)
(* ================================================================== *)

(** A computation over a mutable state [S] that returns or throws; what it
    wrote before a [throw] stays written. *)
Definition M (S A : Type) : Type := S -> Result A * S.

Definition ret {S A : Type} (a : A) : M S A := fun s => (Ok a, s).

Definition bind {S A B : Type} (m : M S A) (k : A -> M S B) : M S B :=
  fun s => match m s with
           | (Ok a, s') => k a s'
           | (Throw e, s') => (Throw e, s')
           end.

Definition throw {S A : Type} (e : Exn) : M S A := fun s => (Throw e, s).

(** [try { m } catch { h }]. *)
Definition try_catch {S A : Type} (m : M S A) (h : M S A) : M S A :=
  fun s => match m s with
           | (Ok a, s') => (Ok a, s')
           | (Throw _, s') => h s'
           end.

Definition gets {S A : Type} (f : S -> A) : M S A := fun s => (Ok (f s), s).
Definition modify {S : Type} (f : S -> S) : M S unit := fun s => (Ok tt, f s).
Definition of_result {S A : Type} (r : Result A) : M S A := fun s => (r, s).
Definition when {S : Type} (b : bool) (m : M S unit) : M S unit :=
  if b then m else ret tt.

Notation "'let*' x ':=' c 'in' k" := (bind c (fun x => k))
  (at level 10, x name, c at level 100, k at level 200).
Notation "c ';;' k" := (bind c (fun _ => k))
  (at level 100, k at level 200, right associativity).

(** [v.k], which throws when [v] is [null]. *)
Definition member {S : Type} (k : string) (v : Json.json) : M S (option Json.json) :=
  match v with
  | Json.JNull =>
      throw (TypeError ("Cannot read properties of null (reading '"
                        ++ k ++ "')"))
  | _ => ret (Json.prop k v)
  end.

(* ================================================================== *)
(** ** Trace recorder ([tracer/recorder.ts]) *)
(* ================================================================== *)

Module Tracer.
Import Json Events Store.

(** An entry of [pendingCalls]. *)
Record Pending : Type := {
  startTime : Z;
  tool : option json
}.

(** What the process does that a peer or an observer can see, in order. *)
Inductive Effect : Type :=
| Journaled (event : TraceEvent)
| Sleep (ms : Z)
| ToTarget (text : string)
| ToStdout (text : string)
| KillTarget.

(** The recorder with the database it writes to and the effects of the
    process so far.  The optional JSONL file and the notification of the
    server, which repeat each event, are left out. *)
Record Recorder : Type := {
  db : Database;
  sessionId : string;
  runId : option string;
  agentId : option string;
  callCount : Z;
  errorCount : Z;
  pendingCalls : gmap string Pending;
  effects : list Effect
}.

Definition with_db (d : Database) (r : Recorder) : Recorder :=
  {| db := d; sessionId := sessionId r; runId := runId r; agentId := agentId r;
     callCount := callCount r; errorCount := errorCount r;
     pendingCalls := pendingCalls r; effects := effects r |}.

Definition with_pending (m : gmap string Pending) (r : Recorder) : Recorder :=
  {| db := db r; sessionId := sessionId r; runId := runId r; agentId := agentId r;
     callCount := callCount r; errorCount := errorCount r;
     pendingCalls := m; effects := effects r |}.

Definition with_counts (calls errors : Z) (r : Recorder) : Recorder :=
  {| db := db r; sessionId := sessionId r; runId := runId r; agentId := agentId r;
     callCount := calls; errorCount := errors;
     pendingCalls := pendingCalls r; effects := effects r |}.

Definition emit (e : Effect) : M Recorder unit :=
  modify (fun r =>
    {| db := db r; sessionId := sessionId r; runId := runId r;
       agentId := agentId r; callCount := callCount r;
       errorCount := errorCount r; pendingCalls := pendingCalls r;
       effects := effects r ++ [e] |}).

(** [writeEvent(event)]. *)
Definition writeEvent (event : TraceEvent) : M Recorder unit :=
  let* id := gets (fun r => nonempty (runId r)) in
  match id with
  | Some run =>
      let* d := gets db in
      let* d' := of_result (insertTraceEvent run event d) in
      modify (with_db d') ;;
      emit (Journaled event)
  | None => ret tt
  end.

(** [recordRpcRequest(id, method, params)] at the clock value [now]. *)
Definition recordRpcRequest (id : option json) (method : json)
    (params : option json) (now : Z) : M Recorder unit :=
  writeEvent (rpc_request id method params now) ;;
  match id with
  | None => ret tt
  | Some i =>
      let callId := js_String i in
      modify (fun r =>
        with_pending (<[callId := {| startTime := now; tool := None |}]>
                        (pendingCalls r)) r) ;;
      if is_string "tools/call" method then
        let toolName := opt_prop "name" params in
        if truthy_opt toolName then
          modify (fun r =>
            with_pending (<[callId := {| startTime := now; tool := toolName |}]>
                            (pendingCalls r)) r) ;;
          writeEvent (tool_call (default JNull toolName)
                        (opt_prop "arguments" params) now callId)
        else ret tt
      else ret tt
  end.

(** [recordRpcResponse(id, result, error, chaos)] at the clock value [now]. *)
Definition recordRpcResponse (id : option json) (result error : option json)
    (chaos : option Chaos.ChaosApplied) (now : Z) : M Recorder unit :=
  let* latencyMs :=
    match id with
    | None => ret None
    | Some i =>
        let callId := js_String i in
        let* pending := gets (fun r => pendingCalls r !! callId) in
        match pending with
        | None => ret None
        | Some p =>
            let latency := now - startTime p in
            when (truthy_opt (tool p))
              (modify (fun r =>
                 with_counts (callCount r + 1)
                   (if truthy_opt error then errorCount r + 1
                    else errorCount r) r) ;;
               writeEvent (tool_result callId (negb (truthy_opt error)) result
                             error now latency chaos)) ;;
            modify (fun r => with_pending (delete callId (pendingCalls r)) r) ;;
            ret (Some latency)
        end
    end in
  writeEvent (rpc_response id result error now latencyMs).

(** [end()]. *)
Definition end_ (now : Z) : M Recorder unit :=
  let* r := gets (fun r => r) in
  writeEvent (session_end (sessionId r) now (callCount r) (errorCount r)) ;;
  match nonempty (runId r) with
  | Some run =>
      modify (fun r' =>
        with_db (updateRunStatus run completed
                   (Some {| totalCalls := Some (callCount r);
                            totalErrors := Some (errorCount r) |})
                   now (db r')) r')
  | None => ret tt
  end.

(** [new TraceRecorder(target, targetCmd, targetArgs, outputPath,
    chaosConfig, dbQueries, agentId)] over the database [d]; [uuid] is the
    identifier of the new run and [chaosText] the text of [chaosConfig]. *)
Definition new_TraceRecorder (uuid : string) (now : Z)
    (target targetCmd : string) (targetArgs : list string)
    (chaosConfig : option Chaos.ChaosConfig) (chaosText : option string)
    (agent : option string) (d : Database) : Result unit * Recorder :=
  let blank d' :=
    {| db := d'; sessionId := uuid; runId := None; agentId := agent;
       callCount := 0; errorCount := 0; pendingCalls := ∅; effects := [] |} in
  match createRun uuid now target chaosText agent proxy d with
  | (Throw e, d1) => (Throw e, blank d1)
  | (Ok run, d1) =>
      let d2 := updateRunStatus (r_id run) running None now d1 in
      writeEvent
        (session_start (r_id run) target targetCmd targetArgs chaosConfig now)
        {| db := d2; sessionId := r_id run; runId := Some (r_id run);
           agentId := agent; callCount := 0; errorCount := 0;
           pendingCalls := ∅; effects := [] |}
  end.

End Tracer.

(* ================================================================== *)
(** ** [parseCommand] ([commands/proxy.ts], [commands/stress.ts],
       [server/routes/stress.ts]: three copies of one function) *)
(* ================================================================== *)

Module Command.

Record Scan : Type := {
  parts : list string;
  current : string;
  inQuote : bool;
  quoteChar : ascii
}.

Definition is_quote (c : ascii) : bool :=
  bool_decide (c = Json.dquote) || bool_decide (c = "'"%char).

Definition is_blank (c : ascii) : bool :=
  bool_decide (c = " "%char) || bool_decide (c = ascii_of_nat 9).

(** One turn of the loop over the characters of [target]. *)
Definition scan (st : Scan) (char : ascii) : Scan :=
  if inQuote st then
    if bool_decide (char = quoteChar st) then
      {| parts := parts st; current := current st; inQuote := false;
         quoteChar := quoteChar st |}
    else
      {| parts := parts st; current := current st ++ String char "";
         inQuote := true; quoteChar := quoteChar st |}
  else if is_quote char then
    {| parts := parts st; current := current st; inQuote := true;
       quoteChar := char |}
  else if is_blank char then
    if bool_decide (current st = "") then st
    else {| parts := parts st ++ [current st]; current := "";
            inQuote := false; quoteChar := quoteChar st |}
  else
    {| parts := parts st; current := current st ++ String char "";
       inQuote := false; quoteChar := quoteChar st |}.

(** [parseCommand(target)]: [cmd] is [undefined] when there is no part. *)
Definition parseCommand (target : string) : option string * list string :=
  let st := fold_left scan (list_ascii_of_string target)
              {| parts := []; current := ""; inQuote := false;
                 quoteChar := "000"%char |} in
  let all := if bool_decide (current st = "") then parts st
             else (parts st ++ [current st])%list in
  match all with
  | [] => (None, [])
  | cmd :: args => (Some cmd, args)
  end.

End Command.

(* ================================================================== *)
(** ** Stdio proxy ([commands/proxy.ts]) *)
(* ================================================================== *)

Module Proxy.
Import Json Events Store Tracer.

(** The process of [proxyCommand] once its options are resolved: the
    recorder, the injector when a chaos configuration is given, and the
    exit code once the process has exited. *)
Record Process : Type := {
  recorder : Recorder;
  injector : option Chaos.ChaosInjector;
  exit_code : option Z
}.

Definition lift {A : Type} (m : M Recorder A) : M Process A :=
  fun p =>
    let '(r, rec') := m (recorder p) in
    (r, {| recorder := rec'; injector := injector p; exit_code := exit_code p |}).

Definition set_injector (i : Chaos.ChaosInjector) : M Process unit :=
  modify (fun p => {| recorder := recorder p; injector := Some i;
                      exit_code := exit_code p |}).

Definition exit (code : Z) : M Process unit :=
  modify (fun p => {| recorder := recorder p; injector := injector p;
                      exit_code := Some code |}).

(** [JSON.parse(line)] is given with the line: [None] when it throws. *)
Definition parse {S : Type} (parsed : option json) : M S json :=
  match parsed with
  | Some v => ret v
  | None => throw (TypeError "SyntaxError: not JSON")
  end.

(** The listener of [stdinReader.on('line', ...)]. *)
Definition onClientLine (line : string) (parsed : option json) (now : Z)
  : M Process unit :=
  try_catch
    (let* message := parse parsed in
     let* method := member "method" message in
     when (truthy_opt method)
       (lift (recordRpcRequest (prop "id" message) (default JNull method)
                (prop "params" message) now)) ;;
     let* inj := gets injector in
     match inj with
     | Some i =>
         when (match method with
               | Some m => is_string "tools/call" m
               | None => false
               end)
           (let toolName := opt_prop "name" (prop "params" message) in
            let '(delay, i') := Chaos.getDelay toolName i in
            set_injector i' ;;
            when (0 <? delay)%Z (lift (emit (Sleep delay))))
     | None => ret tt
     end ;;
     lift (emit (ToTarget (line ++ String (ascii_of_nat 10) ""))))
    (lift (emit (ToTarget (line ++ String (ascii_of_nat 10) "")))).

(** The listener of [targetReader.on('line', ...)]. *)
Definition onTargetLine (line : string) (parsed : option json) (now : Z)
  : M Process unit :=
  try_catch
    (let* message := parse parsed in
     let* id := member "id" message in
     match id with
     | Some _ =>
         let* inj := gets injector in
         let chaosInfo :=
           match inj with
           | Some i =>
               Some {| Chaos.ca_seed := Some (Chaos.getSeed i);
                       Chaos.ca_delayMs := None;
                       Chaos.ca_errorInjected := None;
                       Chaos.ca_responseCorrupted := None |}
           | None => None
           end in
         lift (recordRpcResponse id (prop "result" message)
                 (prop "error" message) chaosInfo now)
     | None => ret tt
     end)
    (ret tt) ;;
  lift (emit (ToStdout (line ++ String (ascii_of_nat 10) ""))).

(** [cleanup()], on [SIGINT], [SIGTERM] and the end of the client's input. *)
Definition cleanup (now : Z) : M Process unit :=
  lift (end_ now) ;;
  lift (emit KillTarget) ;;
  exit 0.

(** The listener of [targetProcess.on('close', ...)]. *)
Definition onTargetClose (code : option Z) (now : Z) : M Process unit :=
  lift (end_ now) ;;
  exit (default 0 code).

Inductive Event : Type :=
| ClientLine (line : string) (parsed : option json) (now : Z)
| TargetLine (line : string) (parsed : option json) (now : Z)
| Signal (now : Z)
| ClientClosed (now : Z)
| TargetClosed (code : option Z) (now : Z).

Definition listener (ev : Event) : M Process unit :=
  match ev with
  | ClientLine line parsed now => onClientLine line parsed now
  | TargetLine line parsed now => onTargetLine line parsed now
  | Signal now | ClientClosed now => cleanup now
  | TargetClosed code now => onTargetClose code now
  end.

(** One event of the process: nothing runs after [process.exit]; an
    exception that leaves a listener ends the process with code 1. *)
Definition handle (p : Process) (ev : Event) : Process :=
  match exit_code p with
  | Some _ => p
  | None =>
      match listener ev p with
      | (Ok _, p') => p'
      | (Throw _, p') =>
          {| recorder := recorder p'; injector := injector p';
             exit_code := Some 1 |}
      end
  end.

Definition run (p : Process) (evs : list Event) : Process :=
  fold_left handle evs p.

(** [proxyCommand] from the creation of the recorder on: [target] is the
    resolved command line, [chaosConfig] the configuration with its text,
    [seedClock] the clock value the injector reads for a missing seed. *)
Definition start (uuid : string) (now seedClock : Z) (target : string)
    (chaosConfig : option Chaos.ChaosConfig) (chaosText : option string)
    (agentDbId : option string) (d : Database) : Process :=
  match Command.parseCommand target with
  | (None, _) =>
      {| recorder :=
           {| db := d; sessionId := ""; runId := None; agentId := agentDbId;
              callCount := 0; errorCount := 0; pendingCalls := ∅;
              effects := [] |};
         injector := None; exit_code := Some 1 |}
  | (Some targetCmd, targetArgs) =>
      let '(r, rec) :=
        new_TraceRecorder uuid now target targetCmd targetArgs chaosConfig
          chaosText agentDbId d in
      {| recorder := rec;
         injector :=
           match chaosConfig with
           | Some c => Some (Chaos.new_ChaosInjector c seedClock)
           | None => None
           end;
         exit_code := match r with Ok _ => None | Throw _ => Some 1 end |}
  end.

End Proxy.

(* ================================================================== *)
(** ** The regular expressions of [classifyOutcome] *)
(* ================================================================== *)

(** The patterns are words and two of the form [a.*b], all with the flag
    [i] and without [u].  A pattern is a list of atoms; [test] is
    [RegExp.prototype.test] for it: a search from every start, [.*] taking
    any run of characters that holds no line terminator. *)

Module Regex.

Inductive Atom : Type :=
| Lit (c : ascii)
| DotStar.

Definition word (s : string) : list Atom := map Lit (list_ascii_of_string s).

(** [Canonicalize] under [i]: letters of ASCII go to upper case; the bytes
    of other characters never equal a letter of ASCII. *)
Definition upper (c : ascii) : ascii :=
  let n := nat_of_ascii c in
  if (97 <=? n)%nat && (n <=? 122)%nat then ascii_of_nat (n - 32) else c.

Definition same_letter (c x : ascii) : bool := bool_decide (upper c = upper x).

(** A line terminator begins here: LF, CR, or the UTF-8 bytes of U+2028 or
    U+2029. *)
Definition line_terminator_at (s : list ascii) : bool :=
  match s with
  | c :: rest =>
      let n := nat_of_ascii c in
      (n =? 10)%nat || (n =? 13)%nat ||
      ((n =? 226)%nat &&
       match rest with
       | c1 :: c2 :: _ =>
           (nat_of_ascii c1 =? 128)%nat &&
           ((nat_of_ascii c2 =? 168)%nat || (nat_of_ascii c2 =? 169)%nat)
       | _ => false
       end)
  | [] => false
  end.

Fixpoint match_here (p : list Atom) (s : list ascii) : bool :=
  match p with
  | [] => true
  | Lit c :: p' =>
      match s with
      | x :: s' => same_letter c x && match_here p' s'
      | [] => false
      end
  | DotStar :: p' =>
      (fix star (s : list ascii) : bool :=
         match_here p' s ||
         match s with
         | [] => false
         | _ :: s' => negb (line_terminator_at s) && star s'
         end) s
  end.

Fixpoint search (p : list Atom) (s : list ascii) : bool :=
  match_here p s ||
  match s with
  | [] => false
  | _ :: s' => search p s'
  end.

Definition test (p : list Atom) (s : string) : bool :=
  search p (list_ascii_of_string s).

End Regex.

(* ================================================================== *)
(** ** Stress runner ([stress/schema-mutator.ts], [server/routes/stress.ts],
       [commands/stress.ts]) *)
(* ================================================================== *)

Module Stress.
Import Json Events Store.

(** *** [schema-mutator.ts] *)

Inductive MutationType : Type :=
| missing_required
| wrong_type
| null_value
| empty_value
| boundary
| extra_field
| valid.

Definition MutationType_text (t : MutationType) : string :=
  match t with
  | missing_required => "missing_required"
  | wrong_type => "wrong_type"
  | null_value => "null_value"
  | empty_value => "empty_value"
  | boundary => "boundary"
  | extra_field => "extra_field"
  | valid => "valid"
  end.

Record Mutation : Type := {
  m_type : MutationType;
  m_field : option string;
  m_input : json;
  m_description : string
}.

(** [JsonSchema]; [items] is never read. *)
Inductive JsonSchema : Type :=
| Schema (type : string) (properties : option (list (string * JsonSchema)))
    (required : option (list string)).

Definition schema_type (s : JsonSchema) : string :=
  match s with Schema t _ _ => t end.

(** [schema.properties ?? {}] and [schema.required ?? []]. *)
Definition schema_properties (s : JsonSchema) : list (string * JsonSchema) :=
  match s with Schema _ (Some ps) _ => ps | Schema _ None _ => [] end.
Definition schema_required (s : JsonSchema) : list string :=
  match s with Schema _ _ (Some r) => r | Schema _ _ None => [] end.

Definition getDefaultValue (type : string) : json :=
  if bool_decide (type = "string") then JStr "test_value"
  else if bool_decide (type = "number") || bool_decide (type = "integer")
  then JNum 42
  else if bool_decide (type = "boolean") then JBool true
  else if bool_decide (type = "array") then JArr []
  else if bool_decide (type = "object") then JObj []
  else JNull.

Definition getWrongTypeValue (expectedType : string) : json :=
  if bool_decide (expectedType = "string") then JNum 12345
  else if bool_decide (expectedType = "number")
          || bool_decide (expectedType = "integer")
  then JStr "not_a_number"
  else if bool_decide (expectedType = "boolean") then JStr "not_a_boolean"
  else if bool_decide (expectedType = "array") then JStr "not_an_array"
  else if bool_decide (expectedType = "object") then JStr "not_an_object"
  else JObj [].

(** [typeof v]. *)
Definition typeof (v : json) : string :=
  match v with
  | JNull | JArr _ | JObj _ => "object"
  | JBool _ => "boolean"
  | JNum _ => "number"
  | JStr _ => "string"
  end.

Definition generateValidInput (schema : JsonSchema) : list (string * json) :=
  fold_left
    (fun result p => set_field (fst p) (getDefaultValue (schema_type (snd p)))
                       result)
    (schema_properties schema) [].

(** ['x'.repeat(n)]. *)
Fixpoint x_repeat (n : nat) : string :=
  match n with
  | O => ""
  | S n' => String "x"%char (x_repeat n')
  end.

Definition MAX_SAFE_INTEGER : Z := 9007199254740991.

Definition is_numeric (type : string) : bool :=
  bool_decide (type = "number") || bool_decide (type = "integer").

Definition generateMutations (schema : JsonSchema) : list Mutation :=
  let properties := schema_properties schema in
  let required := schema_required schema in
  let validInput := generateValidInput schema in
  let with_ field v := JObj (set_field field v validInput) in
  [ {| m_type := valid; m_field := None; m_input := JObj validInput;
       m_description := "Valid input (control case)" |} ]
  ++ map (fun field =>
       {| m_type := missing_required; m_field := Some field;
          m_input := JObj (delete_field field validInput);
          m_description := "Missing required field: " ++ field |}) required
  ++ map (fun p =>
       let wrongTypeValue := getWrongTypeValue (schema_type (snd p)) in
       {| m_type := wrong_type; m_field := Some (fst p);
          m_input := with_ (fst p) wrongTypeValue;
          m_description :=
            "Wrong type for " ++ fst p ++ ": expected "
            ++ schema_type (snd p) ++ ", got " ++ typeof wrongTypeValue |})
       properties
  ++ map (fun p =>
       {| m_type := null_value; m_field := Some (fst p);
          m_input := with_ (fst p) JNull;
          m_description := "Null value for field: " ++ fst p |}) properties
  ++ flat_map (fun p =>
       if bool_decide (schema_type (snd p) = "string") then
         [ {| m_type := empty_value; m_field := Some (fst p);
              m_input := with_ (fst p) (JStr "");
              m_description := "Empty string for field: " ++ fst p |} ]
       else if bool_decide (schema_type (snd p) = "array") then
         [ {| m_type := empty_value; m_field := Some (fst p);
              m_input := with_ (fst p) (JArr []);
              m_description := "Empty array for field: " ++ fst p |} ]
       else []) properties
  ++ flat_map (fun p =>
       if bool_decide (schema_type (snd p) = "string") then
         [ {| m_type := boundary; m_field := Some (fst p);
              m_input := with_ (fst p) (JStr (x_repeat (100 * 100)));
              m_description := "Very long string for field: " ++ fst p |};
           {| m_type := boundary; m_field := Some (fst p);
              m_input := with_ (fst p) (JStr "../../../etc/passwd");
              m_description :=
                "Path traversal attempt for field: " ++ fst p |} ]
       else if is_numeric (schema_type (snd p)) then
         [ {| m_type := boundary; m_field := Some (fst p);
              m_input := with_ (fst p) (JNum (-1));
              m_description := "Negative number for field: " ++ fst p |};
           {| m_type := boundary; m_field := Some (fst p);
              m_input := with_ (fst p) (JNum MAX_SAFE_INTEGER);
              m_description := "Max safe integer for field: " ++ fst p |} ]
       else []) properties
  ++ [ {| m_type := extra_field; m_field := Some "_unknown_field";
          m_input := with_ "_unknown_field" (JStr "unexpected");
          m_description := "Extra unknown field added" |} ].

(** *** [classifyOutcome] (the same function in [commands/stress.ts] and
    [server/routes/stress.ts]) *)

Import Regex.

Definition gracefulPatterns : list (list Atom) :=
  [ word "invalid"; word "required"; word "missing";
    (word "type" ++ [DotStar] ++ word "expected")%list;
    word "must be"; word "should be"; word "cannot be"; word "not allowed";
    word "validation"; word "argument"; word "parameter"; word "property";
    word "schema" ].

Definition crashPatterns : list (list Atom) :=
  [ word "crash"; word "segfault"; word "exception";
    (word "internal" ++ [DotStar] ++ word "error")%list;
    word "unexpected"; word "panic"; word "fatal"; word "killed" ].

(** [patterns.some((pattern) => pattern.test(error))]. *)
Definition some_test (patterns : list (list Atom)) (error : string) : bool :=
  existsb (fun pattern => test pattern error) patterns.

Definition classifyOutcome (error : option string) (response : option json)
    (timedOut : bool) : StressOutcome :=
  if timedOut then crash_or_hang
  else match nonempty error with
       | None => pass
       | Some message =>
           if some_test gracefulPatterns message then graceful_fail
           else if some_test crashPatterns message then crash_or_hang
           else graceful_fail
       end.

(** *** [runStressTests] ([server/routes/stress.ts]) *)

Record Tool : Type := {
  tool_name : string;
  tool_inputSchema : option JsonSchema
}.

(** What the target does with one request: a line with [result], a line
    with [error] (and the [message] in it), or no line before the
    timeout. *)
Inductive Response : Type :=
| Answered (result : option json)
| Rejected (message : option string)
| Silent.

(** What [sendRequest] resolves to. *)
Record Reply : Type := {
  result : option json;
  error : option string;
  timedOut : bool
}.

Definition reply_of (r : Response) : Reply :=
  match r with
  | Answered v => {| result := v; error := None; timedOut := false |}
  | Rejected m => {| result := None; error := m; timedOut := false |}
  | Silent => {| result := None; error := Some "Timeout waiting for response";
                 timedOut := true |}
  end.

(** The target server and the clock, as the sweep meets them.
    [tools_listed] is [toolsResult?.tools ?? []], the array of the reply to
    [tools/list] read at its declared type [Tool[]]; it is data from the
    wire, and an entry that is [null] is [None].  [respond id method params]
    is the fate of the request numbered [id]; [sent_at id] is the clock
    value when it is sent ([sent_at 0]: when the sweep starts) and
    [elapsed id] the milliseconds until [sendRequest] resolves. *)
Record Server : Type := {
  tools_listed : list (option Tool);
  respond : Z -> string -> json -> Response;
  sent_at : Z -> Z;
  elapsed : Z -> Z
}.

(** The variables of one sweep: the journal, [messageId], and the three
    counters. *)
Record Sweep : Type := {
  journal : Database;
  messageId : Z;
  passed : Z;
  graceful : Z;
  crashed : Z
}.

Definition with_journal (d : Database) (s : Sweep) : Sweep :=
  {| journal := d; messageId := messageId s; passed := passed s;
     graceful := graceful s; crashed := crashed s |}.

(** [if (outcome === 'pass') passed++; else if (outcome === 'graceful_fail')
    graceful++; else crashed++]. *)
Definition count (o : StressOutcome) (s : Sweep) : Sweep :=
  match o with
  | pass =>
      {| journal := journal s; messageId := messageId s;
         passed := passed s + 1; graceful := graceful s;
         crashed := crashed s |}
  | graceful_fail =>
      {| journal := journal s; messageId := messageId s;
         passed := passed s; graceful := graceful s + 1;
         crashed := crashed s |}
  | crash_or_hang =>
      {| journal := journal s; messageId := messageId s;
         passed := passed s; graceful := graceful s;
         crashed := crashed s + 1 |}
  end.

(** [sendRequest(method, params)]: [++messageId], and the reply. *)
Definition sendRequest (server : Server) (method : string) (params : json)
  : M Sweep (Z * Reply) :=
  modify (fun s =>
    {| journal := journal s; messageId := messageId s + 1;
       passed := passed s; graceful := graceful s; crashed := crashed s |}) ;;
  let* id := gets messageId in
  ret (id, reply_of (respond server id method params)).

(** The line buffer of [sendRequest].  [split_lines s] is [s.split('\n')]:
    the pieces between the line feeds, at least one piece. *)
Fixpoint split_lines (s : string) : list string :=
  match s with
  | EmptyString => [""]
  | String c s' =>
      if bool_decide (c = ascii_of_nat 10) then "" :: split_lines s'
      else match split_lines s' with
           | l :: ls => String c l :: ls
           | [] => [String c ""]
           end
  end.

(** [dataHandler(data)]: [buffer += data.toString()], then
    [lines = buffer.split('\n')], [buffer = lines.pop() ?? ''] and
    [lines.forEach(handler)].  [data] is the text of the chunk; the result
    is the lines handed to [handler], in order, and the new buffer. *)
Definition dataHandler (data : string) (buffer : string)
  : list string * string :=
  let lines := split_lines (buffer ++ data) in
  (removelast lines, default "" (last lines)).

(** [for (const x of l) { f(x) }]. *)
Fixpoint each {S A : Type} (f : A -> M S unit) (l : list A) : M S unit :=
  match l with
  | [] => ret tt
  | x :: l' => f x ;; each f l'
  end.

(** The body of the loop over the mutations of one tool. *)
Definition probe (server : Server) (runId : string) (tool : Tool)
    (mutation : Mutation) : M Sweep unit :=
  let* sent :=
    sendRequest server "tools/call"
      (JObj [("name", JStr (tool_name tool));
             ("arguments", m_input mutation)]) in
  let id := fst sent in
  let response := snd sent in
  let outcome :=
    classifyOutcome (error response) (result response) (timedOut response) in
  let latencyMs := elapsed server id in
  let* d := gets journal in
  let* d' :=
    of_result
      (insertTraceEvent runId
         (stress_mutation (sent_at server id + latencyMs) (tool_name tool)
            {| mi_type := MutationType_text (m_type mutation);
               mi_description := m_description mutation;
               mi_input := m_input mutation |}
            outcome (result response)
            (match nonempty (error response) with
             | Some e => Some (JObj [("message", JStr e)])
             | None => None
             end)
            latencyMs) d) in
  modify (with_journal d') ;;
  modify (count outcome).

(** The body of the loop over the tools. *)
Definition sweep_tool (server : Server) (runId : string) (entry : option Tool)
  : M Sweep unit :=
  match entry with
  | None =>
      throw (TypeError
               "Cannot read properties of null (reading 'inputSchema')")
  | Some tool =>
      match tool_inputSchema tool with
      | None => ret tt
      | Some schema => each (probe server runId tool) (generateMutations schema)
      end
  end.

(** Numbers of the sweep as binary64 values; the counters are far below
    2^53. *)
Definition to_float (z : Z) : float := PrimFloat.of_uint63 (Uint63.of_Z z).

(** [Math.round(x)]: the integer nearest to [x], a tie going up. *)
Definition Math_round (x : float) : Z :=
  match Prim2SF x with
  | S754_finite sign m e =>
      let n := if sign then Z.neg m else Z.pos m in
      if (0 <=? e)%Z then n * 2 ^ e
      else (2 * n + 2 ^ (- e)) / 2 ^ (1 - e)
  | _ => 0
  end.

(** [total > 0 ? Math.round((goodOutcomes / total) * 100) : 0]. *)
Definition score (goodOutcomes total : Z) : Z :=
  if (0 <? total)%Z
  then Math_round ((to_float goodOutcomes / to_float total) * 100)%float
  else 0.

(** Status changes are stamped with the time of the latest request. *)
Definition stamp (server : Server) (s : Sweep) : Z :=
  sent_at server (messageId s).

Definition initialize_params : json :=
  JObj [("protocolVersion", JStr "2024-11-05");
        ("capabilities", JObj []);
        ("clientInfo", JObj [("name", JStr "mcp-debug-stress");
                             ("version", JStr "0.1.0")])].

(** The [try] block. *)
Definition sweep (server : Server) (runId : string) : M Sweep unit :=
  sendRequest server "initialize" initialize_params ;;
  sendRequest server "tools/list" (JObj []) ;;
  each (sweep_tool server runId) (tools_listed server) ;;
  modify (fun s =>
    let total := passed s + graceful s + crashed s in
    let goodOutcomes := passed s + graceful s in
    with_journal
      (updateRunStatus runId completed None (stamp server s)
         (updateStressStats runId (passed s) (graceful s) (crashed s)
            (score goodOutcomes total) (journal s))) s).

(** [runStressTests(queries, agentId, runId)] over the database [d].  The
    listener for a failure to spawn the target is not modelled: a target
    that does not run is a [Server] that stays [Silent]. *)
Definition runStressTests (server : Server) (agentId runId : string)
    (d : Database) : Database :=
  match getAgent agentId d with
  | None => updateRunStatus runId failed None (sent_at server 0) d
  | Some agent =>
      match Command.parseCommand (ag_target agent) with
      | (None, _) => updateRunStatus runId failed None (sent_at server 0) d
      | (Some _, _) =>
          let start :=
            {| journal := updateRunStatus runId running None
                            (sent_at server 0) d;
               messageId := 0; passed := 0; graceful := 0; crashed := 0 |} in
          journal
            (snd (try_catch (sweep server runId)
                    (modify (fun s =>
                       with_journal
                         (updateRunStatus runId failed None (stamp server s)
                            (journal s)) s))
                    start))
      end
  end.

End Stress.

(* ================================================================== *)
(** ** Diff engine ([diff/comparator.ts]) *)
(* ================================================================== *)

Module Diff.
Import Json.
Local Open Scope list_scope.

(** [TraceCall]; a field is named after a prefix [tc_]. *)
Record TraceCall : Type := {
  tc_id : Z;
  tc_timestamp : string;
  tc_method : string;
  tc_params : option json;
  tc_result : option json;
  tc_error : option json;
  tc_latencyMs : float;
  tc_chaos : option Chaos.ChaosApplied
}.

(** [Trace]: [compareTraces] reads its [calls] only. *)
Record Trace : Type := {
  calls : list TraceCall
}.

Record CallDiff : Type := {
  cd_method : string;
  cd_params : option json;
  cd_index : Z
}.

Record CallChange : Type := {
  cc_method : string;
  cc_index : nat;
  cc_baselineParams : option json;
  cc_currentParams : option json;
  cc_baselineResult : option json;
  cc_currentResult : option json;
  cc_paramsDiff : option string;
  cc_resultDiff : option string
}.

Record LatencyChange : Type := {
  lc_method : string;
  lc_index : nat;
  lc_baselineLatency : float;
  lc_currentLatency : float;
  lc_changePercent : float
}.

Record TraceComparison : Type := {
  baselineCalls : nat;
  currentCalls : nat;
  added : list CallDiff;
  removed : list CallDiff;
  changed : list CallChange;
  latencyChanges : list LatencyChange
}.

(** A [Map] from method to calls, in the order of first insertion. *)
Definition Groups : Type := list (string * list TraceCall).

(** [existing = map.get(k) ?? []; existing.push(call); map.set(k, existing)]. *)
Fixpoint push (k : string) (call : TraceCall) (m : Groups) : Groups :=
  match m with
  | [] => [(k, [call])]
  | (k', l) :: m' =>
      if bool_decide (k = k') then (k', l ++ [call]) :: m'
      else (k', l) :: push k call m'
  end.

Definition groupByMethod (cs : list TraceCall) : Groups :=
  fold_left (fun m call => push (tc_method call) call m) cs [].

Definition entry (method : string) (call : TraceCall) : CallDiff :=
  {| cd_method := method; cd_params := tc_params call;
     cd_index := tc_id call |}.

(** The loops "Find added methods" and "Find removed methods": the calls
    of the groups of [mine] whose method [other] does not have. *)
Definition only_in (mine other : Groups) : list CallDiff :=
  flat_map (fun g => match assoc (fst g) other with
                     | Some _ => []
                     | None => map (entry (fst g)) (snd g)
                     end) mine.

(** [JSON.stringify(a) === JSON.stringify(b)]. *)
Definition same_text (a b : option json) : bool :=
  bool_decide (stringify_opt a = stringify_opt b).

(** The calls at the same index [i] of the two lists, for
    [i < Math.min(...)]. *)
Fixpoint zipped (i : nat) (a b : list TraceCall)
  : list (nat * TraceCall * TraceCall) :=
  match a, b with
  | x :: a', y :: b' => (i, x, y) :: zipped (S i) a' b'
  | _, _ => []
  end.

Definition change_at (method : string) (p : nat * TraceCall * TraceCall)
  : list CallChange :=
  let '(i, baselineCall, currentCall) := p in
  let paramsEqual := same_text (tc_params baselineCall) (tc_params currentCall) in
  let resultEqual := same_text (tc_result baselineCall) (tc_result currentCall) in
  if paramsEqual && resultEqual then []
  else [ {| cc_method := method; cc_index := i;
            cc_baselineParams := tc_params baselineCall;
            cc_currentParams := tc_params currentCall;
            cc_baselineResult := tc_result baselineCall;
            cc_currentResult := tc_result currentCall;
            cc_paramsDiff :=
              if paramsEqual then None else Some "Parameters changed";
            cc_resultDiff :=
              if resultEqual then None else Some "Result changed" |} ].

(** [((current - baseline) / baseline) * 100]. *)
Definition latencyChange (baselineLatency currentLatency : float) : float :=
  (((currentLatency - baselineLatency) / baselineLatency) * 100)%float.

(** [Math.abs(x) > 20]. *)
Definition over_20 (x : float) : bool := PrimFloat.ltb 20%float (PrimFloat.abs x).

Definition latency_at (method : string) (p : nat * TraceCall * TraceCall)
  : list LatencyChange :=
  let '(i, baselineCall, currentCall) := p in
  let change :=
    latencyChange (tc_latencyMs baselineCall) (tc_latencyMs currentCall) in
  if over_20 change then
    [ {| lc_method := method; lc_index := i;
         lc_baselineLatency := tc_latencyMs baselineCall;
         lc_currentLatency := tc_latencyMs currentCall;
         lc_changePercent := change |} ]
  else [].

(** The loop "Compare calls with same methods", one list of the result at
    a time: [f method baselineCalls currentCalls] is what one turn pushes. *)
Definition shared {A : Type}
    (f : string -> list TraceCall -> list TraceCall -> list A)
    (baselineByMethod currentByMethod : Groups) : list A :=
  flat_map (fun g => match assoc (fst g) currentByMethod with
                     | None => []
                     | Some currentCalls => f (fst g) (snd g) currentCalls
                     end) baselineByMethod.

(** [for (let i = mine.length; i < theirs.length; i++)]. *)
Definition surplus (method : string) (mine theirs : list TraceCall)
  : list CallDiff :=
  map (entry method) (drop (length mine) theirs).

Definition compareTraces (baseline current : Trace) : TraceComparison :=
  let baselineByMethod := groupByMethod (calls baseline) in
  let currentByMethod := groupByMethod (calls current) in
  {| baselineCalls := length (calls baseline);
     currentCalls := length (calls current);
     added :=
       only_in currentByMethod baselineByMethod
       ++ shared (fun m b c => surplus m b c) baselineByMethod currentByMethod;
     removed :=
       only_in baselineByMethod currentByMethod
       ++ shared (fun m b c => surplus m c b) baselineByMethod currentByMethod;
     changed :=
       shared (fun m b c => flat_map (change_at m) (zipped 0 b c))
         baselineByMethod currentByMethod;
     latencyChanges :=
       shared (fun m b c => flat_map (latency_at m) (zipped 0 b c))
         baselineByMethod currentByMethod |}.

End Diff.

(* ================================================================== *)
(** * Properties of the journal store *)
(* ================================================================== *)

Module StoreFacts.
Import Json Events Store.

(** A small catalogue: project [p1] with agent [a1], whose run [r1] is
    [completed] and has one journaled event; project [p2] with agent [a2]
    and its run [r2]. *)
Definition sample_run (id agent : string) (s : Status) : Run :=
  {| r_id := id; r_agent_id := Some agent; r_name := None;
     r_target := "node server.js"; r_run_type := proxy;
     r_chaos_profile := None; r_status := s;
     r_started_at := Some 10; r_ended_at := Some 20;
     r_total_calls := 1; r_total_errors := 0;
     r_stress_passed := 0; r_stress_graceful := 0; r_stress_crashed := 0;
     r_stress_score := 0; r_created_at := 5 |}.

Definition sample_event (id : Z) (run : string) : TraceEventRow :=
  {| ev_id := id; ev_run_id := run; ev_event_type := "tool_call";
     ev_method := None; ev_tool_name := Some "read_file";
     ev_params_json := None; ev_result_json := None; ev_error_json := None;
     ev_latency_ms := None; ev_timestamp := 12; ev_chaos_applied := None |}.

Definition sample_db : Database :=
  {| projects :=
       [ {| pj_id := "p1"; pj_name := "demo"; pj_description := None;
            pj_created_at := 1 |};
         {| pj_id := "p2"; pj_name := "other"; pj_description := None;
            pj_created_at := 2 |} ];
     agents :=
       [ {| ag_id := "a1"; ag_project_id := "p1"; ag_name := "filesystem";
            ag_target := "node server.js"; ag_chaos_profile := None;
            ag_created_at := 3 |};
         {| ag_id := "a2"; ag_project_id := "p2"; ag_name := "filesystem";
            ag_target := "node server.js"; ag_chaos_profile := None;
            ag_created_at := 4 |} ];
     runs := [ sample_run "r1" "a1" completed; sample_run "r2" "a2" running ];
     trace_events := [ sample_event 1 "r1"; sample_event 2 "r2" ];
     last_event_id := 2 |}.

(** *** Reading a table after an [UPDATE] *)

Lemma find_update_where {A : Type} (p c : A -> bool) (f : A -> A) (l : list A) :
  (forall x, p (f x) = p x) ->
  find p (update_where c f l) = (fun x => if c x then f x else x) <$> find p l.
Proof.
  intros Hp. induction l as [|x l IH]; [reflexivity|].
  cbn [update_where map find]. fold (update_where c f l).
  destruct (c x) eqn:Hc; [rewrite Hp|]; destruct (p x); cbn; rewrite ?Hc; auto.
Qed.

Lemma has_id_set_status id s r : has_id id (set_status s r) = has_id id r.
Proof. reflexivity. Qed.

Lemma has_id_apply_status id status stats now r :
  has_id id (apply_status status stats now r) = has_id id r.
Proof.
  unfold apply_status. destruct (stat totalErrors stats), (stat totalCalls stats);
    repeat case_bool_decide; reflexivity.
Qed.

Lemma status_apply_status status stats now r :
  r_status (apply_status status stats now r) = status.
Proof.
  unfold apply_status. destruct (stat totalErrors stats), (stat totalCalls stats);
    repeat case_bool_decide; reflexivity.
Qed.

Lemma getRun_has_id id db r : getRun id db = Some r -> has_id id r = true.
Proof. intros H. apply find_some in H. tauto. Qed.

Lemma getRun_updateRunStatus id id' status stats now db :
  getRun id (updateRunStatus id' status stats now db)
  = (fun r => if has_id id' r then apply_status status stats now r else r)
      <$> getRun id db.
Proof.
  unfold getRun, updateRunStatus. cbn [runs with_runs].
  apply find_update_where. intros x. apply has_id_apply_status.
Qed.

(** *** Deleting a project *)

Lemma on_delete_agents_ids gone rs :
  map r_id (on_delete_agents gone rs) = map r_id rs.
Proof.
  unfold on_delete_agents, update_where. rewrite map_map.
  apply map_ext. intros r. destruct (runs_of_removed_agent gone r); reflexivity.
Qed.

Lemma on_delete_agents_elem gone rs r' :
  r' ∈ on_delete_agents gone rs ->
  exists r, r ∈ rs /\
    ((runs_of_removed_agent gone r = true /\ r' = clear_agent r) \/
     (runs_of_removed_agent gone r = false /\ r' = r)).
Proof.
  unfold on_delete_agents, update_where. intros H.
  apply list_elem_of_fmap in H as (r & -> & Hr). exists r. split; [done|].
  destruct (runs_of_removed_agent gone r); auto.
Qed.

Lemma on_delete_agents_kept gone rs r :
  r ∈ rs ->
  (if runs_of_removed_agent gone r then clear_agent r else r)
    ∈ on_delete_agents gone rs.
Proof.
  intros H. unfold on_delete_agents, update_where.
  apply (list_elem_of_fmap_2 (fun x => if runs_of_removed_agent gone x
                                       then clear_agent x else x)), H.
Qed.

Lemma getProject_exists id db p :
  getProject id db = Some p ->
  existsb (fun q => bool_decide (pj_id q = id)) (projects db) = true.
Proof.
  intros H. apply find_some in H as [Hin Hid].
  apply existsb_exists. eauto.
Qed.

(** C1, as stated, fails: after the project [p1] of [sample_db] is
    deleted, the run [r1] of its agent [a1] is still in the table of runs
    (detached from the agent), and the event of that run is still in the
    journal. *)
Lemma deleteProject_keeps_runs_and_events :
  let db' := snd (deleteProject "p1" sample_db) in
  getAgent "a1" sample_db <> None /\
  r_agent_id <$> getRun "r1" sample_db = Some (Some "a1") /\
  getAgent "a1" db' = None /\
  r_agent_id <$> getRun "r1" db' = Some None /\
  sample_event 1 "r1" ∈ trace_events db'.
Proof.
  cbv zeta. repeat split; try reflexivity; try discriminate.
  vm_compute. apply list_elem_of_here.
Qed.

(** C1, amended.  Deleting a project that is in the store is one
    statement; it removes the project and every agent of the project and
    no other agent; every run stays, a run of a removed agent with its
    agent reference cleared and nothing else changed, so that no run
    refers to a removed agent; the events are untouched. *)
Theorem deleteProject_cascade (id : string) (db : Database) (p : Project) :
  getProject id db = Some p ->
  let db' := snd (deleteProject id db) in
  fst (deleteProject id db) = true /\
  getProject id db' = None /\
  (forall a, a ∈ agents db' <-> a ∈ agents db /\ ag_project_id a <> id) /\
  map r_id (runs db') = map r_id (runs db) /\
  (forall r, r ∈ runs db ->
     (if runs_of_removed_agent
           (map ag_id (filter (fun a => ag_project_id a = id) (agents db))) r
      then clear_agent r else r) ∈ runs db') /\
  (forall r' a, r' ∈ runs db' -> a ∈ agents db -> ag_project_id a = id ->
     r_agent_id r' <> Some (ag_id a)) /\
  trace_events db' = trace_events db.
Proof.
  intros Hp. pose proof (getProject_exists _ _ _ Hp) as Hex.
  unfold deleteProject. rewrite Hex. cbn [fst snd].
  cbn [projects agents runs trace_events].
  split; [reflexivity|]. split.
  { unfold getProject. cbn [projects].
    destruct (find _ _) as [q|] eqn:Hq; [|reflexivity].
    apply find_some in Hq as [Hin Hid].
    apply list_elem_of_In, list_elem_of_filter in Hin as [Hne _].
    apply bool_decide_eq_true in Hid. contradiction. }
  split.
  { intros a. rewrite list_elem_of_filter. tauto. }
  split; [apply on_delete_agents_ids|].
  split; [intros r Hr; by apply on_delete_agents_kept|].
  split; [|reflexivity].
  intros r' a Hr' Ha Hid Hown.
  apply on_delete_agents_elem in Hr' as (r & _ & [[_ ->] | [Hkeep ->]]).
  - discriminate Hown.
  - unfold runs_of_removed_agent in Hkeep. rewrite Hown in Hkeep.
    apply bool_decide_eq_false in Hkeep. apply Hkeep.
    apply list_elem_of_fmap. exists a. split; [reflexivity|].
    apply list_elem_of_filter. done.
Qed.

Lemma deleteProject_cascade_witness :
  getProject "p1" sample_db <> None /\
  getProject "p1" (snd (deleteProject "p1" sample_db)) = None.
Proof.
  split; [discriminate|].
  refine (proj1 (proj2 (deleteProject_cascade "p1" sample_db _ _))).
  reflexivity.
Defined.

(** C2, as stated, fails: the run [r1] of [sample_db] is [completed]; a
    call that asks for [running] is carried out, and so is one that asks
    for [pending]. *)
Lemma updateRunStatus_goes_backwards :
  r_status <$> getRun "r1" sample_db = Some completed /\
  r_status <$> getRun "r1" (updateRunStatus "r1" running None 30 sample_db)
    = Some running /\
  r_status <$> getRun "r1" (updateRunStatus "r1" pending None 30 sample_db)
    = Some pending.
Proof. repeat split; reflexivity. Qed.

(** C2, amended.  [updateRunStatus] checks nothing: for every run in the
    store and every requested status the call is carried out, the stored
    status becomes the requested one whatever it was, [started_at] is
    stamped on [running] and [ended_at] on [completed] and [failed], and a
    run with another identifier is left as it is. *)
Theorem updateRunStatus_sets_status (id : string) (status : Status)
    (stats : option RunStats) (now : Z) (db : Database) (r : Run) :
  getRun id db = Some r ->
  let db' := updateRunStatus id status stats now db in
  (exists r', getRun id db' = Some r' /\
     r_status r' = status /\
     (status = running -> r_started_at r' = Some now) /\
     (status = completed \/ status = failed -> r_ended_at r' = Some now)) /\
  (forall id', id' <> id -> getRun id' db' = getRun id' db).
Proof.
  intros Hr. cbv zeta. split.
  - exists (apply_status status stats now r). split.
    + rewrite getRun_updateRunStatus, Hr. cbn.
      by rewrite (getRun_has_id _ _ _ Hr).
    + split; [apply status_apply_status|].
      unfold apply_status.
      split; intros Hs.
      * subst status. destruct (stat totalErrors stats), (stat totalCalls stats);
          reflexivity.
      * destruct Hs; subst status;
          destruct (stat totalErrors stats), (stat totalCalls stats);
          reflexivity.
  - intros id' Hne. rewrite getRun_updateRunStatus.
    destruct (getRun id' db) as [x|] eqn:Hx; [|reflexivity].
    cbn. apply getRun_has_id in Hx.
    unfold has_id in *. apply bool_decide_eq_true in Hx.
    rewrite bool_decide_eq_false_2; [reflexivity|congruence].
Qed.

Lemma updateRunStatus_sets_status_witness :
  getRun "r1" sample_db <> None /\
  exists r',
    getRun "r1" (updateRunStatus "r1" failed None 30 sample_db) = Some r' /\
    r_status r' = failed.
Proof.
  split; [discriminate|].
  destruct (updateRunStatus_sets_status "r1" failed None 30 sample_db
              (sample_run "r1" "a1" completed) eq_refl)
    as [(r' & Hget & Hst & _) _].
  exists r'. split; assumption.
Defined.

End StoreFacts.

(* ================================================================== *)
(** * Properties of the chaos engine *)
(* ================================================================== *)

Module ChaosFacts.
Import Chaos.

(** The configuration of the scenario "chaos delay on [tools/call]":
    [{seed: 1, tools: {read_file: {delayMs: {p: 1.0, value: 500}}}}]. *)
Definition delay_config : ChaosConfig :=
  {| seed := Some 1;
     global := None;
     tools :=
       Some [ ("read_file",
               {| delayMs :=
                    Some (Probabilistic {| pv_p := 1; pv_value := Some 500;
                                           pv_min := None; pv_max := None |});
                  failRate := None; errorCode := None; errorMessage := None;
                  corruptResponse := None; timeoutMs := None |}) ] |}.

(** A configuration without a seed: a delay between 100 and 500 ms for
    every tool, three times out of four. *)
Definition unseeded_config : ChaosConfig :=
  {| seed := None;
     global :=
       Some {| delayMs :=
                 Some (Probabilistic {| pv_p := 3 # 4; pv_value := None;
                                        pv_min := Some 100;
                                        pv_max := Some 500 |});
               failRate := Some (1 # 2); errorCode := None;
               errorMessage := None; corruptResponse := Some true;
               timeoutMs := None |};
     tools := None |}.

Definition read_file : option Json.json := Some (Json.JStr "read_file").

Lemma new_ChaosInjector_seeded (config : ChaosConfig) (s now : Z) :
  seed config = Some s ->
  new_ChaosInjector config now
  = {| inj_config := config; inj_rng := {| state := s |}; inj_seed := s |}.
Proof. intros H. unfold new_ChaosInjector. rewrite H. reflexivity. Qed.

Lemma getDelay_seed t inj : inj_seed (snd (getDelay t inj)) = inj_seed inj.
Proof. unfold getDelay. destruct (resolveValue _ _). reflexivity. Qed.

Lemma getTimeout_seed t inj : inj_seed (snd (getTimeout t inj)) = inj_seed inj.
Proof. unfold getTimeout. destruct (resolveValue _ _). reflexivity. Qed.

Lemma shouldFail_seed t inj : inj_seed (snd (shouldFail t inj)) = inj_seed inj.
Proof.
  unfold shouldFail. destruct (failRate _); [|reflexivity].
  destruct (Qle_bool _ _); [reflexivity|]. destruct (next _). reflexivity.
Qed.

(** No query changes the seed that the injector reports. *)
Lemma ask_seed q inj : inj_seed (snd (ask q inj)) = inj_seed inj.
Proof.
  destruct q as [t|t|t|t|t|t]; cbn [ask].
  - pose proof (getDelay_seed t inj). destruct (getDelay t inj). assumption.
  - pose proof (getTimeout_seed t inj). destruct (getTimeout t inj). assumption.
  - pose proof (shouldFail_seed t inj). destruct (shouldFail t inj). assumption.
  - unfold getErrorResponse. pose proof (shouldFail_seed t inj).
    destruct (shouldFail t inj) as [[] ?]; assumption.
  - reflexivity.
  - unfold applyChaos. pose proof (getDelay_seed t inj) as H1.
    destruct (getDelay t inj) as [d inj1].
    pose proof (shouldFail_seed t inj1) as H2.
    destruct (shouldFail t inj1) as [b inj2]. cbn in *. congruence.
Qed.

Lemma applyChaos_seed t inj : ca_seed (fst (applyChaos t inj)) = Some (inj_seed inj).
Proof.
  unfold applyChaos. destruct (getDelay t inj) as [d inj1].
  destruct (shouldFail t inj1) as [b inj2]. reflexivity.
Qed.

(** Every descriptor of an execution carries the seed of the injector. *)
Lemma descriptors_seed (qs : list Query) (inj : ChaosInjector) (d : ChaosApplied) :
  d ∈ descriptors (execute qs inj) -> ca_seed d = Some (inj_seed inj).
Proof.
  revert inj. induction qs as [|q qs IH]; intros inj Hd.
  - cbn in Hd. by apply elem_of_nil in Hd.
  - cbn [execute] in Hd. pose proof (ask_seed q inj) as Hs.
    destruct (ask q inj) as [a inj'] eqn:Ha. cbn [snd] in Hs.
    unfold descriptors in Hd. cbn [omap list_omap] in Hd.
    fold (descriptors (execute qs inj')) in Hd.
    destruct a as [ms|ms|b|e|b|ap];
      try (apply IH in Hd; congruence).
    apply elem_of_cons in Hd as [->|Hd]; [|apply IH in Hd; congruence].
    destruct q as [t|t|t|t|t|t]; cbn [ask] in Ha;
      try (destruct (getDelay t inj)); try (destruct (getTimeout t inj));
      try (destruct (shouldFail t inj)); try (destruct (getErrorResponse t inj));
      try discriminate.
    pose proof (applyChaos_seed t inj) as H.
    destruct (applyChaos t inj) as [a0 i0]. cbn in H. congruence.
Qed.

(** C9.  With a seed fixed in the configuration, two executions of the
    engine (two injectors built from the configuration at any two clock
    values) that are put the same sequence of queries with the same tool
    names give the same answers in the same order, hence the same sequence
    of chaos-applied descriptors, and every descriptor carries the seed. *)
Theorem seeded_executions_agree (config : ChaosConfig) (s : Z) :
  seed config = Some s ->
  forall (now1 now2 : Z) (qs : list Query),
    execute qs (new_ChaosInjector config now1)
    = execute qs (new_ChaosInjector config now2) /\
    descriptors (execute qs (new_ChaosInjector config now1))
    = descriptors (execute qs (new_ChaosInjector config now2)) /\
    (forall d, d ∈ descriptors (execute qs (new_ChaosInjector config now1)) ->
               ca_seed d = Some s).
Proof.
  intros Hseed now1 now2 qs.
  rewrite (new_ChaosInjector_seeded config s now1 Hseed).
  rewrite (new_ChaosInjector_seeded config s now2 Hseed).
  split; [reflexivity|]. split; [reflexivity|].
  intros d Hd. apply descriptors_seed in Hd. exact Hd.
Qed.

Lemma seeded_executions_agree_witness :
  seed delay_config = Some 1 /\
  execute [QDelay read_file; QApply read_file; QShouldFail None]
    (new_ChaosInjector delay_config 1700000000000)
  = execute [QDelay read_file; QApply read_file; QShouldFail None]
      (new_ChaosInjector delay_config 1800000000000).
Proof.
  split; [reflexivity|].
  exact (proj1 (seeded_executions_agree delay_config 1 eq_refl
                  1700000000000 1800000000000
                  [QDelay read_file; QApply read_file; QShouldFail None])).
Defined.

(** The seed is what makes the executions agree: without one the injector
    takes the clock, and two executions answer differently. *)
Lemma unseeded_executions_differ :
  execute [QApply read_file] (new_ChaosInjector unseeded_config 1)
  <> execute [QApply read_file] (new_ChaosInjector unseeded_config 2).
Proof. vm_compute. discriminate. Qed.

(** The first words of the generator for the seed 1. *)
Lemma next_seed_1 :
  fst (next {| state := 1 |}) = (2693262067 # 4294967296)%Q /\
  fst (next (snd (next {| state := 1 |}))) = (11749833 # 4294967296)%Q.
Proof. split; reflexivity. Qed.

End ChaosFacts.

(* ================================================================== *)
(** * Properties of the paginated queries *)
(* ================================================================== *)

Module PagingFacts.
Import Json Sql Store.

(** A journal with one run and three events. *)
Definition three_events : Database :=
  {| projects := []; agents := [];
     runs := [ {| r_id := "r1"; r_agent_id := None; r_name := None;
                  r_target := "node server.js"; r_run_type := proxy;
                  r_chaos_profile := None; r_status := running;
                  r_started_at := Some 10; r_ended_at := None;
                  r_total_calls := 0; r_total_errors := 0;
                  r_stress_passed := 0; r_stress_graceful := 0;
                  r_stress_crashed := 0; r_stress_score := 0;
                  r_created_at := 5 |} ];
     trace_events :=
       [ StoreFacts.sample_event 1 "r1"; StoreFacts.sample_event 2 "r1";
         StoreFacts.sample_event 3 "r1" ];
     last_event_id := 3 |}.

Definition filters (status target agent : option string)
    (type : option RunType) (limit offset : option Z) : RunFilters :=
  {| f_status := status; f_target := target; f_agentId := agent;
     f_runType := type; f_limit := limit; f_offset := offset |}.

(** The text [s] ends with [suffix]; the text [s] holds the word [w]. *)
Fixpoint ends_with (suffix s : string) : bool :=
  bool_decide (s = suffix) ||
  match s with
  | EmptyString => false
  | String _ s' => ends_with suffix s'
  end.

Fixpoint holds (w s : string) : bool :=
  String.prefix w s ||
  match s with
  | EmptyString => false
  | String _ s' => holds w s'
  end.

Lemma nonzero_Some (o : Z) : o <> 0 -> nonzero (Some o) = Some o.
Proof.
  intros H. unfold nonzero. destruct (Z.eqb_spec o 0); [contradiction|reflexivity].
Qed.

Lemma nonzero_is_Some (n : option Z) (l : Z) : nonzero n = Some l -> n = Some l /\ l <> 0.
Proof.
  unfold nonzero. destruct n as [z|]; [|discriminate].
  destruct (Z.eqb_spec z 0); [discriminate|]. intros [= <-]. auto.
Qed.


(** The statements with a given offset. *)
Lemma getRunEvents_offset_only (runId : string) (limit : option Z) (o : Z)
    (db : Database) :
  o <> 0 -> nonzero limit = None ->
  getRunEvents_sql runId limit (Some o)
  = ("SELECT * FROM trace_events WHERE run_id = ? ORDER BY id ASC OFFSET ?",
     [SqlText runId; SqlInt o]) /\
  getRunEvents runId limit (Some o) db = Throw (SqliteError "SQLITE_ERROR").
Proof.
  intros Ho Hl. unfold getRunEvents, getRunEvents_sql.
  rewrite Hl, (nonzero_Some o Ho). cbn [clause fst snd app].
  split; reflexivity.
Qed.

Lemma getRunEvents_limit_offset (runId : string) (limit : option Z) (l o : Z)
    (db : Database) :
  o <> 0 -> nonzero limit = Some l ->
  getRunEvents runId limit (Some o) db
  = Ok (Sql.limit l
          (Sql.offset o
             (order_by event_column "id" false
                (filter (fun e => sql_eq (event_column "run_id" e)
                                    (SqlText runId) = true)
                   (trace_events db))))).
Proof.
  intros Ho Hl. unfold getRunEvents, getRunEvents_sql.
  rewrite Hl, (nonzero_Some o Ho). reflexivity.
Qed.

Lemma listRuns_offset_only (status target agent : option string)
    (type : option RunType) (limit : option Z) (o : Z) (db : Database) :
  o <> 0 -> nonzero limit = None ->
  (let sql := fst (listRuns_sql (filters status target agent type limit (Some o))) in
   ends_with " ORDER BY created_at DESC OFFSET ?" sql = true /\
   holds "LIMIT" sql = false) /\
  listRuns (filters status target agent type limit (Some o)) db
  = Throw (SqliteError "SQLITE_ERROR").
Proof.
  intros Ho Hl. unfold listRuns, listRuns_sql, filters.
  cbn [f_status f_target f_agentId f_runType f_limit f_offset].
  rewrite Hl, (nonzero_Some o Ho).
  destruct (nonempty agent), (nonempty status), type, (nonempty target);
    repeat split; reflexivity.
Qed.

Lemma listRuns_limit_offset (status target agent : option string)
    (type : option RunType) (limit : option Z) (l o : Z) (db : Database) :
  o <> 0 -> nonzero limit = Some l ->
  is_Ok (listRuns (filters status target agent type limit (Some o)) db) = true.
Proof.
  intros Ho Hl. unfold listRuns, listRuns_sql, filters.
  cbn [f_status f_target f_agentId f_runType f_limit f_offset].
  rewrite Hl, (nonzero_Some o Ho).
  destruct (nonempty agent), (nonempty status), type, (nonempty target);
    reflexivity.
Qed.



End PagingFacts.

(* ================================================================== *)
(** * Properties of the outcome classifier *)
(* ================================================================== *)

Module ClassifierFacts.
Import Json Events Regex Stress.
Local Open Scope list_scope.

(** The two vocabularies as the specification lists them: a word, or a
    word followed later on the same line by another ([a.*b]). *)
Inductive Vocabulary : Type :=
| Word (w : string)
| Then (a b : string).

Definition validation_vocabulary : list Vocabulary :=
  [ Word "invalid"; Word "required"; Word "missing"; Then "type" "expected";
    Word "must be"; Word "should be"; Word "cannot be"; Word "not allowed";
    Word "validation"; Word "argument"; Word "parameter"; Word "property";
    Word "schema" ].

Definition crash_vocabulary : list Vocabulary :=
  [ Word "crash"; Word "segfault"; Word "exception"; Then "internal" "error";
    Word "unexpected"; Word "panic"; Word "fatal"; Word "killed" ].

(** [mid] spells [w], the case of the letters of ASCII set aside. *)
Definition spells (mid : list ascii) (w : string) : Prop :=
  map upper mid = map upper (list_ascii_of_string w).

(** No line terminator begins in [gap], which [rest] follows. *)
Definition on_one_line (gap rest : list ascii) : Prop :=
  forall g1 g2, gap = g1 ++ g2 -> g2 <> [] ->
                line_terminator_at (g2 ++ rest) = false.

(** The message matches an entry of a vocabulary. *)
Definition Matches (v : Vocabulary) (message : string) : Prop :=
  match v with
  | Word w =>
      exists pre mid post,
        list_ascii_of_string message = pre ++ mid ++ post /\ spells mid w
  | Then a b =>
      exists pre ma gap mb post,
        list_ascii_of_string message = pre ++ ma ++ gap ++ mb ++ post /\
        spells ma a /\ spells mb b /\ on_one_line gap (mb ++ post)
  end.

Definition MatchesSome (vocabulary : list Vocabulary) (message : string) : Prop :=
  exists v, v ∈ vocabulary /\ Matches v message.

(** The regular expression of an entry. *)
Definition pattern_of (v : Vocabulary) : list Atom :=
  match v with
  | Word w => word w
  | Then a b => word a ++ [DotStar] ++ word b
  end.

Lemma gracefulPatterns_vocabulary :
  gracefulPatterns = map pattern_of validation_vocabulary.
Proof. reflexivity. Qed.

Lemma crashPatterns_vocabulary :
  crashPatterns = map pattern_of crash_vocabulary.
Proof. reflexivity. Qed.

(** *** What the matcher accepts *)

Lemma match_here_letters (cs : list ascii) (p : list Atom) (s : list ascii) :
  match_here (map Lit cs ++ p) s = true <->
  exists mid rest, s = mid ++ rest /\ map upper mid = map upper cs /\
                   match_here p rest = true.
Proof.
  revert s. induction cs as [|c cs IH]; intros s; cbn [map app].
  - split.
    + intros H. exists [], s. auto.
    + intros (mid & rest & -> & Hmid & H).
      apply map_eq_nil in Hmid. subst mid. exact H.
  - cbn [match_here]. destruct s as [|x s].
    + split; [discriminate|].
      intros (mid & rest & Hs & Hmid & _).
      destruct mid; [discriminate Hmid|discriminate Hs].
    + rewrite andb_true_iff, IH. unfold same_letter.
      rewrite bool_decide_eq_true. split.
      * intros (Hc & mid & rest & -> & Hmid & H).
        exists (x :: mid), rest. cbn. repeat split; congruence.
      * intros (mid & rest & Hs & Hmid & H).
        destruct mid as [|y mid]; [discriminate Hmid|].
        cbn in Hs, Hmid. injection Hs as -> ->. injection Hmid as Hc Hmid.
        split; [congruence|]. eauto.
Qed.

Lemma match_here_star (p : list Atom) (s : list ascii) :
  match_here (DotStar :: p) s
  = match_here p s ||
    match s with
    | [] => false
    | _ :: s' => negb (line_terminator_at s) && match_here (DotStar :: p) s'
    end.
Proof. destruct s; reflexivity. Qed.

Lemma match_here_gap (p : list Atom) (s : list ascii) :
  match_here (DotStar :: p) s = true <->
  exists gap rest, s = gap ++ rest /\ on_one_line gap rest /\
                   match_here p rest = true.
Proof.
  induction s as [|x s IH]; rewrite match_here_star.
  - rewrite orb_false_r. split.
    + intros H. exists [], []. repeat split; [|exact H].
      intros g1 g2 Hg Hne. destruct g1, g2; try discriminate; congruence.
    + intros (gap & rest & Hs & _ & H).
      symmetry in Hs. apply app_eq_nil in Hs as [_ ->]. exact H.
  - rewrite orb_true_iff, andb_true_iff, negb_true_iff, IH. split.
    + intros [H | [Hlt (gap & rest & -> & Hline & H)]].
      * exists [], (x :: s). repeat split; [|exact H].
        intros g1 g2 Hg Hne. destruct g1, g2; try discriminate; congruence.
      * exists (x :: gap), rest. repeat split; [|exact H].
        intros g1 g2 Hg Hne. destruct g1 as [|y g1].
        -- cbn in Hg. subst g2. exact Hlt.
        -- cbn in Hg. injection Hg as _ Hg. exact (Hline g1 g2 Hg Hne).
    + intros (gap & rest & Hs & Hline & H).
      destruct gap as [|y gap].
      * cbn in Hs. subst rest. auto.
      * cbn in Hs. injection Hs as <- ->. right. split.
        -- apply (Hline [] (x :: gap)); [reflexivity|discriminate].
        -- exists gap, rest. repeat split; [|exact H].
           intros g1 g2 Hg Hne. apply (Hline (x :: g1) g2); [|exact Hne].
           cbn. congruence.
Qed.

Lemma search_somewhere (p : list Atom) (s : list ascii) :
  search p s = true <->
  exists pre rest, s = pre ++ rest /\ match_here p rest = true.
Proof.
  induction s as [|x s IH]; cbn [search].
  - rewrite orb_false_r. split.
    + intros H. exists [], []. auto.
    + intros (pre & rest & Hs & H).
      symmetry in Hs. apply app_eq_nil in Hs as [_ ->]. exact H.
  - rewrite orb_true_iff, IH. split.
    + intros [H | (pre & rest & -> & H)].
      * exists [], (x :: s). auto.
      * exists (x :: pre), rest. auto.
    + intros (pre & rest & Hs & H). destruct pre as [|y pre].
      * cbn in Hs. subst rest. auto.
      * cbn in Hs. injection Hs as -> ->. right. eauto.
Qed.

(** [pattern.test(message)] holds exactly when the message matches the
    entry. *)
Lemma test_Matches (v : Vocabulary) (message : string) :
  test (pattern_of v) message = true <-> Matches v message.
Proof.
  unfold test. rewrite search_somewhere. destruct v as [w | a b]; cbn.
  - unfold word. split.
    + intros (pre & rest & Hs & H).
      rewrite <- (app_nil_r (map Lit _)) in H.
      apply match_here_letters in H as (mid & post & -> & Hmid & _).
      exists pre, mid, post. auto.
    + intros (pre & mid & post & Hs & Hmid).
      exists pre, (mid ++ post). split; [exact Hs|].
      rewrite <- (app_nil_r (map Lit _)).
      apply match_here_letters. exists mid, post. auto.
  - unfold word. split.
    + intros (pre & rest & Hs & H).
      apply match_here_letters in H as (ma & rest1 & -> & Hma & H).
      apply match_here_gap in H as (gap & rest2 & -> & Hline & H).
      rewrite <- (app_nil_r (map Lit _)) in H.
      apply match_here_letters in H as (mb & post & -> & Hmb & _).
      exists pre, ma, gap, mb, post. auto.
    + intros (pre & ma & gap & mb & post & Hs & Hma & Hmb & Hline).
      exists pre, (ma ++ gap ++ mb ++ post). split; [exact Hs|].
      apply match_here_letters. exists ma, (gap ++ mb ++ post).
      repeat split; [exact Hma|].
      apply match_here_gap. exists gap, (mb ++ post).
      repeat split; [exact Hline|].
      rewrite <- (app_nil_r (map Lit _)).
      apply match_here_letters. exists mb, post. auto.
Qed.

Lemma some_test_MatchesSome (vocabulary : list Vocabulary) (message : string) :
  some_test (map pattern_of vocabulary) message = true
  <-> MatchesSome vocabulary message.
Proof.
  unfold some_test, MatchesSome. rewrite existsb_exists. split.
  - intros (p & Hin & Ht). apply in_map_iff in Hin as (v & <- & Hv).
    exists v. split; [by apply list_elem_of_In|by apply test_Matches].
  - intros (v & Hv & Hm). exists (pattern_of v). split.
    + apply in_map. by apply list_elem_of_In.
    + by apply test_Matches.
Qed.

Lemma some_test_not_MatchesSome (vocabulary : list Vocabulary) (message : string) :
  some_test (map pattern_of vocabulary) message = false
  <-> ~ MatchesSome vocabulary message.
Proof.
  rewrite <- some_test_MatchesSome.
  destruct (some_test _ _); split; congruence.
Qed.



(** The scenario "stress sweep classifying a validation error". *)
Lemma validation_error_is_graceful :
  classifyOutcome (Some "Invalid argument: path must be a string") None false
  = graceful_fail.
Proof. reflexivity. Qed.

(** The order of the rules decides for a message of both vocabularies,
    and [.] stops at a line terminator. *)
Lemma both_vocabularies_is_graceful :
  classifyOutcome (Some "Fatal: invalid state") None false = graceful_fail /\
  classifyOutcome (Some "Fatal: bad state") None false = crash_or_hang /\
  classifyOutcome
    (Some ("internal" ++ String (ascii_of_nat 10) "error")%string) None false
  = graceful_fail.
Proof. repeat split; reflexivity. Qed.

End ClassifierFacts.

(* ================================================================== *)
(** * Properties of the diff engine *)
(* ================================================================== *)

Module DiffFacts.
Import Json Diff.
Local Open Scope list_scope.

(** The calls of a trace with a given method, in the order of the trace. *)
Definition calls_of (method : string) (cs : list TraceCall) : list TraceCall :=
  filter (fun c => tc_method c = method) cs.

(** *** [groupByMethod] *)

Lemma assoc_push (k k' : string) (call : TraceCall) (m : Groups) :
  assoc k (push k' call m)
  = if bool_decide (k = k') then Some (default [] (assoc k m) ++ [call])
    else assoc k m.
Proof.
  induction m as [|[k1 l] m IH]; cbn [push assoc].
  - case_bool_decide; reflexivity.
  - destruct (bool_decide_reflect (k' = k1)) as [-> | Hne]; cbn [assoc].
    + case_bool_decide; reflexivity.
    + rewrite IH. repeat case_bool_decide; try reflexivity; congruence.
Qed.

Lemma assoc_fold (k : string) (cs : list TraceCall) (m : Groups) :
  assoc k (fold_left (fun m call => push (tc_method call) call m) cs m)
  = match assoc k m, calls_of k cs with
    | None, [] => None
    | o, l => Some (default [] o ++ l)
    end.
Proof.
  revert m. induction cs as [|c cs IH]; intros m; cbn [fold_left].
  - cbn. destruct (assoc k m); [rewrite app_nil_r|]; reflexivity.
  - rewrite IH, assoc_push. unfold calls_of.
    destruct (decide (tc_method c = k)) as [Hk | Hk].
    + rewrite filter_cons_True by exact Hk.
      rewrite bool_decide_eq_true_2 by congruence.
      destruct (assoc k m); cbn; rewrite <- ?app_assoc; reflexivity.
    + rewrite filter_cons_False by exact Hk.
      rewrite bool_decide_eq_false_2 by congruence. reflexivity.
Qed.

(** The group of a method is the list of its calls; a method without a
    call has no group. *)
Lemma assoc_groupByMethod (k : string) (cs : list TraceCall) :
  assoc k (groupByMethod cs)
  = match calls_of k cs with [] => None | l => Some l end.
Proof. unfold groupByMethod. rewrite assoc_fold. reflexivity. Qed.

Lemma assoc_elem {A : Type} (k : string) (v : A) (m : list (string * A)) :
  assoc k m = Some v -> (k, v) ∈ m.
Proof.
  induction m as [|[k1 v1] m IH]; cbn [assoc]; [discriminate|].
  case_bool_decide as Hk.
  - intros [= ->]. subst. apply list_elem_of_here.
  - intros Hm. apply list_elem_of_further, IH, Hm.
Qed.

Lemma elem_assoc {A : Type} (k : string) (v : A) (m : list (string * A)) :
  NoDup (map fst m) -> (k, v) ∈ m -> assoc k m = Some v.
Proof.
  induction m as [|[k1 v1] m IH]; intros Hnd Hin.
  - by apply elem_of_nil in Hin.
  - cbn [map fst] in Hnd. apply NoDup_cons in Hnd as [Hk1 Hnd].
    cbn [assoc]. apply elem_of_cons in Hin as [[= -> ->] | Hin].
    + by rewrite bool_decide_eq_true_2.
    + rewrite bool_decide_eq_false_2; [by apply IH|].
      intros ->. apply Hk1. apply list_elem_of_fmap. by exists (k1, v).
Qed.

Lemma keys_push (k : string) (call : TraceCall) (m : Groups) :
  map fst (push k call m)
  = if bool_decide (k ∈ map fst m) then map fst m else map fst m ++ [k].
Proof.
  induction m as [|[k1 l] m IH]; cbn [push map fst].
  - rewrite bool_decide_eq_false_2; [reflexivity|apply not_elem_of_nil].
  - destruct (bool_decide_reflect (k = k1)) as [-> | Hne]; cbn [map fst].
    + rewrite bool_decide_eq_true_2; [reflexivity|apply list_elem_of_here].
    + rewrite IH. case_bool_decide as Hin.
      * rewrite bool_decide_eq_true_2; [reflexivity|].
        by apply list_elem_of_further.
      * rewrite bool_decide_eq_false_2; [reflexivity|].
        intros [?|?]%elem_of_cons; contradiction.
Qed.

Lemma NoDup_push (k : string) (call : TraceCall) (m : Groups) :
  NoDup (map fst m) -> NoDup (map fst (push k call m)).
Proof.
  intros H. rewrite keys_push. case_bool_decide as Hin; [exact H|].
  apply NoDup_app. repeat split; [exact H| |apply NoDup_singleton].
  intros x Hx ->%list_elem_of_singleton. contradiction.
Qed.

Lemma NoDup_groupByMethod (cs : list TraceCall) :
  NoDup (map fst (groupByMethod cs)).
Proof.
  unfold groupByMethod.
  assert (forall m, NoDup (map fst m) ->
            NoDup (map fst (fold_left
                     (fun m call => push (tc_method call) call m) cs m))) as H.
  { induction cs as [|c cs IH]; intros m Hm; cbn [fold_left]; [exact Hm|].
    apply IH, NoDup_push, Hm. }
  apply H. constructor.
Qed.

(** A group of the map: a method with a call, and all its calls. *)
Lemma group_elem (k : string) (l : list TraceCall) (cs : list TraceCall) :
  (k, l) ∈ groupByMethod cs <-> l = calls_of k cs /\ l <> [].
Proof.
  split.
  - intros H. apply elem_assoc in H; [|apply NoDup_groupByMethod].
    rewrite assoc_groupByMethod in H.
    destruct (calls_of k cs); [discriminate|]. injection H as <-. done.
  - intros [-> Hne]. apply assoc_elem. rewrite assoc_groupByMethod.
    destruct (calls_of k cs); [contradiction|reflexivity].
Qed.

(** *** The loops *)

Lemma elem_shared {A : Type}
    (f : string -> list TraceCall -> list TraceCall -> list A)
    (base cur : list TraceCall) (e : A) :
  e ∈ shared f (groupByMethod base) (groupByMethod cur) <->
  exists k, calls_of k base <> [] /\ calls_of k cur <> [] /\
            e ∈ f k (calls_of k base) (calls_of k cur).
Proof.
  unfold shared. rewrite list_elem_of_In, in_flat_map. split.
  - intros ([k l] & Hg & He). apply list_elem_of_In, group_elem in Hg as [-> Hl].
    cbn [fst snd] in He. rewrite assoc_groupByMethod in He.
    destruct (calls_of k cur) eqn:Hc; [destruct He|].
    exists k. rewrite Hc. repeat split; [exact Hl|discriminate|].
    by apply list_elem_of_In.
  - intros (k & Hb & Hc & He). exists (k, calls_of k base). split.
    + apply list_elem_of_In, group_elem. done.
    + cbn [fst snd]. rewrite assoc_groupByMethod.
      destruct (calls_of k cur); [contradiction|]. by apply list_elem_of_In.
Qed.

Lemma elem_only_in (mine other : list TraceCall) (e : CallDiff) :
  e ∈ only_in (groupByMethod mine) (groupByMethod other) <->
  exists k c, calls_of k other = [] /\ c ∈ calls_of k mine /\ e = entry k c.
Proof.
  unfold only_in. rewrite list_elem_of_In, in_flat_map. split.
  - intros ([k l] & Hg & He). apply list_elem_of_In, group_elem in Hg as [-> Hl].
    cbn [fst snd] in He. rewrite assoc_groupByMethod in He.
    destruct (calls_of k other) eqn:Ho; [|destruct He].
    apply in_map_iff in He as (c & <- & Hc).
    exists k, c. split; [exact Ho|]. split; [by apply list_elem_of_In|reflexivity].
  - intros (k & c & Ho & Hc & ->). exists (k, calls_of k mine). split.
    + apply list_elem_of_In, group_elem. split; [reflexivity|].
      intros Hnil. rewrite Hnil in Hc. by apply elem_of_nil in Hc.
    + cbn [fst snd]. rewrite assoc_groupByMethod, Ho.
      apply in_map. by apply list_elem_of_In.
Qed.

Lemma elem_zipped (n i : nat) (a b : list TraceCall) (x y : TraceCall) :
  (i, x, y) ∈ zipped n a b <->
  exists j, i = (n + j)%nat /\ a !! j = Some x /\ b !! j = Some y.
Proof.
  revert n b. induction a as [|x0 a IH]; intros n b.
  - cbn. split; [intros H; by apply elem_of_nil in H|].
    intros (j & _ & H & _). discriminate.
  - destruct b as [|y0 b]; cbn [zipped].
    + split; [intros H; by apply elem_of_nil in H|].
      intros (j & _ & _ & H). discriminate.
    + rewrite elem_of_cons, IH. split.
      * intros [[= -> -> ->] | (j & -> & Ha & Hb)].
        -- exists 0%nat. repeat split. lia.
        -- exists (S j). repeat split; [lia|exact Ha|exact Hb].
      * intros (j & -> & Ha & Hb). destruct j as [|j].
        -- cbn in Ha, Hb. injection Ha as ->. injection Hb as ->.
           left. f_equal. f_equal. lia.
        -- right. exists j. repeat split; [lia|exact Ha|exact Hb].
Qed.

(** The entries that one index can give. *)
Definition change_entry (method : string) (i : nat) (x y : TraceCall)
  : CallChange :=
  {| cc_method := method; cc_index := i;
     cc_baselineParams := tc_params x; cc_currentParams := tc_params y;
     cc_baselineResult := tc_result x; cc_currentResult := tc_result y;
     cc_paramsDiff :=
       if same_text (tc_params x) (tc_params y) then None
       else Some "Parameters changed"%string;
     cc_resultDiff :=
       if same_text (tc_result x) (tc_result y) then None
       else Some "Result changed"%string |}.

Definition latency_entry (method : string) (i : nat) (x y : TraceCall)
  : LatencyChange :=
  {| lc_method := method; lc_index := i;
     lc_baselineLatency := tc_latencyMs x; lc_currentLatency := tc_latencyMs y;
     lc_changePercent := latencyChange (tc_latencyMs x) (tc_latencyMs y) |}.

(** The argument payloads, or the results, differ as [JSON.stringify]
    writes them. *)
Definition differ (x y : TraceCall) : Prop :=
  stringify_opt (tc_params x) <> stringify_opt (tc_params y) \/
  stringify_opt (tc_result x) <> stringify_opt (tc_result y).

Lemma change_at_entry (k : string) (i : nat) (x y : TraceCall) :
  change_at k (i, x, y)
  = if same_text (tc_params x) (tc_params y)
       && same_text (tc_result x) (tc_result y)
    then [] else [change_entry k i x y].
Proof.
  unfold change_at, change_entry.
  destruct (same_text (tc_params x) (tc_params y)),
           (same_text (tc_result x) (tc_result y)); reflexivity.
Qed.

Lemma differ_same_text (x y : TraceCall) :
  differ x y <->
  same_text (tc_params x) (tc_params y)
  && same_text (tc_result x) (tc_result y) = false.
Proof.
  unfold differ, same_text.
  rewrite andb_false_iff, !bool_decide_eq_false. reflexivity.
Qed.

Lemma elem_change_at (k : string) (a b : list TraceCall) (e : CallChange) :
  e ∈ flat_map (change_at k) (zipped 0 a b) <->
  exists i x y, a !! i = Some x /\ b !! i = Some y /\ differ x y /\
                e = change_entry k i x y.
Proof.
  rewrite list_elem_of_In, in_flat_map. split.
  - intros ([[i x] y] & Hz & He).
    apply list_elem_of_In, elem_zipped in Hz as (j & -> & Ha & Hb).
    rewrite change_at_entry in He.
    destruct (_ && _) eqn:Hs; [destruct He|].
    destruct He as [<- | []]. exists j, x, y.
    repeat split; [exact Ha|exact Hb|by apply differ_same_text].
  - intros (i & x & y & Ha & Hb & Hd & ->). exists (i, x, y). split.
    + apply list_elem_of_In, elem_zipped. exists i. auto.
    + rewrite change_at_entry. apply differ_same_text in Hd. rewrite Hd.
      left. reflexivity.
Qed.

Lemma elem_latency_at (k : string) (a b : list TraceCall) (e : LatencyChange) :
  e ∈ flat_map (latency_at k) (zipped 0 a b) <->
  exists i x y, a !! i = Some x /\ b !! i = Some y /\
                over_20 (latencyChange (tc_latencyMs x) (tc_latencyMs y)) = true /\
                e = latency_entry k i x y.
Proof.
  rewrite list_elem_of_In, in_flat_map. split.
  - intros ([[i x] y] & Hz & He).
    apply list_elem_of_In, elem_zipped in Hz as (j & -> & Ha & Hb).
    cbn [latency_at] in He.
    destruct (over_20 _) eqn:Ho; [|destruct He].
    destruct He as [<- | []]. exists j, x, y. auto.
  - intros (i & x & y & Ha & Hb & Ho & ->). exists (i, x, y). split.
    + apply list_elem_of_In, elem_zipped. exists i. auto.
    + cbn [latency_at]. rewrite Ho. left. reflexivity.
Qed.

Lemma lookup_nonempty {A : Type} (l : list A) (i : nat) (x : A) :
  l !! i = Some x -> l <> [].
Proof. intros H ->. discriminate. Qed.

(** *** Traces of the examples *)

Definition call (id : Z) (method : string) (params result : option json)
    (latencyMs : float) : TraceCall :=
  {| tc_id := id; tc_timestamp := "2025-01-01T00:00:00.000Z";
     tc_method := method; tc_params := params; tc_result := result;
     tc_error := None; tc_latencyMs := latencyMs; tc_chaos := None |}.

Definition path_a : option json := Some (JObj [("path", JStr "/a")]).

(** Two calls of 100 ms against calls of 150 ms and 50 ms: the mean is 100
    ms on both sides. *)
Definition steady : Trace :=
  {| calls := [ call 1 "read_file" path_a None 100;
                call 2 "read_file" path_a None 100 ] |}.
Definition swinging : Trace :=
  {| calls := [ call 1 "read_file" path_a None 150;
                call 2 "read_file" path_a None 50 ] |}.

(** One call of 100 ms against calls of 100 ms and 400 ms: the mean goes
    from 100 ms to 250 ms. *)
Definition short : Trace :=
  {| calls := [ call 1 "read_file" path_a None 100 ] |}.
Definition long : Trace :=
  {| calls := [ call 1 "read_file" path_a None 100;
                call 2 "read_file" path_a None 400 ] |}.

(** The same arguments, and another result. *)
Definition before_fix : Trace :=
  {| calls := [ call 1 "read_file" path_a (Some (JStr "")) 100 ] |}.
Definition after_fix : Trace :=
  {| calls := [ call 1 "read_file" path_a (Some (JStr "Hello")) 100 ] |}.

(** The mean latency of the calls of a method in a trace. *)
Definition mean (l : list float) : float :=
  (fold_left PrimFloat.add l 0 / Stress.to_float (Z.of_nat (length l)))%float.

Definition mean_latency (method : string) (t : Trace) : float :=
  mean (map tc_latencyMs (calls_of method (calls t))).




Lemma elem_surplus (k : string) (a b : list TraceCall) (e : CallDiff) :
  e ∈ surplus k a b <->
  exists i c, b !! i = Some c /\ (length a <= i)%nat /\ e = entry k c.
Proof.
  unfold surplus. rewrite list_elem_of_fmap. split.
  - intros (c & -> & Hc). apply list_elem_of_lookup in Hc as (j & Hj).
    rewrite lookup_drop in Hj. exists (length a + j)%nat, c.
    repeat split; [exact Hj|lia].
  - intros (i & c & Hi & Hle & ->). exists c. split; [reflexivity|].
    apply list_elem_of_lookup. exists (i - length a)%nat.
    rewrite lookup_drop. replace (length a + (i - length a))%nat with i by lia.
    exact Hi.
Qed.

(** The calls beyond the other side's count, be the method on the other
    side or not. *)
Lemma elem_beyond (mine other : list TraceCall) (e : CallDiff)
    (tail : list CallDiff) :
  (e ∈ tail <->
   exists k, calls_of k other <> [] /\ calls_of k mine <> [] /\
             e ∈ surplus k (calls_of k other) (calls_of k mine)) ->
  (e ∈ only_in (groupByMethod mine) (groupByMethod other) ++ tail <->
   exists i c,
     calls_of (cd_method e) mine !! i = Some c /\
     (length (calls_of (cd_method e) other) <= i)%nat /\
     e = entry (cd_method e) c).
Proof.
  intros Htail. rewrite elem_of_app, elem_only_in, Htail. split.
  - intros [(k & c & Ho & Hc & ->) | (k & _ & _ & He)].
    + apply list_elem_of_lookup in Hc as (i & Hi).
      exists i, c. cbn [cd_method entry]. rewrite Ho. cbn.
      repeat split; [exact Hi|lia].
    + apply elem_surplus in He as (i & c & Hi & Hle & ->).
      exists i, c. cbn [cd_method entry]. auto.
  - intros (i & c & Hi & Hle & He).
    destruct (calls_of (cd_method e) other) as [|o os] eqn:Ho.
    + left. exists (cd_method e), c. repeat split; [exact Ho| |exact He].
      apply list_elem_of_lookup. eauto.
    + right. exists (cd_method e). rewrite Ho.
      split; [discriminate|].
      split; [exact (lookup_nonempty _ _ _ Hi)|].
      apply elem_surplus. exists i, c. auto.
Qed.


(** The scenario "diff detects argument change and latency regression". *)
Lemma write_file_scenario :
  let args path := Some (JObj [("path", JStr path); ("content", JStr "x")]) in
  let r :=
    compareTraces {| calls := [ call 1 "write_file" (args "/a") None 50 ] |}
                  {| calls := [ call 1 "write_file" (args "/b") None 120 ] |} in
  added r = [] /\ removed r = [] /\
  map cc_method (changed r) = ["write_file"] /\
  latencyChanges r
  = [ {| lc_method := "write_file"; lc_index := 0;
         lc_baselineLatency := 50; lc_currentLatency := 120;
         lc_changePercent := 140 |} ].
Proof. repeat split; vm_compute; reflexivity. Qed.

End DiffFacts.

(* ================================================================== *)
(** * Properties of the stress runner *)
(* ================================================================== *)

Module StressFacts.
Import Json Events Store Stress.
Local Open Scope list_scope.

(** *** Computations that return *)

Lemma bind_Ok {S A B : Type} (m : M S A) (k : A -> M S B) (s s2 : S) (b : B) :
  bind m k s = (Ok b, s2) ->
  exists a s1, m s = (Ok a, s1) /\ k a s1 = (Ok b, s2).
Proof.
  unfold bind. destruct (m s) as [[a|e] s1]; [eauto|discriminate].
Qed.

Lemma each_Ok {S A : Type} (P : S -> Prop) (f : A -> M S unit) (l : list A) :
  (forall x s s', P s -> f x s = (Ok tt, s') -> P s') ->
  forall s s', P s -> each f l s = (Ok tt, s') -> P s'.
Proof.
  intros Hf. induction l as [|x l IH]; intros s s' Hs H; cbn [each] in H.
  - injection H as <-. exact Hs.
  - apply bind_Ok in H as ([] & s1 & H1 & H2). eauto.
Qed.

(** *** The invariant of the sweep *)

(** The row of a [stress_mutation] event holds, in [params_json], the
    mutation and an outcome of the three. *)
Definition carries_outcome (e : TraceEventRow) : Prop :=
  exists (m : MutationInfo) (o : StressOutcome),
    ev_params_json e
    = Some (stringify (JObj [("mutation", MutationInfo_json m);
                             ("outcome", JStr (outcome_text o))])).

Definition is_stress_event (runId : string) (e : TraceEventRow) : Prop :=
  ev_run_id e = runId /\ ev_event_type e = "stress_mutation"%string.

(** The counters add up to the number of [stress_mutation] events of the
    run, each of which carries an outcome. *)
Definition counted (runId : string) (s : Sweep) : Prop :=
  passed s + graceful s + crashed s
  = count_events runId "stress_mutation" (journal s) /\
  (forall e, e ∈ trace_events (journal s) -> is_stress_event runId e ->
             carries_outcome e).

Lemma count_events_snoc (runId type : string) (d d' : Database)
    (row : TraceEventRow) :
  trace_events d' = trace_events d ++ [row] ->
  ev_run_id row = runId -> ev_event_type row = type ->
  count_events runId type d' = count_events runId type d + 1.
Proof.
  intros Hd Hr Ht. unfold count_events. rewrite Hd, filter_app.
  rewrite filter_cons_True by done.
  rewrite length_app. cbn [length filter]. cbn. lia.
Qed.

Lemma sum_count (o : StressOutcome) (s : Sweep) :
  passed (count o s) + graceful (count o s) + crashed (count o s)
  = passed s + graceful s + crashed s + 1.
Proof. destruct o; cbn; lia. Qed.

Lemma journal_count (o : StressOutcome) (s : Sweep) :
  journal (count o s) = journal s.
Proof. destruct o; reflexivity. Qed.

Lemma insert_stress_mutation (runId : string) (ts : Z) (tool : string)
    (m : MutationInfo) (o : StressOutcome) (result error : option json)
    (latencyMs : Z) (d d' : Database) :
  insertTraceEvent runId (stress_mutation ts tool m o result error latencyMs) d
  = Ok d' ->
  runs d' = runs d /\
  exists row, trace_events d' = trace_events d ++ [row] /\
              is_stress_event runId row /\ carries_outcome row.
Proof.
  unfold insertTraceEvent. cbn [row_of_event].
  destruct (existsb _ _); [|discriminate]. intros [= <-].
  cbn [runs trace_events]. split; [reflexivity|].
  eexists. split; [reflexivity|]. split; [split; reflexivity|].
  exists m, o. reflexivity.
Qed.

Lemma probe_counted (server : Server) (runId : string) (tool : Tool)
    (mutation : Mutation) (s s' : Sweep) :
  counted runId s ->
  probe server runId tool mutation s = (Ok tt, s') ->
  counted runId s'.
Proof.
  intros [Hsum Hall]. unfold probe, sendRequest. intros H.
  apply bind_Ok in H as ([id reply] & s1 & H1 & H).
  apply bind_Ok in H1 as ([] & s0 & H0 & H1).
  apply bind_Ok in H1 as (id' & s0' & Hid & H1).
  injection H0 as <-. injection Hid as <- <-. injection H1 as <- <- <-.
  cbn [fst snd] in H.
  apply bind_Ok in H as (d & s1 & Hd & H). injection Hd as <- <-.
  apply bind_Ok in H as (d' & s1 & Hd' & H).
  unfold of_result in Hd'. injection Hd' as Hins <-.
  apply bind_Ok in H as ([] & s1 & Hm & H). injection Hm as <-.
  injection H as <-.
  cbn [journal] in Hins.
  apply insert_stress_mutation in Hins as (_ & row & Hrows & Hrow & Hout).
  split.
  - rewrite sum_count, journal_count. cbn [with_journal journal passed graceful crashed].
    destruct Hrow as [Hr Ht].
    rewrite (count_events_snoc runId _ (journal s) d' row Hrows Hr Ht). lia.
  - rewrite journal_count. cbn [with_journal journal]. rewrite Hrows.
    intros e [He | ->%list_elem_of_singleton]%elem_of_app Hse; auto.
Qed.

Lemma sweep_tool_counted (server : Server) (runId : string)
    (entry : option Tool) (s s' : Sweep) :
  counted runId s ->
  sweep_tool server runId entry s = (Ok tt, s') ->
  counted runId s'.
Proof.
  intros Hs. unfold sweep_tool. destruct entry as [tool|]; [|discriminate].
  destruct (tool_inputSchema tool) as [schema|].
  - apply each_Ok; [|exact Hs]. intros x. apply probe_counted.
  - intros [= <-]. exact Hs.
Qed.

Lemma sendRequest_journal (server : Server) (method : string) (params : json)
    (s s' : Sweep) (r : Z * Reply) :
  sendRequest server method params s = (Ok r, s') ->
  journal s' = journal s /\ passed s' = passed s /\
  graceful s' = graceful s /\ crashed s' = crashed s.
Proof.
  unfold sendRequest. intros H.
  apply bind_Ok in H as ([] & s0 & H0 & H).
  apply bind_Ok in H as (id & s1 & H1 & H).
  injection H0 as <-. injection H1 as <- <-. injection H as <- <-. auto.
Qed.

(** *** Reading the run after the sweep *)

Lemma getRun_updateStressStats (id : string) (p g c sc : Z) (d : Database) :
  getRun id (updateStressStats id p g c sc d)
  = set_stress p g c sc (p + g + c) <$> getRun id d.
Proof.
  unfold getRun, updateStressStats. cbn [runs with_runs].
  rewrite StoreFacts.find_update_where by reflexivity.
  destruct (find (has_id id) (runs d)) as [r|] eqn:Hr; [|reflexivity].
  cbn. apply find_some in Hr as [_ ->]. reflexivity.
Qed.

Lemma getRun_status_after (id : string) (status : Status) (now : Z)
    (d : Database) (r' : Run) :
  getRun id (updateRunStatus id status None now d) = Some r' ->
  r_status r' = status /\
  exists r, getRun id d = Some r /\
            r_stress_passed r' = r_stress_passed r /\
            r_stress_graceful r' = r_stress_graceful r /\
            r_stress_crashed r' = r_stress_crashed r.
Proof.
  rewrite StoreFacts.getRun_updateRunStatus.
  destruct (getRun id d) as [r|] eqn:Hr; [|discriminate].
  unfold fmap, option_fmap, option_map.
  rewrite (StoreFacts.getRun_has_id _ _ _ Hr). intros [= <-].
  split; [apply StoreFacts.status_apply_status|].
  exists r. split; [reflexivity|].
  unfold apply_status. cbn [stat].
  repeat case_bool_decide; cbn; auto.
Qed.

Lemma count_events_updateRunStatus (runId type id : string) (status : Status)
    (stats : option RunStats) (now : Z) (d : Database) :
  count_events runId type (updateRunStatus id status stats now d)
  = count_events runId type d.
Proof. reflexivity. Qed.

(** *** A catalogue for the examples *)

Definition fresh_db : Database :=
  snd (createRun "r1" 5 "node server.js" None (Some "a1") stress
         {| projects := [ {| pj_id := "p1"; pj_name := "demo";
                             pj_description := None; pj_created_at := 1 |} ];
            agents := [ {| ag_id := "a1"; ag_project_id := "p1";
                           ag_name := "filesystem";
                           ag_target := "node server.js";
                           ag_chaos_profile := None; ag_created_at := 3 |} ];
            runs := []; trace_events := []; last_event_id := 0 |}).

(** A tool without properties: two mutations, [valid] and [extra_field]. *)
Definition ping : Tool :=
  {| tool_name := "ping"; tool_inputSchema := Some (Schema "object" None None) |}.

(** A target that accepts the first probe (request 3), rejects the second
    with a validation error, and answers nothing more. *)
Definition target (listed : list (option Tool)) : Server :=
  {| tools_listed := listed;
     respond := fun id _ _ =>
       if (id =? 3)%Z then Answered (Some (JObj []))
       else if (id =? 4)%Z
            then Rejected (Some "Invalid argument: path must be a string"%string)
            else Silent;
     sent_at := fun id => 1000 + 100 * id;
     elapsed := fun _ => 7 |}.

Definition stress_sum (r : Run) : Z :=
  r_stress_passed r + r_stress_graceful r + r_stress_crashed r.




(** The scenario "stress sweep classifying a validation error": the second
    probe of [ping] is answered with a validation error and counted
    graceful; the first is counted passed. *)
Lemma sweep_of_ping :
  let d' := runStressTests (target [Some ping]) "a1" "r1" fresh_db in
  (fun r => (r_status r, r_stress_passed r, r_stress_graceful r,
             r_stress_crashed r, r_stress_score r)) <$> getRun "r1" d'
  = Some (completed, 1, 1, 0, 100) /\
  count_events "r1" "stress_mutation" d' = 2.
Proof. split; vm_compute; reflexivity. Qed.

End StressFacts.

(* ================================================================== *)
(** * Properties of the stdio proxy *)
(* ================================================================== *)

Module ProxyFacts.
Import Json Events Store Tracer Proxy.
Local Open Scope list_scope.

Definition newline : string := String (ascii_of_nat 10) "".

(** *** The scenario "chaos delay on [tools/call]" *)

(** The proxy started on an empty journal with the configuration
    [{seed: 1, tools: {read_file: {delayMs: {p: 1.0, value: 500}}}}]. *)
Definition delay_proxy : Process :=
  start "run-1" 1000 1000 "node server.js" (Some ChaosFacts.delay_config)
    (Some (stringify
             (JObj [("seed", JNum 1);
                    ("tools",
                     JObj [("read_file",
                            JObj [("delayMs",
                                   JObj [("p", JNum 1);
                                         ("value", JNum 500)])])])])))
    None empty_db.

(** A [tools/call] request for the tool [read_file], and a response to it. *)
Definition call_read_file (id arguments : json) : json :=
  JObj [("jsonrpc", JStr "2.0"); ("id", id); ("method", JStr "tools/call");
        ("params", JObj [("name", JStr "read_file");
                         ("arguments", arguments)])].

Definition result_for (id result : json) : json :=
  JObj [("jsonrpc", JStr "2.0"); ("id", id); ("result", result)].

(** The descriptor the claim expects, and the one the proxy records. *)
Definition seed_and_delay : Chaos.ChaosApplied :=
  {| Chaos.ca_seed := Some 1; Chaos.ca_delayMs := Some 500;
     Chaos.ca_errorInjected := None; Chaos.ca_responseCorrupted := None |}.

Definition seed_only : Chaos.ChaosApplied :=
  {| Chaos.ca_seed := Some 1; Chaos.ca_delayMs := None;
     Chaos.ca_errorInjected := None; Chaos.ca_responseCorrupted := None |}.

(** C4, as stated, fails in its second half: after the request and its
    response, the row of the [rpc_response] event has no chaos descriptor,
    and the only descriptor in the journal, on the [tool_result] row, is
    [{seed: 1}], without [delayMs]. *)
Lemma response_descriptor_has_no_delay :
  let p :=
    run delay_proxy
      [ ClientLine "request" (Some (call_read_file (JNum 1) (JObj []))) 2000;
        TargetLine "response" (Some (result_for (JNum 1) (JObj []))) 2600 ] in
  map (fun e => (ev_event_type e, ev_chaos_applied e))
    (trace_events (db (recorder p)))
  = [ ("session_start"%string, None); ("rpc_request"%string, None);
      ("tool_call"%string, None);
      ("tool_result"%string,
       Some (stringify (Chaos.ChaosApplied_json seed_only)));
      ("rpc_response"%string, None) ] /\
  stringify (Chaos.ChaosApplied_json seed_only)
  <> stringify (Chaos.ChaosApplied_json seed_and_delay).
Proof. split; [vm_compute; reflexivity | vm_compute; discriminate]. Qed.

(** C4, amended.  In the proxy run with that configuration, a
    [tools/call] request for [read_file] is journaled ([rpc_request], then
    [tool_call]), then the listener sleeps 500 ms, and only then the line
    goes to the tool server.  When the response arrives, the descriptor
    handed to the recorder is [{seed: 1}] alone; it is journaled on the
    [tool_result] event, and the [rpc_response] event carries the latency
    and no chaos descriptor. *)
Theorem delayed_call_scenario (line reply : string) (arguments result : json)
    (t1 t2 : Z) :
  let p1 :=
    handle delay_proxy
      (ClientLine line (Some (call_read_file (JNum 1) arguments)) t1) in
  let p2 := handle p1 (TargetLine reply (Some (result_for (JNum 1) result)) t2) in
  effects (recorder p1)
  = effects (recorder delay_proxy)
    ++ [ Journaled
           (rpc_request (Some (JNum 1)) (JStr "tools/call")
              (Some (JObj [("name", JStr "read_file");
                           ("arguments", arguments)])) t1);
         Journaled (tool_call (JStr "read_file") (Some arguments) t1 "1");
         Sleep 500;
         ToTarget (line ++ newline) ] /\
  effects (recorder p2)
  = effects (recorder p1)
    ++ [ Journaled
           (tool_result "1" true (Some result) None t2 (t2 - t1)
              (Some seed_only));
         Journaled
           (rpc_response (Some (JNum 1)) (Some result) None t2
              (Some (t2 - t1)));
         ToStdout (reply ++ newline) ] /\
  map (fun e => (ev_event_type e, ev_chaos_applied e))
    (trace_events (db (recorder p2)))
  = [ ("session_start"%string, None); ("rpc_request"%string, None);
      ("tool_call"%string, None);
      ("tool_result"%string,
       Some (stringify (Chaos.ChaosApplied_json seed_only)));
      ("rpc_response"%string, None) ].
Proof.
  cbv zeta. split; [|split]; vm_compute; reflexivity.
Qed.

(** *** A response that matches no request in flight *)

(** The recorder journals: it holds the identifier of the run it created,
    and the run is in the table of runs. *)
Definition journaling (r : Recorder) (run : string) : Prop :=
  runId r = Some run /\ run <> ""%string /\
  existsb (has_id run) (runs (db r)) = true.

(** The recorder after [writeEvent(event)] has inserted [row]. *)
Definition journaled (r : Recorder) (event : TraceEvent) (row : TraceEventRow)
  : Recorder :=
  {| db := {| projects := projects (db r); agents := agents (db r);
              runs := runs (db r);
              trace_events := trace_events (db r) ++ [row];
              last_event_id := last_event_id (db r) + 1 |};
     sessionId := sessionId r; runId := runId r; agentId := agentId r;
     callCount := callCount r; errorCount := errorCount r;
     pendingCalls := pendingCalls r;
     effects := effects r ++ [Journaled event] |}.

(** The row of an [rpc_response] event without latency. *)
Definition response_row (id : Z) (run : string) (result error : option json)
    (now : Z) : TraceEventRow :=
  {| ev_id := id; ev_run_id := run; ev_event_type := "rpc_response";
     ev_method := None; ev_tool_name := None; ev_params_json := None;
     ev_result_json := stringify_if_truthy result;
     ev_error_json := stringify_if_truthy error;
     ev_latency_ms := None; ev_timestamp := now; ev_chaos_applied := None |}.

Lemma writeEvent_journaling (r : Recorder) (run : string) (event : TraceEvent)
    (row : TraceEventRow) :
  journaling r run ->
  row_of_event (last_event_id (db r) + 1) run event = Ok row ->
  writeEvent event r = (Ok tt, journaled r event row).
Proof.
  intros (Hrun & Hne & Hex) Hrow.
  cbv beta iota zeta delta [writeEvent bind gets of_result modify emit].
  rewrite Hrun. cbn [nonempty]. rewrite bool_decide_eq_false_2 by exact Hne.
  unfold insertTraceEvent. rewrite Hrow, Hex. reflexivity.
Qed.

Lemma recordRpcResponse_unmatched (r : Recorder) (id : json)
    (result error : option json) (chaos : option Chaos.ChaosApplied) (now : Z) :
  pendingCalls r !! js_String id = None ->
  recordRpcResponse (Some id) result error chaos now r
  = writeEvent (rpc_response (Some id) result error now None) r.
Proof.
  intros Hpend.
  cbv beta iota zeta delta [recordRpcResponse bind gets ret].
  rewrite Hpend. reflexivity.
Qed.

Lemma member_defined {S : Type} (k : string) (v x : json) (s : S) :
  prop k v = Some x -> forall k', member k' v s = (Ok (prop k' v), s).
Proof. destruct v; try discriminate. reflexivity. Qed.


(** The proxy of the scenario once the request 1 has had its response. *)
Definition answered_proxy : Process :=
  run delay_proxy
    [ ClientLine "request" (Some (call_read_file (JNum 1) (JObj []))) 2000;
      TargetLine "response" (Some (result_for (JNum 1) (JObj []))) 2600 ].


(** *** Every running proxy journals *)

(** A computation keeps an invariant of the state, whether it returns or
    throws. *)
Definition keeps {S A : Type} (I : S -> Prop) (m : M S A) : Prop :=
  forall s, I s -> I (snd (m s)).

Section Keeps.
Context {S : Type} (I : S -> Prop).

Lemma keeps_ret {A : Type} (a : A) : keeps I (ret a).
Proof. intros s Hs. exact Hs. Qed.

Lemma keeps_throw {A : Type} (e : Exn) : keeps I (@throw S A e).
Proof. intros s Hs. exact Hs. Qed.

Lemma keeps_gets {A : Type} (f : S -> A) : keeps I (gets f).
Proof. intros s Hs. exact Hs. Qed.

Lemma keeps_of_result {A : Type} (r : Result A) : keeps I (of_result r).
Proof. intros s Hs. exact Hs. Qed.

Lemma keeps_modify (f : S -> S) : (forall s, I s -> I (f s)) -> keeps I (modify f).
Proof. intros Hf s Hs. exact (Hf s Hs). Qed.

Lemma keeps_bind {A B : Type} (m : M S A) (k : A -> M S B) :
  keeps I m -> (forall a, keeps I (k a)) -> keeps I (bind m k).
Proof.
  intros Hm Hk s Hs. unfold bind. specialize (Hm s Hs).
  destruct (m s) as [[a|e] s1]; cbn [snd] in *; [by apply Hk|exact Hm].
Qed.

Lemma keeps_try_catch {A : Type} (m h : M S A) :
  keeps I m -> keeps I h -> keeps I (try_catch m h).
Proof.
  intros Hm Hh s Hs. unfold try_catch. specialize (Hm s Hs).
  destruct (m s) as [[a|e] s1]; cbn [snd] in *; [exact Hm|by apply Hh].
Qed.

Lemma keeps_when (b : bool) (m : M S unit) : keeps I m -> keeps I (when b m).
Proof. intros Hm. destruct b; [exact Hm|apply keeps_ret]. Qed.

Lemma keeps_member (k : string) (v : json) : keeps I (member k v).
Proof. destruct v; first [apply keeps_throw | apply keeps_ret]. Qed.

End Keeps.

Lemma existsb_update_where (id : string) (c : Run -> bool) (f : Run -> Run)
    (l : list Run) :
  (forall r, r_id (f r) = r_id r) ->
  existsb (has_id id) (update_where c f l) = existsb (has_id id) l.
Proof.
  intros Hf. induction l as [|r l IH]; [reflexivity|].
  cbn [update_where map existsb]. fold (update_where c f l). rewrite IH.
  f_equal. unfold has_id. destruct (c r); [rewrite Hf|]; reflexivity.
Qed.

Lemma r_id_apply_status (status : Status) (stats : option RunStats) (now : Z)
    (r : Run) :
  r_id (apply_status status stats now r) = r_id r.
Proof.
  unfold apply_status.
  destruct (stat totalErrors stats), (stat totalCalls stats);
    repeat case_bool_decide; reflexivity.
Qed.

Section Journaling.
Variable run : string.

Abbreviation J := (fun r => journaling r run).

Lemma journaling_same_run (r r' : Recorder) :
  runId r' = runId r -> runs (db r') = runs (db r) ->
  journaling r run -> journaling r' run.
Proof. unfold journaling. intros -> ->. exact id. Qed.

Lemma keeps_emit (e : Effect) : keeps J (emit e).
Proof. apply keeps_modify. intros r. by apply journaling_same_run. Qed.

Lemma keeps_writeEvent (event : TraceEvent) : keeps J (writeEvent event).
Proof.
  intros r Hr. cbv beta iota zeta delta [writeEvent bind gets of_result modify].
  destruct (nonempty (runId r)) as [id|]; [|exact Hr].
  unfold insertTraceEvent. destruct (row_of_event _ _ _) as [row|e]; [|exact Hr].
  destruct (existsb (has_id id) (runs (db r))); [|exact Hr].
  cbn. revert Hr. by apply journaling_same_run.
Qed.

Lemma keeps_pending (f : Recorder -> gmap string Pending) :
  keeps J (modify (fun r => with_pending (f r) r)).
Proof. apply keeps_modify. intros r. by apply journaling_same_run. Qed.

Lemma keeps_recordRpcRequest (id : option json) (method : json)
    (params : option json) (now : Z) :
  keeps J (recordRpcRequest id method params now).
Proof.
  unfold recordRpcRequest.
  apply keeps_bind; [apply keeps_writeEvent|]. intros _.
  destruct id as [i|]; [|apply keeps_ret].
  apply keeps_bind; [apply keeps_pending|]. intros _.
  destruct (is_string _ _); [|apply keeps_ret].
  destruct (truthy_opt _); [|apply keeps_ret].
  apply keeps_bind; [apply keeps_pending|]. intros _. apply keeps_writeEvent.
Qed.

Lemma keeps_recordRpcResponse (id : option json) (result error : option json)
    (chaos : option Chaos.ChaosApplied) (now : Z) :
  keeps J (recordRpcResponse id result error chaos now).
Proof.
  unfold recordRpcResponse.
  apply keeps_bind; [|intros latency; apply keeps_writeEvent].
  destruct id as [i|]; [|apply keeps_ret].
  apply keeps_bind; [apply keeps_gets|]. intros [p|]; [|apply keeps_ret].
  apply keeps_bind.
  - apply keeps_when. apply keeps_bind; [|intros _; apply keeps_writeEvent].
    apply keeps_modify. intros r. by apply journaling_same_run.
  - intros _. apply keeps_bind; [apply keeps_pending|]. intros _.
    apply keeps_ret.
Qed.

Lemma keeps_end (now : Z) : keeps J (end_ now).
Proof.
  unfold end_. apply keeps_bind; [apply keeps_gets|]. intros r0.
  apply keeps_bind; [apply keeps_writeEvent|]. intros _.
  destruct (nonempty (runId r0)) as [id|]; [|apply keeps_ret].
  apply keeps_modify. intros r (Hrun & Hne & Hex).
  repeat split; [exact Hrun|exact Hne|].
  cbn [db with_db updateRunStatus runs with_runs].
  rewrite existsb_update_where; [exact Hex|]. intros x. apply r_id_apply_status.
Qed.

Abbreviation JP := (fun p => journaling (recorder p) run).

Lemma keeps_lift {A : Type} (m : M Recorder A) : keeps J m -> keeps JP (lift m).
Proof.
  intros Hm p Hp. unfold lift. specialize (Hm (recorder p) Hp).
  destruct (m (recorder p)) as [r rec']. exact Hm.
Qed.

Lemma keeps_listener (ev : Event) : keeps JP (listener ev).
Proof.
  assert (forall c, keeps JP (exit c)) as Hexit
    by (intros c; apply keeps_modify; auto).
  assert (forall e, keeps JP (lift (emit e))) as Hemit
    by (intros e; apply keeps_lift, keeps_emit).
  destruct ev as [line parsed now | line parsed now | now | now | code now];
    cbn [listener].
  - unfold onClientLine. apply keeps_try_catch; [|apply Hemit].
    apply keeps_bind; [destruct parsed; [apply keeps_ret|apply keeps_throw]|].
    intros message. apply keeps_bind; [apply keeps_member|]. intros method.
    apply keeps_bind;
      [apply keeps_when, keeps_lift, keeps_recordRpcRequest|]. intros _.
    apply keeps_bind; [apply keeps_gets|]. intros inj.
    apply keeps_bind; [|intros _; apply Hemit].
    destruct inj as [i|]; [|apply keeps_ret].
    apply keeps_when. destruct (Chaos.getDelay _ i) as [delay i'].
    apply keeps_bind; [apply keeps_modify; auto|]. intros _.
    apply keeps_when, Hemit.
  - unfold onTargetLine. apply keeps_bind; [|intros _; apply Hemit].
    apply keeps_try_catch; [|apply keeps_ret].
    apply keeps_bind; [destruct parsed; [apply keeps_ret|apply keeps_throw]|].
    intros message. apply keeps_bind; [apply keeps_member|]. intros id.
    destruct id as [i|]; [|apply keeps_ret].
    apply keeps_bind; [apply keeps_gets|]. intros inj.
    apply keeps_lift, keeps_recordRpcResponse.
  - unfold cleanup. apply keeps_bind; [apply keeps_lift, keeps_end|]. intros _.
    apply keeps_bind; [apply Hemit|]. intros _. apply Hexit.
  - unfold cleanup. apply keeps_bind; [apply keeps_lift, keeps_end|]. intros _.
    apply keeps_bind; [apply Hemit|]. intros _. apply Hexit.
  - unfold onTargetClose. apply keeps_bind; [apply keeps_lift, keeps_end|].
    intros _. apply Hexit.
Qed.

Lemma handle_journaling (p : Process) (ev : Event) :
  journaling (recorder p) run -> journaling (recorder (handle p ev)) run.
Proof.
  intros Hp. unfold handle. destruct (exit_code p); [exact Hp|].
  pose proof (keeps_listener ev p Hp) as H.
  destruct (listener ev p) as [[u|e] p']; exact H.
Qed.

Lemma run_journaling (evs : list Event) (p : Process) :
  journaling (recorder p) run -> journaling (recorder (Proxy.run p evs)) run.
Proof.
  revert p. induction evs as [|ev evs IH]; intros p Hp; [exact Hp|].
  cbn [Proxy.run fold_left]. apply IH, handle_journaling, Hp.
Qed.

End Journaling.

Lemma existsb_has_id_snoc (id : string) (l : list Run) (r : Run) :
  r_id r = id -> existsb (has_id id) (l ++ [r]) = true.
Proof.
  intros Hr. rewrite existsb_app. cbn [existsb]. unfold has_id at 2.
  rewrite bool_decide_eq_true_2 by exact Hr. by rewrite orb_true_r.
Qed.

(** The proxy that [start] leaves running journals under the identifier
    of its run, and goes on doing so whatever the events. *)
Lemma started_proxy_journals (uuid : string) (now seedClock : Z)
    (target : string) (chaosConfig : option Chaos.ChaosConfig)
    (chaosText agent : option string) (d : Database) (evs : list Event) :
  uuid <> ""%string ->
  exit_code (start uuid now seedClock target chaosConfig chaosText agent d)
  = None ->
  journaling
    (recorder
       (Proxy.run (start uuid now seedClock target chaosConfig chaosText agent d)
          evs)) uuid.
Proof.
  intros Hne Hexit. apply run_journaling. revert Hexit. unfold start.
  destruct (Command.parseCommand target) as [[cmd|] args]; [|discriminate].
  unfold new_TraceRecorder, createRun.
  destruct (cleanupStaleRuns agent (Some proxy) now d) as [n d1].
  destruct (existsb (has_id uuid) (runs d1)); [discriminate|].
  destruct (match nonempty agent with Some _ => _ | None => _ end);
    [discriminate|].
  cbn [r_id]. intros _.
  match goal with
  | |- journaling (recorder (let '(_, rec) := writeEvent ?e ?r in _)) _ =>
      pose proof (keeps_writeEvent uuid e r) as H;
      destruct (writeEvent e r) as [res rec]; cbn [recorder snd] in *; apply H
  end.
  repeat split; [exact Hne|].
  cbn [db updateRunStatus runs with_runs].
  rewrite existsb_update_where by (intros x; apply r_id_apply_status).
  by apply existsb_has_id_snoc.
Qed.

End ProxyFacts.

(* ================================================================== *)
(** * Further properties of the journal store *)
(* ================================================================== *)

Module JournalFacts.
Import Json Events Store Sql.
Local Open Scope list_scope.

Definition events_of (runId : string) (db : Database) : list TraceEventRow :=
  filter (fun e => ev_run_id e = runId) (trace_events db).

Lemma find_filter_keeps {A : Type} (p : A -> bool) (Q : A -> Prop)
    `{!forall x, Decision (Q x)} (l : list A) :
  (forall x, p x = true -> Q x) -> find p (filter Q l) = find p l.
Proof.
  intros Hk. induction l as [|x l IH]; [reflexivity|].
  destruct (decide (Q x)) as [Hq|Hq].
  - rewrite filter_cons_True by exact Hq. cbn. rewrite IH. reflexivity.
  - rewrite filter_cons_False by exact Hq. cbn.
    destruct (p x) eqn:Hp; [|exact IH]. exfalso. auto.
Qed.

Lemma find_filter_none {A : Type} (p : A -> bool) (Q : A -> Prop)
    `{!forall x, Decision (Q x)} (l : list A) :
  (forall x, p x = true -> ~ Q x) -> find p (filter Q l) = None.
Proof.
  intros Hk. destruct (find p (filter Q l)) as [x|] eqn:Hx; [|reflexivity].
  apply find_some in Hx as [Hin Hp].
  apply list_elem_of_In, list_elem_of_filter in Hin as [Hq _].
  exfalso. exact (Hk x Hp Hq).
Qed.

Lemma existsb_find {A : Type} (p : A -> bool) (l : list A) :
  existsb p l = true <-> find p l <> None.
Proof.
  induction l as [|x l IH]; cbn; [split; [discriminate|congruence]|].
  destruct (p x); [split; [discriminate|reflexivity]|exact IH].
Qed.

Lemma existsb_find_none {A : Type} (p : A -> bool) (l : list A) :
  find p l = None -> existsb p l = false.
Proof.
  intros Hn. destruct (existsb p l) eqn:He; [|reflexivity].
  apply existsb_find in He. contradiction.
Qed.

Lemma existsb_find_some {A : Type} (p : A -> bool) (l : list A) (x : A) :
  find p l = Some x -> existsb p l = true.
Proof. intros Hs. apply existsb_find. congruence. Qed.

Lemma filter_none {A : Type} (P : A -> Prop) `{!forall x, Decision (P x)}
    (l : list A) :
  (forall x, x ∈ l -> ~ P x) -> filter P l = [].
Proof.
  intros Hn. induction l as [|x l IH]; [reflexivity|].
  rewrite filter_cons_False by (apply Hn; left).
  apply IH. intros y Hy. apply Hn. by right.
Qed.

(** X1.  [DELETE FROM runs WHERE id = ?] takes the run and, by the cascade of
    [trace_events.run_id], its events and nothing else; the result tells
    whether there was such a run, and without one nothing changes. *)
Theorem deleteRun_cascade (id : string) (db : Database) :
  (getRun id db = None -> deleteRun id db = (false, db)) /\
  (forall r, getRun id db = Some r ->
     let db' := snd (deleteRun id db) in
     fst (deleteRun id db) = true /\
     getRun id db' = None /\
     events_of id db' = [] /\
     getRunEventCount id db' = 0 /\
     (forall id', id' <> id ->
        getRun id' db' = getRun id' db /\
        events_of id' db' = events_of id' db /\
        getRunEventCount id' db' = getRunEventCount id' db) /\
     projects db' = projects db /\ agents db' = agents db /\
     last_event_id db' = last_event_id db).
Proof.
  unfold deleteRun, getRunEventCount, events_of. split.
  - intros Hn. unfold getRun in Hn. by rewrite (existsb_find_none _ _ Hn).
  - intros r Hr. unfold getRun in Hr. rewrite (existsb_find_some _ _ _ Hr).
    cbn [fst snd runs trace_events projects agents last_event_id].
    assert (filter (fun e => ev_run_id e = id)
              (filter (fun e => ev_run_id e <> id) (trace_events db)) = [])
      as Hnone.
    { apply filter_none. intros e He. apply list_elem_of_filter in He. tauto. }
    split; [reflexivity|]. split.
    { unfold getRun. cbn [runs]. apply find_filter_none.
      intros x Hx. apply bool_decide_eq_true in Hx. auto. }
    split; [exact Hnone|]. split; [by rewrite Hnone|].
    split; [|auto].
    intros id' Hne.
    assert (filter (fun e => ev_run_id e = id')
              (filter (fun e => ev_run_id e <> id) (trace_events db))
            = filter (fun e => ev_run_id e = id') (trace_events db)) as Hsame.
    { apply list_filter_filter_l. intros e He. congruence. }
    split; [|split; [exact Hsame|by rewrite Hsame]].
    unfold getRun. cbn [runs]. apply find_filter_keeps.
    intros x Hx. apply bool_decide_eq_true in Hx. congruence.
Qed.

Lemma deleteRun_cascade_witness :
  getRun "r1" StoreFacts.sample_db <> None /\
  getRunEventCount "r1" StoreFacts.sample_db = 1 /\
  getRunEventCount "r1" (snd (deleteRun "r1" StoreFacts.sample_db)) = 0 /\
  getRunEventCount "r2" (snd (deleteRun "r1" StoreFacts.sample_db)) = 1.
Proof.
  split; [discriminate|]. split; [reflexivity|].
  destruct (proj2 (deleteRun_cascade "r1" StoreFacts.sample_db) _ eq_refl)
    as (_ & _ & _ & Hcount & Hother & _).
  split; [exact Hcount|].
  rewrite (proj2 (proj2 (Hother "r2" ltac:(discriminate)))). reflexivity.
Defined.

(** X2.  [DELETE FROM agents WHERE id = ?]: the agent goes, its runs stay with
    their agent reference set to null, and the journal is untouched. *)
Theorem deleteAgent_detaches (id : string) (db : Database) :
  (getAgent id db = None -> deleteAgent id db = (false, db)) /\
  (forall a, getAgent id db = Some a ->
     let db' := snd (deleteAgent id db) in
     fst (deleteAgent id db) = true /\
     getAgent id db' = None /\
     (forall id', id' <> id -> getAgent id' db' = getAgent id' db) /\
     map r_id (runs db') = map r_id (runs db) /\
     (forall r, r ∈ runs db ->
        (if bool_decide (r_agent_id r = Some id) then clear_agent r else r)
          ∈ runs db') /\
     (forall r', r' ∈ runs db' -> r_agent_id r' <> Some id) /\
     trace_events db' = trace_events db /\ projects db' = projects db).
Proof.
  unfold deleteAgent. split.
  - intros Hn. unfold getAgent in Hn. by rewrite (existsb_find_none _ _ Hn).
  - intros a Ha. unfold getAgent in Ha. rewrite (existsb_find_some _ _ _ Ha).
    cbn [fst snd runs trace_events projects agents].
    split; [reflexivity|]. split.
    { unfold getAgent. cbn [agents]. apply find_filter_none.
      intros x Hx. apply bool_decide_eq_true in Hx. auto. }
    split.
    { intros id' Hne. unfold getAgent. cbn [agents]. apply find_filter_keeps.
      intros x Hx. apply bool_decide_eq_true in Hx. congruence. }
    split; [apply StoreFacts.on_delete_agents_ids|].
    assert (forall r, runs_of_removed_agent [id] r
                      = bool_decide (r_agent_id r = Some id)) as Hgone.
    { intros r. unfold runs_of_removed_agent.
      destruct (r_agent_id r) as [x|].
      - apply bool_decide_ext. rewrite list_elem_of_singleton.
        split; congruence.
      - symmetry. by apply bool_decide_eq_false_2. }
    split.
    { intros r Hr. rewrite <- Hgone.
      by apply StoreFacts.on_delete_agents_kept. }
    split; [|auto].
    intros r' Hr' Hown.
    apply StoreFacts.on_delete_agents_elem in Hr'
      as (r & _ & [[_ ->] | [Hkeep ->]]).
    + discriminate Hown.
    + rewrite Hgone in Hkeep. apply bool_decide_eq_false in Hkeep. auto.
Qed.

Lemma deleteAgent_detaches_witness :
  getAgent "a1" StoreFacts.sample_db <> None /\
  r_agent_id <$> getRun "r1" (snd (deleteAgent "a1" StoreFacts.sample_db))
  = Some None /\
  trace_events (snd (deleteAgent "a1" StoreFacts.sample_db))
  = trace_events StoreFacts.sample_db.
Proof.
  split; [discriminate|]. split; [reflexivity|].
  destruct (proj2 (deleteAgent_detaches "a1" StoreFacts.sample_db) _ eq_refl)
    as (_ & _ & _ & _ & _ & _ & Hev & _).
  exact Hev.
Defined.

Lemma find_snoc_fresh {A : Type} (p : A -> bool) (l : list A) (x : A) :
  find p l = None -> find p (l ++ [x]) = if p x then Some x else None.
Proof.
  intros Hn. induction l as [|y l IH]; [reflexivity|].
  cbn in *. destruct (p y); [discriminate|auto].
Qed.

Lemma find_snoc_found {A : Type} (p : A -> bool) (l : list A) (x y : A) :
  find p l = Some y -> find p (l ++ [x]) = Some y.
Proof.
  intros Hs. induction l as [|z l IH]; [discriminate|].
  cbn in *. destruct (p z); auto.
Qed.

(** X3.  [createProject]: with a fresh identifier, the project is stored exactly
    when no project has the name; it can then be read back by identifier
    and by name, an empty description is stored as null, and the projects
    that were there are read as before.  A name that is taken is refused
    by the [UNIQUE] constraint. *)
Theorem createProject_stores (id : string) (now : Z) (name : string)
    (description : option string) (db : Database) :
  getProject id db = None ->
  (forall q, getProjectByName name db = Some q ->
     createProject id now name description db
     = Throw (SqliteError "SQLITE_CONSTRAINT_UNIQUE")) /\
  (getProjectByName name db = None ->
     exists p db',
       createProject id now name description db = Ok (p, db') /\
       p = {| pj_id := id; pj_name := name;
              pj_description := nonempty description;
              pj_created_at := now |} /\
       getProject id db' = Some p /\
       getProjectByName name db' = Some p /\
       (forall id' q, getProject id' db = Some q -> getProject id' db' = Some q) /\
       (forall n q, getProjectByName n db = Some q ->
                    getProjectByName n db' = Some q) /\
       agents db' = agents db /\ runs db' = runs db /\
       trace_events db' = trace_events db).
Proof.
  intros Hid. unfold createProject, getProject, getProjectByName in *.
  rewrite (existsb_find_none _ _ Hid). split.
  - intros q Hq. by rewrite (existsb_find_some _ _ _ Hq).
  - intros Hname. rewrite (existsb_find_none _ _ Hname).
    eexists _, _. split; [reflexivity|]. split; [reflexivity|].
    cbn [projects with_projects agents runs trace_events].
    split.
    { rewrite (find_snoc_fresh _ _ _ Hid). cbn.
      by rewrite bool_decide_eq_true_2. }
    split.
    { rewrite (find_snoc_fresh _ _ _ Hname). cbn.
      by rewrite bool_decide_eq_true_2. }
    split; [intros id' q; apply find_snoc_found|].
    split; [intros n q; apply find_snoc_found|auto].
Qed.

Lemma createProject_stores_witness :
  getProject "p3" StoreFacts.sample_db = None /\
  getProjectByName "third" StoreFacts.sample_db = None /\
  exists p db',
    createProject "p3" 9 "third" (Some "") StoreFacts.sample_db = Ok (p, db') /\
    pj_description p = None /\
    getProjectByName "third" db' = Some p.
Proof.
  split; [reflexivity|]. split; [reflexivity|].
  destruct (proj2 (createProject_stores "p3" 9 "third" (Some "")
                     StoreFacts.sample_db eq_refl) eq_refl)
    as (p & db' & Hc & Hp & _ & Hn & _).
  exists p, db'. split; [exact Hc|]. split; [by rewrite Hp|exact Hn].
Defined.

(** X4.  [createAgent]: with a fresh identifier, the agent is stored exactly
    when its project exists and no agent of that project has the name; the
    foreign key refuses an unknown project, the [UNIQUE(project_id, name)]
    constraint a second agent of the name, while the same name is free in
    another project. *)
Theorem createAgent_stores (id : string) (now : Z)
    (projectId name target : string) (chaosProfile : option string)
    (db : Database) :
  getAgent id db = None ->
  (is_Ok (createAgent id now projectId name target chaosProfile db) = true <->
   getProject projectId db <> None /\ getAgentByName projectId name db = None) /\
  (getProject projectId db = None -> getAgentByName projectId name db = None ->
     createAgent id now projectId name target chaosProfile db
     = Throw (SqliteError "SQLITE_CONSTRAINT_FOREIGNKEY")) /\
  (forall a, getAgentByName projectId name db = Some a ->
     createAgent id now projectId name target chaosProfile db
     = Throw (SqliteError "SQLITE_CONSTRAINT_UNIQUE")) /\
  (forall a db',
     createAgent id now projectId name target chaosProfile db = Ok (a, db') ->
     a = {| ag_id := id; ag_project_id := projectId; ag_name := name;
            ag_target := target; ag_chaos_profile := chaosProfile;
            ag_created_at := now |} /\
     getAgent id db' = Some a /\
     getAgentByName projectId name db' = Some a /\
     (forall id' b, getAgent id' db = Some b -> getAgent id' db' = Some b) /\
     projects db' = projects db /\ runs db' = runs db /\
     trace_events db' = trace_events db).
Proof.
  intros Hid. unfold createAgent, getAgent, getAgentByName, getProject in *.
  rewrite (existsb_find_none _ _ Hid).
  destruct (find (fun a => bool_decide (ag_project_id a = projectId)
                           && bool_decide (ag_name a = name)) (agents db))
    as [b|] eqn:Hname.
  - rewrite (existsb_find_some _ _ _ Hname). cbn [is_Ok].
    split; [split; [discriminate|intros [_ ?]; discriminate]|].
    split; [discriminate|]. split; [reflexivity|discriminate].
  - rewrite (existsb_find_none _ _ Hname).
    destruct (find (fun p => bool_decide (pj_id p = projectId)) (projects db))
      as [p|] eqn:Hp.
    + rewrite (existsb_find_some _ _ _ Hp). cbn [negb is_Ok].
      split; [split; [split; [discriminate|reflexivity]|reflexivity]|].
      split; [discriminate|]. split; [discriminate|].
      intros a db' [= <- <-].
      cbn [agents with_agents projects runs trace_events].
      split; [reflexivity|]. split.
      { rewrite (find_snoc_fresh _ _ _ Hid). cbn.
        by rewrite bool_decide_eq_true_2. }
      split.
      { rewrite (find_snoc_fresh _ _ _ Hname). cbn.
        by rewrite !bool_decide_eq_true_2. }
      split; [intros id' x; apply find_snoc_found|auto].
    + rewrite (existsb_find_none _ _ Hp). cbn [negb is_Ok].
      split; [split; [discriminate|intros [? _]; contradiction]|].
      split; [reflexivity|]. split; discriminate.
Qed.

Lemma createAgent_stores_witness :
  getAgent "a3" StoreFacts.sample_db = None /\
  is_Ok (createAgent "a3" 9 "p2" "sqlite" "node db.js" None StoreFacts.sample_db)
  = true /\
  createAgent "a3" 9 "p2" "filesystem" "node db.js" None StoreFacts.sample_db
  = Throw (SqliteError "SQLITE_CONSTRAINT_UNIQUE") /\
  createAgent "a3" 9 "p9" "filesystem" "node db.js" None StoreFacts.sample_db
  = Throw (SqliteError "SQLITE_CONSTRAINT_FOREIGNKEY").
Proof.
  split; [reflexivity|]. split; [|split].
  - apply (proj1 (createAgent_stores "a3" 9 "p2" "sqlite" "node db.js" None
                    StoreFacts.sample_db eq_refl)).
    split; [discriminate|reflexivity].
  - exact (proj1 (proj2 (proj2 (createAgent_stores "a3" 9 "p2" "filesystem"
                    "node db.js" None StoreFacts.sample_db eq_refl))) _ eq_refl).
  - exact (proj1 (proj2 (createAgent_stores "a3" 9 "p9" "filesystem"
                    "node db.js" None StoreFacts.sample_db eq_refl))
             eq_refl eq_refl).
Defined.

(** *** The journal of events *)

(** The identifiers of the journal were given in increasing order, none
    above the counter of the table. *)
Definition ids_increase (db : Database) : Prop :=
  StronglySorted Z.lt (map ev_id (trace_events db)) /\
  Forall (fun e => ev_id e <= last_event_id db) (trace_events db).

(** The values of the event can be bound to the statement. *)
Definition bindable (event : TraceEvent) : bool :=
  match event with
  | rpc_request _ method _ _ => is_Ok (bind_text method)
  | tool_call tool _ _ _ => is_Ok (bind_text tool)
  | _ => true
  end.

Lemma row_of_event_bindable (id : Z) (runId : string) (event : TraceEvent) :
  is_Ok (row_of_event id runId event) = bindable event.
Proof.
  destruct event; try reflexivity; cbn;
    match goal with |- context [bind_text ?v] => destruct (bind_text v) end;
    reflexivity.
Qed.

Lemma row_of_event_row (id : Z) (runId : string) (event : TraceEvent)
    (row : TraceEventRow) :
  row_of_event id runId event = Ok row ->
  ev_id row = id /\ ev_run_id row = runId /\
  ev_event_type row = event_t event /\ ev_timestamp row = event_ts event.
Proof.
  destruct event; cbn;
    try match goal with |- context [bind_text ?v] => destruct (bind_text v) end;
    intros [= <-]; auto.
Qed.

Lemma StronglySorted_snoc_lt (l : list Z) (x : Z) :
  StronglySorted Z.lt l -> Forall (fun y => y < x) l ->
  StronglySorted Z.lt (l ++ [x]).
Proof.
  intros Hl Hx. apply StronglySorted_app_2; [|exact Hl|repeat constructor].
  intros a b Ha Hb. apply list_elem_of_singleton in Hb as ->.
  rewrite Forall_forall in Hx. auto.
Qed.

Lemma ids_increase_snoc (db db' : Database) (row : TraceEventRow) :
  trace_events db' = trace_events db ++ [row] ->
  ev_id row = last_event_id db + 1 ->
  last_event_id db' = last_event_id db + 1 ->
  ids_increase db -> ids_increase db'.
Proof.
  intros Hev Hid Hlast [Hs Hb]. unfold ids_increase.
  rewrite Hev, Hlast, map_app. cbn [map]. split.
  - apply StronglySorted_snoc_lt; [exact Hs|].
    rewrite Forall_fmap. eapply Forall_impl; [exact Hb|].
    cbn. intros e He. lia.
  - apply Forall_app. split.
    + eapply Forall_impl; [exact Hb|]. cbn. intros e He. lia.
    + repeat constructor. lia.
Qed.

Lemma StronglySorted_sublist_filter {A : Type} (k : A -> Z) (P : A -> Prop)
    `{!forall x, Decision (P x)} (l : list A) :
  StronglySorted Z.lt (map k l) -> StronglySorted Z.lt (map k (filter P l)).
Proof.
  induction l as [|x l IH]; [auto|]. cbn [map]. intros Hs.
  apply StronglySorted_inv in Hs as [Hl Hx].
  destruct (decide (P x)).
  - rewrite filter_cons_True by done. cbn [map]. constructor; [auto|].
    rewrite Forall_fmap in *. rewrite Forall_forall in *.
    intros y Hy. apply list_elem_of_filter in Hy as [_ Hy]. auto.
  - rewrite filter_cons_False by done. auto.
Qed.

Lemma ids_increase_filter (db db' : Database) (P : TraceEventRow -> Prop)
    `{!forall x, Decision (P x)} :
  trace_events db' = filter P (trace_events db) ->
  last_event_id db' = last_event_id db ->
  ids_increase db -> ids_increase db'.
Proof.
  intros Hev Hlast [Hs Hb]. unfold ids_increase. rewrite Hev, Hlast.
  split; [by apply StronglySorted_sublist_filter|].
  rewrite Forall_forall in *. intros e He.
  apply list_elem_of_filter in He as [_ He]. auto.
Qed.

Lemma ids_increase_same (db db' : Database) :
  trace_events db' = trace_events db ->
  last_event_id db' = last_event_id db ->
  ids_increase db -> ids_increase db'.
Proof. unfold ids_increase. by intros -> ->. Qed.



(** *** Reading the journal *)

(** A list whose keys increase strictly is left as it is by a sort on
    the key. *)
Lemma StronglySorted_map_key {A : Type} (k : A -> Z) (l : list A) :
  StronglySorted Z.lt (map k l) <-> StronglySorted (fun x y => k x < k y) l.
Proof.
  induction l as [|x l IH]; [split; constructor|].
  cbn [map]. rewrite !StronglySorted_cons, IH, Forall_fmap. reflexivity.
Qed.

Lemma StronglySorted_le_lt {A : Type} (k : A -> Z) (l : list A) :
  StronglySorted (fun x y => k x <= k y) l -> NoDup (map k l) ->
  StronglySorted (fun x y => k x < k y) l.
Proof.
  induction 1 as [|x l Hl IH Hx]; [constructor|].
  cbn [map]. intros Hnd. apply NoDup_cons in Hnd as [Hnot Hnd].
  constructor; [auto|].
  rewrite Forall_forall in *. intros y Hy.
  assert (k x <> k y).
  { intros Heq. apply Hnot. rewrite Heq. by apply list_elem_of_fmap_2. }
  specialize (Hx y Hy). cbn in Hx. lia.
Qed.

Lemma StronglySorted_lt_NoDup (l : list Z) : StronglySorted Z.lt l -> NoDup l.
Proof.
  induction 1 as [|x l Hl IH Hx]; [constructor|].
  apply NoDup_cons. split; [|exact IH].
  intros Hin. rewrite Forall_forall in Hx. specialize (Hx x Hin). lia.
Qed.

Lemma merge_sort_increasing {A : Type} (R : relation A)
    `{!forall x y, Decision (R x y)} (k : A -> Z) (l : list A) :
  (forall x y, R x y <-> k x <= k y) ->
  StronglySorted Z.lt (map k l) -> merge_sort R l = l.
Proof.
  intros HR Hl.
  assert (Total R) as Htotal.
  { intros x y. rewrite !HR. lia. }
  assert (Transitive R) as Htrans.
  { intros x y z. rewrite !HR. lia. }
  pose proof (merge_sort_Permutation R l) as Hperm.
  pose proof (StronglySorted_merge_sort R l) as Hsorted.
  apply (StronglySorted_unique_strong (fun x y => k x < k y)).
  - intros x y _ _ Hxy Hyx. lia.
  - apply StronglySorted_le_lt.
    + eapply Sorted.StronglySorted_ind
        with (P := StronglySorted (fun x y => k x <= k y));
        [constructor| |exact Hsorted].
      intros a l0 _ IH Ha. constructor; [exact IH|].
      eapply Forall_impl; [exact Ha|]. intros b. apply HR.
    + assert (map k (merge_sort R l) ≡ₚ map k l) as Hk
        by (by apply Permutation_map).
      rewrite Hk. by apply StronglySorted_lt_NoDup.
  - by apply StronglySorted_map_key.
  - exact Hperm.
Qed.

Lemma event_column_id (e : TraceEventRow) :
  event_column "id" e = SqlInt (ev_id e).
Proof. reflexivity. Qed.

Lemma order_by_id_increasing (l : list TraceEventRow) :
  StronglySorted Z.lt (map ev_id l) ->
  order_by event_column "id" false l = l.
Proof.
  intros Hl. unfold order_by. apply (merge_sort_increasing _ ev_id); [|exact Hl].
  intros x y. unfold before. rewrite !event_column_id. cbn [sql_le].
  apply Z.leb_le.
Qed.

Lemma events_of_sql (runId : string) (db : Database) :
  filter (fun e => sql_eq (event_column "run_id" e) (SqlText runId) = true)
    (trace_events db)
  = events_of runId db.
Proof.
  apply list_filter_iff. intros e.
  change (event_column "run_id" e) with (SqlText (ev_run_id e)).
  cbn [sql_eq]. apply bool_decide_eq_true.
Qed.

Lemma getRunEvents_unpaged (runId : string) (limit offset : option Z)
    (db : Database) :
  nonzero limit = None -> nonzero offset = None ->
  getRunEvents runId limit offset db
  = Ok (order_by event_column "id" false (events_of runId db)).
Proof.
  intros Hl Ho. unfold getRunEvents, getRunEvents_sql. rewrite Hl, Ho.
  rewrite <- events_of_sql. reflexivity.
Qed.

Lemma getRunEvents_limited (runId : string) (limit offset : option Z) (l : Z)
    (db : Database) :
  nonzero limit = Some l -> nonzero offset = None ->
  getRunEvents runId limit offset db
  = Ok (Sql.limit l (order_by event_column "id" false (events_of runId db))).
Proof.
  intros Hl Ho. unfold getRunEvents, getRunEvents_sql. rewrite Hl, Ho.
  rewrite <- events_of_sql. reflexivity.
Qed.


Lemma ids_increase_three_events : ids_increase PagingFacts.three_events.
Proof.
  split; cbn; repeat constructor; cbn; lia.
Qed.


Lemma ids_increase_empty : ids_increase empty_db.
Proof. split; constructor. Qed.



(** *** Runs *)

Lemma elem_update_where {A : Type} (c : A -> bool) (f : A -> A) (l : list A)
    (y : A) :
  y ∈ update_where c f l <-> exists x, x ∈ l /\ y = if c x then f x else x.
Proof.
  unfold update_where. rewrite list_elem_of_fmap. split.
  - intros (x & -> & Hx). eauto.
  - intros (x & Hx & ->). eauto.
Qed.

Lemma update_where_twice {A : Type} (c : A -> bool) (f g : A -> A)
    (l : list A) :
  (forall x, c (f x) = c x) ->
  update_where c g (update_where c f l)
  = update_where c (fun x => g (f x)) l.
Proof.
  intros Hc. unfold update_where. rewrite map_map. apply map_ext.
  intros x. destruct (c x) eqn:Hx; [rewrite Hc|]; by rewrite Hx.
Qed.

Lemma map_r_id_update_where (c : Run -> bool) (f : Run -> Run) (l : list Run) :
  (forall r, r_id (f r) = r_id r) ->
  map r_id (update_where c f l) = map r_id l.
Proof.
  intros Hf. unfold update_where. rewrite map_map. apply map_ext.
  intros r. destruct (c r); auto.
Qed.

(** What the two [UPDATE]s of [cleanupStaleRuns] make of a stale run. *)
Definition closed (now : Z) (db : Database) (r : Run) : Run :=
  set_ended_at now
    (set_status completed
       (set_total_calls (count_events (r_id r) "tool_call" db) r)).

Lemma cleanupStaleRuns_runs (a : string) (runType : option RunType) (now : Z)
    (db : Database) :
  a <> "" ->
  cleanupStaleRuns (Some a) runType now db
  = (Z.of_nat (length (filter (fun r => is_stale a (default proxy runType) r
                                        = true) (runs db))),
     with_runs db
       (update_where (is_stale a (default proxy runType)) (closed now db)
          (runs db))).
Proof.
  intros Ha. unfold cleanupStaleRuns. cbn [nonempty].
  rewrite bool_decide_eq_false_2 by exact Ha.
  assert (default proxy runType
          = match runType with Some t => t | None => proxy end) as ->
    by (by destruct runType).
  f_equal.
  - f_equal. unfold update_where.
    induction (runs db) as [|r l IH]; [reflexivity|].
    cbn [map]. destruct (is_stale a _ r) eqn:Hr.
    + rewrite !filter_cons_True by (by rewrite ?Hr). cbn. by rewrite IH.
    + rewrite !filter_cons_False by (by rewrite ?Hr). exact IH.
  - f_equal.
    apply (update_where_twice _
             (fun r => set_total_calls (count_events (r_id r) "tool_call" db) r)
             (fun r => set_ended_at now (set_status completed r))).
    reflexivity.
Qed.

(** X8.  [cleanupStaleRuns(agentId, runType)]: without an agent nothing is
    done.  With one, the runs of the agent and of the type that are
    [running] are closed --- [completed], ended now, their [total_calls]
    counted from the [tool_call] events of the journal --- and counted in
    the result; no run of the agent and the type is [running] afterwards,
    and every other run is as it was. *)
Theorem cleanupStaleRuns_closes (agentId : option string)
    (runType : option RunType) (now : Z) (db : Database) :
  (nonempty agentId = None ->
     cleanupStaleRuns agentId runType now db = (0, db)) /\
  (forall a, nonempty agentId = Some a ->
     let t := default proxy runType in
     let db' := snd (cleanupStaleRuns agentId runType now db) in
     fst (cleanupStaleRuns agentId runType now db)
     = Z.of_nat (length (filter (fun r => is_stale a t r = true) (runs db))) /\
     map r_id (runs db') = map r_id (runs db) /\
     (forall r', r' ∈ runs db' -> is_stale a t r' = false) /\
     (forall r, r ∈ runs db -> is_stale a t r = false -> r ∈ runs db') /\
     (forall r, r ∈ runs db -> is_stale a t r = true ->
        closed now db r ∈ runs db' /\
        r_status (closed now db r) = completed /\
        r_ended_at (closed now db r) = Some now /\
        r_total_calls (closed now db r)
        = count_events (r_id r) "tool_call" db) /\
     trace_events db' = trace_events db /\ agents db' = agents db /\
     projects db' = projects db).
Proof.
  split.
  - intros Hn. unfold cleanupStaleRuns. by rewrite Hn.
  - intros a Ha. cbv zeta.
    assert (agentId = Some a /\ a <> "") as [-> Hne].
    { destruct agentId as [x|]; [|discriminate]. cbn in Ha.
      case_bool_decide; [discriminate|]. injection Ha as <-. auto. }
    rewrite (cleanupStaleRuns_runs a runType now db Hne). cbn [fst snd].
    cbn [runs with_runs trace_events agents projects].
    split; [reflexivity|].
    split; [by apply map_r_id_update_where|].
    split.
    { intros r' Hr'. apply elem_update_where in Hr' as (r & _ & ->).
      destruct (is_stale a _ r) eqn:Hr; [|exact Hr].
      unfold is_stale, closed. cbn.
      rewrite (bool_decide_eq_false_2 (completed = running)) by discriminate.
      by rewrite andb_false_r. }
    split.
    { intros r Hr Hs. apply elem_update_where. exists r. by rewrite Hs. }
    split; [|auto].
    intros r Hr Hs. split; [|auto].
    apply elem_update_where. exists r. by rewrite Hs.
Qed.

Lemma cleanupStaleRuns_closes_witness :
  nonempty (Some "a2") = Some "a2" /\
  fst (cleanupStaleRuns (Some "a2") None 50 StoreFacts.sample_db) = 1 /\
  r_status <$> getRun "r2" (snd (cleanupStaleRuns (Some "a2") None 50
                                   StoreFacts.sample_db))
  = Some completed.
Proof.
  split; [reflexivity|]. split; [|reflexivity].
  rewrite (proj1 (proj2 (cleanupStaleRuns_closes (Some "a2") None 50
                           StoreFacts.sample_db) "a2" eq_refl)).
  reflexivity.
Defined.

Lemma getRun_with_runs_update (id : string) (c : Run -> bool) (f : Run -> Run)
    (db : Database) :
  (forall r, r_id (f r) = r_id r) ->
  getRun id db = None -> getRun id (with_runs db (update_where c f (runs db))) = None.
Proof.
  intros Hf Hn. unfold getRun in *. cbn [runs with_runs].
  rewrite StoreFacts.find_update_where; [by rewrite Hn|].
  intros x. unfold has_id. by rewrite Hf.
Qed.

Lemma cleanupStaleRuns_getRun_None (id : string) (agentId : option string)
    (runType : option RunType) (now : Z) (db : Database) :
  getRun id db = None ->
  getRun id (snd (cleanupStaleRuns agentId runType now db)) = None.
Proof.
  intros Hn. destruct (nonempty agentId) as [a|] eqn:Ha.
  - assert (agentId = Some a /\ a <> "") as [-> Hne].
    { destruct agentId as [x|]; [|discriminate]. cbn in Ha.
      case_bool_decide; [discriminate|]. injection Ha as <-. auto. }
    rewrite (cleanupStaleRuns_runs a runType now db Hne). cbn [snd].
    by apply getRun_with_runs_update.
  - by rewrite (proj1 (cleanupStaleRuns_closes agentId runType now db) Ha).
Qed.

Lemma cleanupStaleRuns_agents (agentId : option string)
    (runType : option RunType) (now : Z) (db : Database) :
  agents (snd (cleanupStaleRuns agentId runType now db)) = agents db.
Proof.
  unfold cleanupStaleRuns. by destruct (nonempty agentId).
Qed.

(** X9.  [createRun]: the stale runs of the agent are closed first, and this
    stays done when the insertion is refused.  With a fresh identifier the
    run is stored when no agent is given or the agent exists: it is
    [pending], its counters are 0, it can be read back, and no run of the
    agent and the type is [running].  An agent that does not exist is
    refused by the foreign key, and no run is added. *)
Theorem createRun_pending (id : string) (now : Z) (target : string)
    (chaosProfile : option string) (agentId : option string)
    (runType : RunType) (db : Database) :
  getRun id db = None ->
  let db1 := snd (cleanupStaleRuns agentId (Some runType) now db) in
  let db' := snd (createRun id now target chaosProfile agentId runType db) in
  (forall a, nonempty agentId = Some a -> getAgent a db = None ->
     createRun id now target chaosProfile agentId runType db
     = (Throw (SqliteError "SQLITE_CONSTRAINT_FOREIGNKEY"), db1)) /\
  ((forall a, nonempty agentId = Some a -> getAgent a db <> None) ->
     let r := {| r_id := id; r_agent_id := nonempty agentId; r_name := None;
                 r_target := target; r_run_type := runType;
                 r_chaos_profile := chaosProfile; r_status := pending;
                 r_started_at := None; r_ended_at := None;
                 r_total_calls := 0; r_total_errors := 0;
                 r_stress_passed := 0; r_stress_graceful := 0;
                 r_stress_crashed := 0; r_stress_score := 0;
                 r_created_at := now |} in
     createRun id now target chaosProfile agentId runType db
     = (Ok r, with_runs db1 (runs db1 ++ [r])) /\
     getRun id db' = Some r /\
     (forall a r', nonempty agentId = Some a -> r' ∈ runs db' ->
        is_stale a runType r' = false)).
Proof.
  intros Hid. cbv zeta. unfold createRun.
  pose proof (cleanupStaleRuns_getRun_None id agentId (Some runType) now db Hid)
    as Hid1.
  pose proof (cleanupStaleRuns_agents agentId (Some runType) now db) as Hag.
  pose proof (cleanupStaleRuns_closes agentId (Some runType) now db)
    as [_ Hclean].
  destruct (cleanupStaleRuns agentId (Some runType) now db) as [n db1].
  cbn [snd] in *. unfold getRun in Hid1.
  rewrite (existsb_find_none _ _ Hid1). split.
  - intros a Ha Hnone. rewrite Ha. unfold getAgent in Hnone.
    rewrite Hag, (existsb_find_none _ _ Hnone). reflexivity.
  - intros Hagent.
    assert (match nonempty agentId with
            | Some a => negb (existsb (fun x => bool_decide (ag_id x = a))
                                (agents db1))
            | None => false
            end = false) as ->.
    { destruct (nonempty agentId) as [a|] eqn:Ha; [|reflexivity].
      specialize (Hagent a eq_refl). unfold getAgent in Hagent.
      apply existsb_find in Hagent. by rewrite Hag, Hagent. }
    cbn [snd]. split; [reflexivity|]. split.
    { unfold getRun. cbn [runs with_runs].
      rewrite (find_snoc_fresh _ _ _ Hid1). unfold has_id. cbn [r_id].
      by rewrite bool_decide_eq_true_2. }
    intros a r' Ha. cbn [runs with_runs].
    rewrite elem_of_app, list_elem_of_singleton. intros [Hr' | ->].
    + destruct (Hclean a Ha) as (_ & _ & Hnone & _). by apply Hnone.
    + unfold is_stale. cbn [r_status].
      rewrite (bool_decide_eq_false_2 (pending = running)) by discriminate.
      by rewrite andb_false_r.
Qed.

Lemma createRun_pending_witness :
  getRun "r3" StoreFacts.sample_db = None /\
  (exists r, fst (createRun "r3" 50 "node server.js" None (Some "a2") proxy
                    StoreFacts.sample_db) = Ok r /\ r_status r = pending) /\
  r_status <$> getRun "r2" (snd (createRun "r3" 50 "node server.js" None
                                   (Some "a2") proxy StoreFacts.sample_db))
  = Some completed /\
  fst (createRun "r3" 50 "node server.js" None (Some "nobody") proxy
         StoreFacts.sample_db)
  = Throw (SqliteError "SQLITE_CONSTRAINT_FOREIGNKEY").
Proof.
  split; [reflexivity|]. split; [|split; [reflexivity|]].
  - destruct (proj2 (createRun_pending "r3" 50 "node server.js" None (Some "a2")
                       proxy StoreFacts.sample_db eq_refl)) as (Hc & _).
    + intros a [= <-]. discriminate.
    + rewrite Hc. eexists. split; reflexivity.
  - rewrite (proj1 (createRun_pending "r3" 50 "node server.js" None
                      (Some "nobody") proxy StoreFacts.sample_db eq_refl)
               "nobody" eq_refl eq_refl).
    reflexivity.
Defined.

(** *** Listing runs *)

(** One optional filter of [listRuns]. *)
Definition keep {A : Type} (x : option A) (test : A -> Run -> bool)
    (rows : list Run) : list Run :=
  match x with
  | Some a => filter (fun r => test a r = true) rows
  | None => rows
  end.

Definition passes {A : Type} (x : option A) (test : A -> Run -> bool) (r : Run)
  : bool :=
  match x with
  | Some a => test a r
  | None => true
  end.

Definition by_agent (a : string) (r : Run) : bool :=
  bool_decide (r_agent_id r = Some a).
Definition by_status (s : string) (r : Run) : bool :=
  bool_decide (status_text (r_status r) = s).
Definition by_type (t : RunType) (r : Run) : bool :=
  bool_decide (r_run_type r = t).
(** [target LIKE '%t%']. *)
Definition by_target (t : string) (r : Run) : bool :=
  like (list_ascii_of_string ("%" ++ t ++ "%"))
       (list_ascii_of_string (r_target r)).

(** The run passes every filter that is given (and not empty). *)
Definition matches (f : RunFilters) (r : Run) : bool :=
  passes (nonempty (f_agentId f)) by_agent r
  && passes (nonempty (f_status f)) by_status r
  && passes (f_runType f) by_type r
  && passes (nonempty (f_target f)) by_target r.

Lemma keep_passes {A : Type} (x : option A) (test : A -> Run -> bool)
    (rows : list Run) :
  keep x test rows = filter (fun r => passes x test r = true) rows.
Proof.
  destruct x as [a|]; [reflexivity|]. cbn.
  induction rows as [|r l IH]; [reflexivity|].
  rewrite filter_cons_True by reflexivity. by rewrite <- IH.
Qed.

Lemma sql_eq_text (x y : string) :
  sql_eq (SqlText x) (SqlText y) = bool_decide (x = y).
Proof. reflexivity. Qed.

Lemma filter_agent_id (a : string) (rows : list Run) :
  filter (fun r => sql_eq (run_column "agent_id" r) (SqlText a) = true) rows
  = filter (fun r => by_agent a r = true) rows.
Proof.
  apply list_filter_iff. intros r. unfold by_agent.
  change (run_column "agent_id" r)
    with (match r_agent_id r with Some a => SqlText a | None => SqlNull end).
  destruct (r_agent_id r) as [x|]; cbn [sql_eq].
  - rewrite !bool_decide_eq_true. split; congruence.
  - rewrite bool_decide_eq_true. split; discriminate.
Qed.

Lemma filter_run_type (t : RunType) (rows : list Run) :
  filter (fun r => sql_eq (run_column "run_type" r) (SqlText (run_type_text t))
                   = true) rows
  = filter (fun r => by_type t r = true) rows.
Proof.
  apply list_filter_iff. intros r. unfold by_type.
  change (run_column "run_type" r) with (SqlText (run_type_text (r_run_type r))).
  cbn [sql_eq]. rewrite !bool_decide_eq_true.
  destruct (r_run_type r), t; cbn; split; congruence.
Qed.

(** The rows [listRuns] sorts: the filters are applied one after the
    other, in the order of the clauses. *)
Definition filtered (f : RunFilters) (rows : list Run) : list Run :=
  keep (nonempty (f_target f)) by_target
    (keep (f_runType f) by_type
       (keep (nonempty (f_status f)) by_status
          (keep (nonempty (f_agentId f)) by_agent rows))).

Lemma filtered_matches (f : RunFilters) (rows : list Run) :
  filtered f rows = filter (fun r => matches f r = true) rows.
Proof.
  unfold filtered. rewrite !keep_passes, !list_filter_filter.
  apply list_filter_iff. intros r. unfold matches.
  rewrite !andb_true_iff. tauto.
Qed.

Lemma listRuns_sorted_filtered (f : RunFilters) (db : Database) :
  nonzero (f_offset f) = None ->
  listRuns f db
  = Ok (match nonzero (f_limit f) with
        | Some l => Sql.limit l
        | None => fun rows => rows
        end (order_by run_column "created_at" true (filtered f (runs db)))).
Proof.
  intros Ho. unfold listRuns, listRuns_sql, filtered. rewrite Ho.
  destruct f as [status target agent type lim off].
  cbn [f_status f_target f_agentId f_runType f_limit f_offset].
  destruct (nonzero lim), (nonempty agent), (nonempty status), type as [t|],
    (nonempty target); cbn [keep clause fst snd app];
    rewrite <- ?filter_agent_id, <- ?filter_run_type; reflexivity.
Qed.

Lemma StronglySorted_impl {A : Type} (R R' : relation A) (l : list A) :
  (forall x y, R x y -> R' x y) -> StronglySorted R l -> StronglySorted R' l.
Proof.
  intros HR. induction 1 as [|a l _ IH Ha]; constructor; [exact IH|].
  eapply Forall_impl; [exact Ha|]. intros b. apply HR.
Qed.

(** Sorting on [created_at], newest first. *)
Definition newest_first (x y : Run) : Prop := r_created_at y <= r_created_at x.

Lemma order_by_created_at (rows : list Run) :
  order_by run_column "created_at" true rows ≡ₚ rows /\
  StronglySorted newest_first (order_by run_column "created_at" true rows).
Proof.
  unfold order_by. split; [apply merge_sort_Permutation|].
  assert (forall x y, before run_column "created_at" true x y
                      <-> newest_first x y) as HR.
  { intros x y. unfold before, newest_first.
    change (run_column "created_at" x) with (SqlInt (r_created_at x)).
    change (run_column "created_at" y) with (SqlInt (r_created_at y)).
    cbn [sql_le]. apply Z.leb_le. }
  assert (Total (before run_column "created_at" true)) as Htotal.
  { intros x y. rewrite !HR. unfold newest_first. lia. }
  assert (Transitive (before run_column "created_at" true)) as Htrans.
  { intros x y z. rewrite !HR. unfold newest_first. lia. }
  pose proof (@StronglySorted_merge_sort _ _
                (before_dec run_column "created_at" true) Htrans Htotal rows)
    as Hs.
  revert Hs. apply StronglySorted_impl. intros x y. apply HR.
Qed.

(** [LIKE '%t%'] for a text [t] without [%] and [_]: [t] occurs in the
    value, the case of the letters of ASCII set aside. *)
Definition no_wildcard (t : list ascii) : Prop :=
  Forall (fun c => c <> "%"%char /\ c <> "_"%char) t.

Lemma like_any (p s : list ascii) :
  like ("%"%char :: p) s = true <->
  exists pre post, s = pre ++ post /\ like p post = true.
Proof.
  cbn [like]. rewrite bool_decide_eq_true_2 by reflexivity.
  induction s as [|x s IH].
  - rewrite orb_false_r. split.
    + intros Hl. exists [], []. auto.
    + intros (pre & post & Hs & Hl). symmetry in Hs.
      apply app_eq_nil in Hs as [-> ->]. exact Hl.
  - rewrite orb_true_iff, IH. split.
    + intros [Hl | (pre & post & -> & Hl)].
      * exists [], (x :: s). auto.
      * exists (x :: pre), post. auto.
    + intros (pre & post & Hs & Hl). destruct pre as [|y pre].
      * left. cbn in Hs. by subst post.
      * right. injection Hs as -> ->. eauto.
Qed.

Lemma like_literal (t p s : list ascii) :
  no_wildcard t ->
  like (t ++ p) s = true <->
  exists mid post, s = mid ++ post /\ map lower mid = map lower t /\
                   like p post = true.
Proof.
  intros Ht. revert s. induction Ht as [|c t [Hc1 Hc2] Ht IH]; intros s.
  - cbn [app]. split.
    + intros Hl. exists [], s. auto.
    + intros (mid & post & -> & Hm & Hl).
      destruct mid; [exact Hl|discriminate].
  - cbn [app like]. rewrite !bool_decide_eq_false_2 by assumption.
    destruct s as [|x s].
    + split; [discriminate|].
      intros (mid & post & Hs & Hm & _). destruct mid; discriminate.
    + rewrite andb_true_iff, bool_decide_eq_true, IH. split.
      * intros (Hx & mid & post & -> & Hm & Hl).
        exists (x :: mid), post. cbn [map]. rewrite Hm, Hx. auto.
      * intros (mid & post & Hs & Hm & Hl).
        destruct mid as [|y mid]; [discriminate|].
        injection Hs as -> ->. injection Hm as Hy Hm. eauto 10.
Qed.

Lemma like_contains (t s : list ascii) :
  no_wildcard t ->
  like ("%"%char :: t ++ ["%"%char]) s = true <->
  exists pre mid post, s = pre ++ mid ++ post /\ map lower mid = map lower t.
Proof.
  intros Ht. rewrite like_any. split.
  - intros (pre & rest & -> & Hl).
    apply (like_literal t ["%"%char] rest Ht) in Hl
      as (mid & post & -> & Hm & _). eauto.
  - intros (pre & mid & post & -> & Hm). exists pre, (mid ++ post).
    split; [reflexivity|]. apply (like_literal t ["%"%char] _ Ht).
    exists mid, post. split; [reflexivity|]. split; [exact Hm|].
    apply like_any. exists post, []. split; [by rewrite app_nil_r|reflexivity].
Qed.

Lemma list_ascii_of_string_app (a b : string) :
  list_ascii_of_string (a ++ b)
  = list_ascii_of_string a ++ list_ascii_of_string b.
Proof.
  induction a as [|c a IH]; [reflexivity|].
  change (list_ascii_of_string (String c a ++ b))
    with (c :: list_ascii_of_string (a ++ b)).
  by rewrite IH.
Qed.



(** X11.  [getLatestStressRun(agentId)]: a stress run of the agent than which
    none was created later; nothing exactly when the agent has no stress
    run. *)
Theorem getLatestStressRun_latest (agentId : string) (db : Database) :
  (getLatestStressRun agentId db = None <->
   forall r, r ∈ runs db -> r_agent_id r = Some agentId ->
             r_run_type r <> stress) /\
  (forall r, getLatestStressRun agentId db = Some r ->
     r ∈ runs db /\ r_agent_id r = Some agentId /\ r_run_type r = stress /\
     forall r', r' ∈ runs db -> r_agent_id r' = Some agentId ->
                r_run_type r' = stress -> r_created_at r' <= r_created_at r).
Proof.
  unfold getLatestStressRun.
  rewrite filter_agent_id, (filter_run_type stress).
  set (mine := filter (fun r => by_type stress r = true)
                 (filter (fun r => by_agent agentId r = true) (runs db))).
  assert (forall r, r ∈ mine <->
            r ∈ runs db /\ r_agent_id r = Some agentId /\ r_run_type r = stress)
    as Hmine.
  { intros r. unfold mine. rewrite !list_elem_of_filter.
    unfold by_type, by_agent. rewrite !bool_decide_eq_true. tauto. }
  destruct (order_by_created_at mine) as [Hperm Hsorted].
  destruct (order_by run_column "created_at" true mine) as [|x l] eqn:Hl.
  - cbn. split; [|discriminate]. split; [|reflexivity].
    intros _ r Hr Ha Ht. apply Permutation_nil in Hperm.
    assert (r ∈ mine) as Hin by (apply Hmine; auto).
    rewrite Hperm in Hin. by apply elem_of_nil in Hin.
  - cbn. split.
    + split; [discriminate|]. intros Hnone. exfalso.
      assert (x ∈ mine) as Hx by (rewrite <- Hperm; left).
      apply Hmine in Hx as (Hx & Ha & Ht). exact (Hnone x Hx Ha Ht).
    + intros r [= <-].
      assert (x ∈ mine) as Hx by (rewrite <- Hperm; left).
      apply Hmine in Hx as (Hx & Ha & Ht).
      split; [exact Hx|]. split; [exact Ha|]. split; [exact Ht|].
      intros r' Hr' Ha' Ht'.
      assert (r' ∈ x :: l) as Hin by (rewrite Hperm; apply Hmine; auto).
      apply StronglySorted_inv in Hsorted as [_ Hall].
      apply elem_of_cons in Hin as [-> | Hin]; [lia|].
      rewrite Forall_forall in Hall. exact (Hall r' Hin).
Qed.

Lemma getLatestStressRun_latest_witness :
  getLatestStressRun "a1" StoreFacts.sample_db = None.
Proof.
  apply (proj1 (getLatestStressRun_latest "a1" StoreFacts.sample_db)).
  intros r Hr Ha. vm_compute in Hr.
  apply elem_of_cons in Hr as [-> | Hr]; [discriminate|].
  apply elem_of_cons in Hr as [-> | Hr]; [discriminate|].
  by apply elem_of_nil in Hr.
Defined.
End JournalFacts.

(* ================================================================== *)
(** * Further properties of the chaos engine *)
(* ================================================================== *)

Module InjectorFacts.
Import Json Chaos.
Local Open Scope list_scope.

Lemma next_word_range (t : Z) : 0 <= next_word t < 2 ^ 32.
Proof.
  unfold next_word, ushr, ToUint32. rewrite Z.shiftr_0_r.
  apply Z.mod_pos_bound. lia.
Qed.

(** X12.  [SeededRandom.next()] returns a number that is at least 0 and less
    than 1, whatever the state, and moves the state on by [0x6d2b79f5];
    [nextInt(min, max)] draws one number and, for [min <= max], returns an
    integer from [min] to [max], both included. *)
Theorem next_in_unit_interval (rng : SeededRandom) :
  (0 <= fst (next rng))%Q /\ (fst (next rng) < 1)%Q /\
  state (snd (next rng)) = state rng + 1831565813 /\
  (forall lo hi, lo <= hi ->
     lo <= fst (nextInt lo hi rng) <= hi /\
     snd (nextInt lo hi rng) = snd (next rng)).
Proof.
  pose proof (next_word_range (state rng + 1831565813)) as Hw.
  assert (0 <= fst (next rng))%Q as H0.
  { unfold next, Qle. cbn. lia. }
  assert (fst (next rng) < 1)%Q as H1.
  { unfold next, Qlt. cbn. change (Z.pos (2 ^ 32)) with (2 ^ 32). lia. }
  split; [exact H0|]. split; [exact H1|]. split; [reflexivity|].
  intros lo hi Hle. unfold nextInt.
  destruct (next rng) as [r rng'] eqn:Hn. cbn [fst snd] in *.
  split; [|reflexivity].
  set (n := hi - lo + 1).
  assert (0 <= r * inject_Z n)%Q as Hpos.
  { apply Qmult_le_0_compat; [exact H0|].
    change 0%Q with (inject_Z 0). rewrite <- Zle_Qle. lia. }
  assert (r * inject_Z n < inject_Z n)%Q as Hlt.
  { rewrite <- (Qmult_1_l (inject_Z n)) at 2.
    apply Qmult_lt_compat_r; [|exact H1].
    change 0%Q with (inject_Z 0). rewrite <- Zlt_Qlt. lia. }
  assert (0 <= Qfloor (r * inject_Z n)) as Hf0.
  { rewrite <- (Qfloor_Z 0). by apply Qfloor_resp_le. }
  assert (Qfloor (r * inject_Z n) < n) as Hf1.
  { rewrite Zlt_Qlt. eapply Qle_lt_trans; [apply Qfloor_le|exact Hlt]. }
  lia.
Qed.

Lemma next_in_unit_interval_witness :
  1 <= fst (nextInt 1 6 {| state := 1 |}) <= 6.
Proof.
  exact (proj1 (proj2 (proj2 (proj2 (next_in_unit_interval {| state := 1 |})))
                  1 6 ltac:(lia))).
Defined.

Lemma Qgtb_false (a b : Q) : (a <= b)%Q -> Qgtb a b = false.
Proof.
  intros Hle. unfold Qgtb. apply negb_false_iff. by apply Qle_bool_iff.
Qed.

Lemma Qgtb_true (a b : Q) : (b < a)%Q -> Qgtb a b = true.
Proof.
  intros Hlt. unfold Qgtb. apply negb_true_iff.
  destruct (Qle_bool a b) eqn:Hb; [|reflexivity].
  apply Qle_bool_iff in Hb. exfalso. exact (Qlt_not_le _ _ Hlt Hb).
Qed.

(** X13.  [resolveValue]: nothing for an absent value and the number itself for
    a number, without a draw.  A probabilistic value costs one draw; with
    [p >= 1] the event always occurs and with [p < 0] it never does; when
    it occurs the result is [value] if there is one, else an integer from
    [min] to [max] (a second draw), and nothing if one of the bounds is
    missing. *)
Theorem resolveValue_cases (rng : SeededRandom) :
  resolveValue None rng = (None, rng) /\
  (forall n, resolveValue (Some (Fixed n)) rng = (Some n, rng)) /\
  (forall v,
     (pv_p v < 0)%Q ->
     resolveValue (Some (Probabilistic v)) rng = (None, snd (next rng))) /\
  (forall v x,
     (1 <= pv_p v)%Q -> pv_value v = Some x ->
     resolveValue (Some (Probabilistic v)) rng = (Some x, snd (next rng))) /\
  (forall v lo hi,
     (1 <= pv_p v)%Q -> pv_value v = None ->
     pv_min v = Some lo -> pv_max v = Some hi -> lo <= hi ->
     exists n, resolveValue (Some (Probabilistic v)) rng
               = (Some n, snd (next (snd (next rng)))) /\ lo <= n <= hi) /\
  (forall v lo hi n,
     pv_value v = None -> pv_min v = Some lo -> pv_max v = Some hi ->
     lo <= hi ->
     fst (resolveValue (Some (Probabilistic v)) rng) = Some n ->
     lo <= n <= hi) /\
  (forall v,
     pv_value v = None -> pv_min v = None \/ pv_max v = None ->
     resolveValue (Some (Probabilistic v)) rng = (None, snd (next rng))).
Proof.
  pose proof (next_in_unit_interval rng) as (H0 & H1 & _ & _).
  split; [reflexivity|]. split; [reflexivity|].
  cbn [resolveValue]. destruct (next rng) as [prob rng1] eqn:Hn.
  cbn [fst snd] in *.
  split.
  { intros v Hp. rewrite Qgtb_true; [reflexivity|].
    eapply Qlt_le_trans; [exact Hp|exact H0]. }
  split.
  { intros v x Hp Hv. rewrite Qgtb_false, Hv; [reflexivity|].
    apply Qlt_le_weak. eapply Qlt_le_trans; [exact H1|exact Hp]. }
  split.
  { intros v lo hi Hp Hv Hlo Hhi Hle.
    rewrite Qgtb_false, Hv, Hlo, Hhi
      by (apply Qlt_le_weak; eapply Qlt_le_trans; [exact H1|exact Hp]).
    pose proof (next_in_unit_interval rng1) as (_ & _ & _ & Hint).
    destruct (Hint lo hi Hle) as [Hrange Hstate].
    destruct (nextInt lo hi rng1) as [n rng2]. cbn [fst snd] in *.
    exists n. by rewrite Hstate. }
  split.
  { intros v lo hi n Hv Hlo Hhi Hle.
    destruct (Qgtb prob (pv_p v)); [discriminate|].
    rewrite Hv, Hlo, Hhi.
    pose proof (next_in_unit_interval rng1) as (_ & _ & _ & Hint).
    destruct (Hint lo hi Hle) as [Hrange _].
    destruct (nextInt lo hi rng1) as [m rng2]. cbn [fst] in *.
    intros [= <-]. exact Hrange. }
  intros v Hv Hb. destruct (Qgtb prob (pv_p v)); [reflexivity|].
  rewrite Hv. destruct Hb as [-> | ->]; [reflexivity|].
  by destruct (pv_min v).
Qed.

Lemma resolveValue_cases_witness :
  resolveValue
    (Some (Probabilistic {| pv_p := 1; pv_value := Some 500;
                            pv_min := None; pv_max := None |}))
    {| state := 1 |}
  = (Some 500, snd (next {| state := 1 |})).
Proof.
  apply (proj1 (proj2 (proj2 (proj2 (resolveValue_cases {| state := 1 |}))))).
  - apply Qle_refl.
  - reflexivity.
Defined.

Lemma with_rng_same (inj : ChaosInjector) : with_rng inj (inj_rng inj) = inj.
Proof. by destruct inj. Qed.

(** The rule of a tool: the fields of the entry of the tool in [tools],
    and for the fields it leaves out those of [global]; the rule [global]
    for a tool without an entry, and for a call without a tool name or
    with an empty one. *)
Definition field_of {A : Type} (f : ChaosRule -> option A)
    (config : ChaosConfig) (name : string) : option A :=
  match tool_rule config name with
  | Some t => match f t with
              | Some x => Some x
              | None => f (global_rule config)
              end
  | None => f (global_rule config)
  end.

Lemma getRuleForTool_fields (inj : ChaosInjector) (name : string) :
  name <> "" ->
  let rule := getRuleForTool inj (Some (JStr name)) in
  delayMs rule = field_of delayMs (inj_config inj) name /\
  timeoutMs rule = field_of timeoutMs (inj_config inj) name /\
  failRate rule = field_of failRate (inj_config inj) name /\
  errorCode rule = field_of errorCode (inj_config inj) name /\
  errorMessage rule = field_of errorMessage (inj_config inj) name /\
  corruptResponse rule = field_of corruptResponse (inj_config inj) name.
Proof.
  intros Hne. cbv zeta. unfold getRuleForTool, field_of. cbn [truthy js_String].
  rewrite bool_decide_eq_false_2 by exact Hne. cbn [negb].
  destruct (tool_rule (inj_config inj) name) as [t|]; [|auto 10].
  unfold spread, or_else. cbn.
  destruct (delayMs t), (timeoutMs t), (failRate t), (errorCode t),
    (errorMessage t), (corruptResponse t); auto 10.
Qed.

(** X14.  [getDelay] and [getTimeout] for a named tool resolve the value that
    the entry of the tool gives, and the value of [global] when the entry
    gives none; a call without a tool name resolves the value of [global].
    A plain number is returned as it is and leaves the generator alone;
    without any value the delay is 0. *)
Theorem getDelay_of_tool (inj : ChaosInjector) (name : string) :
  name <> "" ->
  let config := inj_config inj in
  let resolved value := resolveValue value (inj_rng inj) in
  getDelay (Some (JStr name)) inj
  = (default 0 (fst (resolved (field_of delayMs config name))),
     with_rng inj (snd (resolved (field_of delayMs config name)))) /\
  getTimeout (Some (JStr name)) inj
  = (fst (resolved (field_of timeoutMs config name)),
     with_rng inj (snd (resolved (field_of timeoutMs config name)))) /\
  getDelay None inj
  = (default 0 (fst (resolved (delayMs (global_rule config)))),
     with_rng inj (snd (resolved (delayMs (global_rule config))))) /\
  (forall n, field_of delayMs config name = Some (Fixed n) ->
     getDelay (Some (JStr name)) inj = (n, inj)) /\
  (field_of delayMs config name = None ->
     getDelay (Some (JStr name)) inj = (0, inj)).
Proof.
  intros Hne. cbv zeta.
  destruct (getRuleForTool_fields inj name Hne) as (Hd & Ht & _).
  unfold getDelay, getTimeout. rewrite Hd, Ht. cbn [getRuleForTool].
  split.
  { destruct (resolveValue _ _) as [[d|] rng']; reflexivity. }
  split.
  { destruct (resolveValue _ _) as [r rng']; reflexivity. }
  split.
  { destruct (resolveValue _ _) as [[d|] rng']; reflexivity. }
  split.
  { intros n ->. cbn. by rewrite with_rng_same. }
  intros ->. cbn. by rewrite with_rng_same.
Qed.

Lemma getDelay_of_tool_witness :
  getDelay ChaosFacts.read_file
    (new_ChaosInjector
       {| seed := Some 7;
          global := Some {| delayMs := Some (Fixed 10); failRate := None;
                            errorCode := None; errorMessage := None;
                            corruptResponse := None; timeoutMs := None |};
          tools := Some [("read_file",
                          {| delayMs := Some (Fixed 250); failRate := None;
                             errorCode := None; errorMessage := None;
                             corruptResponse := None; timeoutMs := None |})] |}
       0)
  = (250,
     new_ChaosInjector
       {| seed := Some 7;
          global := Some {| delayMs := Some (Fixed 10); failRate := None;
                            errorCode := None; errorMessage := None;
                            corruptResponse := None; timeoutMs := None |};
          tools := Some [("read_file",
                          {| delayMs := Some (Fixed 250); failRate := None;
                             errorCode := None; errorMessage := None;
                             corruptResponse := None; timeoutMs := None |})] |}
       0).
Proof.
  apply (proj1 (proj2 (proj2 (proj2
            (getDelay_of_tool _ "read_file" ltac:(discriminate)))))).
  reflexivity.
Defined.

Lemma Qltb_true (a b : Q) : (a < b)%Q -> Qltb a b = true.
Proof.
  intros Hlt. unfold Qltb. apply negb_true_iff.
  destruct (Qle_bool b a) eqn:Hb; [|reflexivity].
  apply Qle_bool_iff in Hb. exfalso. exact (Qlt_not_le _ _ Hlt Hb).
Qed.

(** X15.  [shouldFail]: never, and without a draw, when the rule has no
    [failRate] or one that is not positive; always, at the cost of one
    draw, when the rate is 1 or more.  [getErrorResponse] answers exactly
    when [shouldFail] does, with the code and the message of the rule and
    [-32603] and ['Chaos-injected error'] where the rule has none. *)
Theorem shouldFail_rates (toolName : option json) (inj : ChaosInjector) :
  let rule := getRuleForTool inj toolName in
  (failRate rule = None -> shouldFail toolName inj = (false, inj)) /\
  (forall rate, failRate rule = Some rate -> (rate <= 0)%Q ->
     shouldFail toolName inj = (false, inj)) /\
  (forall rate, failRate rule = Some rate -> (1 <= rate)%Q ->
     shouldFail toolName inj
     = (true, with_rng inj (snd (next (inj_rng inj))))) /\
  snd (getErrorResponse toolName inj) = snd (shouldFail toolName inj) /\
  (fst (shouldFail toolName inj) = false ->
     fst (getErrorResponse toolName inj) = None) /\
  (fst (shouldFail toolName inj) = true ->
     fst (getErrorResponse toolName inj)
     = Some (default (-32603) (errorCode rule),
             default "Chaos-injected error" (errorMessage rule))).
Proof.
  cbv zeta. unfold getErrorResponse, shouldFail.
  destruct (failRate (getRuleForTool inj toolName)) as [rate|] eqn:Hrate.
  2:{ cbn. repeat split; try reflexivity; discriminate. }
  split; [discriminate|]. split.
  { intros r [= <-] Hle. apply Qle_bool_iff in Hle. by rewrite Hle. }
  pose proof (next_in_unit_interval (inj_rng inj)) as (_ & H1 & _).
  split.
  { intros r [= <-] Hge.
    assert (Qle_bool rate 0 = false) as ->.
    { destruct (Qle_bool rate 0) eqn:Hb; [|reflexivity].
      apply Qle_bool_iff in Hb. exfalso.
      apply (Qlt_not_le 0 1); [reflexivity|]. by eapply Qle_trans. }
    destruct (next (inj_rng inj)) as [r rng']. cbn [fst snd] in *.
    rewrite Qltb_true; [reflexivity|]. by eapply Qlt_le_trans. }
  destruct (Qle_bool rate 0).
  { cbn. repeat split; try reflexivity; discriminate. }
  destruct (next (inj_rng inj)) as [r rng']. cbn [fst snd].
  destruct (Qltb r rate); cbn [fst snd].
  - split; [reflexivity|]. split; [discriminate|]. intros _.
    assert (getRuleForTool (with_rng inj rng') toolName
            = getRuleForTool inj toolName) as -> by reflexivity.
    by destruct (errorCode _), (errorMessage _).
  - repeat split; try reflexivity; discriminate.
Qed.

Lemma shouldFail_rates_witness :
  let inj :=
    new_ChaosInjector
      {| seed := Some 7;
         global := Some {| delayMs := None; failRate := Some 1%Q;
                           errorCode := None; errorMessage := None;
                           corruptResponse := None; timeoutMs := None |};
         tools := None |} 0 in
  fst (getErrorResponse None inj) = Some (-32603, "Chaos-injected error").
Proof.
  cbv zeta.
  set (inj := new_ChaosInjector _ 0).
  destruct (shouldFail_rates None inj) as (_ & _ & Hone & _ & _ & Herr).
  rewrite Herr; [reflexivity|].
  rewrite (Hone 1%Q eq_refl); [reflexivity|apply Qle_refl].
Defined.
End InjectorFacts.

(* ================================================================== *)
(** * Properties of [parseCommand] *)
(* ================================================================== *)

Module CommandFacts.
Import Json Command.
Local Open Scope list_scope.

(** A character that is neither a quote nor a blank, and a word of such
    characters. *)
Definition plain (c : ascii) : Prop := is_quote c = false /\ is_blank c = false.

Definition word (w : string) : Prop :=
  w <> "" /\ Forall plain (list_ascii_of_string w).

(** The parts at the end of the loop. *)
Definition finish (st : Scan) : list string :=
  if bool_decide (current st = "") then parts st else parts st ++ [current st].

Definition scanned (target : string) (st : Scan) : Scan :=
  fold_left scan (list_ascii_of_string target) st.

Definition initial : Scan :=
  {| parts := []; current := ""; inQuote := false; quoteChar := "000"%char |}.

Lemma parseCommand_finish (target : string) :
  parseCommand target
  = (head (finish (scanned target initial)),
     tail (finish (scanned target initial))).
Proof.
  unfold parseCommand, finish, scanned, initial.
  destruct (if bool_decide _ then _ else _); reflexivity.
Qed.

Lemma scanned_app (a b : string) (st : Scan) :
  scanned (a ++ b) st = scanned b (scanned a st).
Proof.
  unfold scanned. rewrite JournalFacts.list_ascii_of_string_app.
  apply fold_left_app.
Qed.

Lemma append_cons (x : ascii) (a b : string) :
  (String x a ++ b)%string = String x (a ++ b)%string.
Proof. reflexivity. Qed.

Lemma append_snoc (a : string) (c : ascii) (b : string) :
  ((a ++ String c "") ++ b)%string = (a ++ String c b)%string.
Proof.
  induction a as [|x a IH]; [reflexivity|]. by rewrite !append_cons, IH.
Qed.

Lemma append_empty_r (a : string) : (a ++ "")%string = a.
Proof.
  induction a as [|x a IH]; [reflexivity|]. by rewrite append_cons, IH.
Qed.

Lemma append_eq_empty (a b : string) : (a ++ b)%string = "" -> a = "" /\ b = "".
Proof. destruct a; [auto|discriminate]. Qed.

(** Outside quotes, a run of plain characters goes to the current part. *)
Lemma scanned_plain (w : string) (st : Scan) :
  Forall plain (list_ascii_of_string w) -> inQuote st = false ->
  scanned w st
  = {| parts := parts st; current := (current st ++ w)%string;
       inQuote := false; quoteChar := quoteChar st |}.
Proof.
  revert st. induction w as [|c w IH]; intros st Hw Hq.
  - cbn. rewrite append_empty_r. destruct st; cbn in *. by subst.
  - cbn [list_ascii_of_string] in Hw. apply Forall_cons in Hw as [[Hc1 Hc2] Hw].
    change (scanned (String c w) st) with (scanned w (scan st c)).
    assert (scan st c
            = {| parts := parts st; current := (current st ++ String c "")%string;
                 inQuote := false; quoteChar := quoteChar st |}) as ->.
    { unfold scan. by rewrite Hq, Hc1, Hc2. }
    rewrite IH by auto. cbn. by rewrite append_snoc.
Qed.

(** Inside quotes, every character but the quote goes to the current
    part. *)
Lemma scanned_quoted (s : string) (st : Scan) :
  Forall (fun c => c <> quoteChar st) (list_ascii_of_string s) ->
  inQuote st = true ->
  scanned s st
  = {| parts := parts st; current := (current st ++ s)%string;
       inQuote := true; quoteChar := quoteChar st |}.
Proof.
  revert st. induction s as [|c s IH]; intros st Hs Hq.
  - cbn. rewrite append_empty_r. destruct st; cbn in *. by subst.
  - cbn [list_ascii_of_string] in Hs. apply Forall_cons in Hs as [Hc Hs].
    change (scanned (String c s) st) with (scanned s (scan st c)).
    assert (scan st c
            = {| parts := parts st; current := (current st ++ String c "")%string;
                 inQuote := true; quoteChar := quoteChar st |}) as ->.
    { unfold scan. by rewrite Hq, bool_decide_eq_false_2. }
    rewrite IH by auto. cbn. by rewrite append_snoc.
Qed.

Lemma finish_words (ws : list string) (st : Scan) :
  Forall word ws -> current st = "" -> inQuote st = false ->
  finish (scanned (String.concat " " ws) st) = parts st ++ ws.
Proof.
  revert st. induction ws as [|w ws IH]; intros st Hws Hc Hq.
  - cbn. unfold finish. rewrite Hc. cbn. by rewrite app_nil_r.
  - apply Forall_cons in Hws as [[Hne Hw] Hws].
    destruct ws as [|w' ws].
    + cbn [String.concat]. rewrite scanned_plain by auto.
      unfold finish. cbn. rewrite Hc. change ("" ++ w)%string with w.
      rewrite bool_decide_eq_false_2 by exact Hne. reflexivity.
    + change (String.concat " " (w :: w' :: ws))
        with (w ++ String " " (String.concat " " (w' :: ws)))%string.
      rewrite scanned_app, (scanned_plain w st) by auto. rewrite Hc.
      change (scanned (String " " ?s) ?st) with (scanned s (scan st " "%char)).
      cbn [scan inQuote current parts quoteChar].
      change ("" ++ w)%string with w.
      change (is_quote " ") with false. change (is_blank " ") with true.
      cbn match. rewrite bool_decide_eq_false_2 by exact Hne.
      rewrite IH by auto. cbn [parts]. by rewrite <- app_assoc.
Qed.

(** X16.  [parseCommand] of words joined by single spaces --- words without
    quotes and blanks --- returns the first word as the command and the
    others, in order, as the arguments. *)
Theorem parseCommand_words (ws : list string) :
  Forall word ws ->
  parseCommand (String.concat " " ws) = (head ws, tail ws).
Proof.
  intros Hws. rewrite parseCommand_finish, finish_words by auto.
  reflexivity.
Qed.

Lemma parseCommand_words_witness :
  parseCommand "npx -y @modelcontextprotocol/server-filesystem /tmp"
  = (Some "npx", ["-y"; "@modelcontextprotocol/server-filesystem"; "/tmp"]).
Proof.
  apply (parseCommand_words
           ["npx"; "-y"; "@modelcontextprotocol/server-filesystem"; "/tmp"]).
  repeat constructor; try discriminate.
Defined.

Lemma scan_parts_nonempty (st : Scan) (c : ascii) :
  Forall (fun p => p <> "") (parts st) ->
  Forall (fun p => p <> "") (parts (scan st c)).
Proof.
  intros Hp. unfold scan.
  destruct (inQuote st); [by case_bool_decide|].
  destruct (is_quote c); [exact Hp|].
  destruct (is_blank c); [|exact Hp].
  case_bool_decide as Hc; [exact Hp|]. cbn.
  apply Forall_app. split; [exact Hp|]. by repeat constructor.
Qed.

Lemma scanned_parts_nonempty (target : string) (st : Scan) :
  Forall (fun p => p <> "") (parts st) ->
  Forall (fun p => p <> "") (parts (scanned target st)).
Proof.
  unfold scanned. revert st.
  induction (list_ascii_of_string target) as [|c cs IH]; intros st Hst;
    [exact Hst|].
  cbn [fold_left]. apply IH. by apply scan_parts_nonempty.
Qed.

(** X17.  [parseCommand] never returns an empty command or an empty argument
    (an argument written as two quotes with nothing between them is
    dropped), and there are no arguments without a command. *)
Theorem parseCommand_no_empty_part (target : string) :
  (forall cmd, fst (parseCommand target) = Some cmd -> cmd <> "") /\
  Forall (fun a => a <> "") (snd (parseCommand target)) /\
  (fst (parseCommand target) = None -> snd (parseCommand target) = []).
Proof.
  rewrite parseCommand_finish. cbn [fst snd].
  assert (Forall (fun p => p <> "") (finish (scanned target initial))) as Hall.
  { pose proof (scanned_parts_nonempty target initial (Forall_nil_2 _)) as Hp.
    unfold finish. case_bool_decide as Hc; [exact Hp|].
    apply Forall_app. split; [exact Hp|]. by repeat constructor. }
  destruct (finish (scanned target initial)) as [|cmd args]; cbn.
  - split; [discriminate|]. split; [constructor|reflexivity].
  - apply Forall_cons in Hall as [Hcmd Hargs].
    split; [by intros ? [= <-]|]. split; [exact Hargs|discriminate].
Qed.

(** X18.  A quoted argument: what stands between the quotes is one argument,
    blanks and quotes of the other kind included, unless it is empty, and
    then there is no argument; a quote that is never closed takes the rest
    of the text. *)
Theorem parseCommand_quoted (cmd s : string) (q : ascii) :
  word cmd -> is_quote q = true ->
  Forall (fun c => c <> q) (list_ascii_of_string s) ->
  parseCommand (cmd ++ String " " (String q (s ++ String q "")))
  = (Some cmd, if bool_decide (s = "") then [] else [s]) /\
  parseCommand (cmd ++ String " " (String q s))
  = (Some cmd, if bool_decide (s = "") then [] else [s]).
Proof.
  intros [Hne Hcmd] Hq Hs.
  assert (forall rest,
            scanned (cmd ++ String " " (String q rest)) initial
            = scanned rest {| parts := [cmd]; current := ""; inQuote := true;
                              quoteChar := q |}) as Hopen.
  { intros rest. rewrite scanned_app, (scanned_plain cmd initial) by auto.
    change (scanned (String " " (String q rest)) ?st)
      with (scanned rest (scan (scan st " "%char) q)).
    cbn [initial current parts inQuote quoteChar].
    change ("" ++ cmd)%string with cmd.
    unfold scan at 2. cbn [inQuote current parts quoteChar].
    change (is_quote " ") with false. change (is_blank " ") with true.
    cbn match. rewrite bool_decide_eq_false_2 by exact Hne.
    unfold scan. cbn [inQuote current parts quoteChar]. by rewrite Hq. }
  rewrite !parseCommand_finish, !Hopen.
  rewrite scanned_app.
  rewrite !(scanned_quoted s {| parts := [cmd]; current := ""; inQuote := true;
                                quoteChar := q |})
    by (first [exact Hs|reflexivity]).
  change (scanned (String q "") ?st) with (scan st q).
  unfold scan, finish. cbn [inQuote current parts quoteChar].
  rewrite (bool_decide_eq_true_2 (q = q)) by reflexivity.
  cbn [inQuote current parts quoteChar]. change ("" ++ s)%string with s.
  split; by case_bool_decide.
Qed.

Lemma parseCommand_quoted_witness :
  parseCommand "python 'my server.py'" = (Some "python", ["my server.py"]).
Proof.
  refine (proj1 (parseCommand_quoted "python" "my server.py" "'"%char _ _ _)).
  - split; [discriminate|]. repeat constructor; discriminate.
  - reflexivity.
  - repeat constructor; discriminate.
Defined.
End CommandFacts.

(* ================================================================== *)
(** * Properties of the schema mutator *)
(* ================================================================== *)

Module MutatorFacts.
Import Json Stress.
Local Open Scope list_scope.

(** *** Objects as property lists *)

Lemma assoc_set_field_same (k : string) (v : json) (l : list (string * json)) :
  assoc k (set_field k v l) = Some v.
Proof.
  induction l as [|[k' y] l IH]; cbn.
  - by rewrite bool_decide_eq_true_2.
  - case_bool_decide as Hk; cbn; rewrite ?Hk.
    + by rewrite bool_decide_eq_true_2.
    + rewrite bool_decide_eq_false_2 by exact Hk. exact IH.
Qed.

Lemma assoc_set_field_other (k k' : string) (v : json)
    (l : list (string * json)) :
  k' <> k -> assoc k' (set_field k v l) = assoc k' l.
Proof.
  intros Hne. induction l as [|[k0 y] l IH]; cbn.
  - by rewrite bool_decide_eq_false_2.
  - case_bool_decide as Hk; cbn.
    + subst k0. by rewrite !bool_decide_eq_false_2.
    + case_bool_decide; [reflexivity|exact IH].
Qed.

Lemma assoc_delete_field_same (k : string) (l : list (string * json)) :
  assoc k (delete_field k l) = None.
Proof.
  unfold delete_field. induction l as [|[k0 y] l IH]; [reflexivity|].
  destruct (decide (k = k0)) as [->|Hne].
  - rewrite filter_cons_False by (cbn; auto). exact IH.
  - rewrite filter_cons_True by (cbn; auto). cbn.
    by rewrite bool_decide_eq_false_2.
Qed.

Lemma assoc_delete_field_other (k k' : string) (l : list (string * json)) :
  k' <> k -> assoc k' (delete_field k l) = assoc k' l.
Proof.
  intros Hne. unfold delete_field. induction l as [|[k0 y] l IH]; [reflexivity|].
  destruct (decide (k = k0)) as [->|Hk].
  - rewrite filter_cons_False by (cbn; auto). cbn.
    by rewrite bool_decide_eq_false_2.
  - rewrite filter_cons_True by (cbn; auto). cbn. by rewrite IH.
Qed.

Lemma assoc_None_keys {A : Type} (k : string) (l : list (string * A)) :
  assoc k l = None <-> k ∉ map fst l.
Proof.
  induction l as [|[k0 y] l IH]; cbn.
  - split; [intros _; apply not_elem_of_nil|reflexivity].
  - rewrite not_elem_of_cons. case_bool_decide as Hk.
    + split; [discriminate|]. intros [? _]. contradiction.
    + rewrite IH. tauto.
Qed.

Lemma set_field_fresh (k : string) (v : json) (l : list (string * json)) :
  k ∉ map fst l -> set_field k v l = l ++ [(k, v)].
Proof.
  induction l as [|[k0 y] l IH]; intros Hk; [reflexivity|].
  cbn in *. apply not_elem_of_cons in Hk as [Hne Hk].
  rewrite bool_decide_eq_false_2 by exact Hne. by rewrite IH.
Qed.

(** The default value of each property, in the order of the properties. *)
Definition defaults (ps : list (string * JsonSchema)) : list (string * json) :=
  map (fun p => (fst p, getDefaultValue (schema_type (snd p)))) ps.

Lemma generateValidInput_defaults (schema : JsonSchema) :
  NoDup (map fst (schema_properties schema)) ->
  generateValidInput schema = defaults (schema_properties schema).
Proof.
  unfold generateValidInput.
  enough (forall ps acc,
            NoDup (map fst acc ++ map fst ps) ->
            fold_left (fun result p =>
                         set_field (fst p)
                           (getDefaultValue (schema_type (snd p))) result)
              ps acc
            = acc ++ defaults ps) as Hgen
    by (intros Hnd; apply (Hgen _ []); exact Hnd).
  induction ps as [|[k sch] ps IH]; intros acc Hnd.
  - cbn. by rewrite app_nil_r.
  - cbn [fold_left fst snd]. cbn [map fst] in Hnd.
    assert (k ∉ map fst acc) as Hk.
    { apply NoDup_app in Hnd as (_ & Hdis & _). intros Hin.
      apply (Hdis k Hin). left. }
    rewrite (set_field_fresh _ _ _ Hk), IH.
    + rewrite <- app_assoc. reflexivity.
    + rewrite map_app. cbn [map fst]. rewrite <- app_assoc. exact Hnd.
Qed.

Lemma assoc_NoDup_elem {A : Type} (k : string) (v : A) (l : list (string * A)) :
  NoDup (map fst l) -> (k, v) ∈ l -> assoc k l = Some v.
Proof.
  induction l as [|[k0 y] l IH]; intros Hnd Hin; [by apply elem_of_nil in Hin|].
  cbn in *. apply NoDup_cons in Hnd as [Hk0 Hnd].
  apply elem_of_cons in Hin as [[= -> ->] | Hin].
  - by rewrite bool_decide_eq_true_2.
  - rewrite bool_decide_eq_false_2; [auto|].
    intros ->. apply Hk0. apply list_elem_of_fmap. by exists (k0, v).
Qed.


Definition path : JsonSchema :=
  Schema "object"
    (Some [("path", Schema "string" None None);
           ("depth", Schema "integer" None None)])
    (Some ["path"]).


(** *** The mutations *)

(** What a mutation of each type holds at its field. *)
Definition shape (schema : JsonSchema) (m : Mutation) : Prop :=
  let at_ f v := m_field m = Some f /\ prop f (m_input m) = v in
  match m_type m with
  | valid =>
      m_field m = None /\ m_input m = JObj (generateValidInput schema)
  | missing_required =>
      exists f, f ∈ schema_required schema /\ at_ f None
  | wrong_type =>
      exists f s, (f, s) ∈ schema_properties schema /\
        at_ f (Some (getWrongTypeValue (schema_type s)))
  | null_value =>
      exists f s, (f, s) ∈ schema_properties schema /\ at_ f (Some JNull)
  | empty_value =>
      exists f s, (f, s) ∈ schema_properties schema /\
        ((schema_type s = "string" /\ at_ f (Some (JStr ""))) \/
         (schema_type s = "array" /\ at_ f (Some (JArr []))))
  | boundary =>
      exists f s, (f, s) ∈ schema_properties schema /\
        ((schema_type s = "string" /\
          (at_ f (Some (JStr (x_repeat (100 * 100)))) \/
           at_ f (Some (JStr "../../../etc/passwd")))) \/
         (is_numeric (schema_type s) = true /\
          (at_ f (Some (JNum (-1))) \/ at_ f (Some (JNum MAX_SAFE_INTEGER)))))
  | extra_field =>
      m_field m = Some "_unknown_field" /\
      prop "_unknown_field" (m_input m) = Some (JStr "unexpected")
  end.

(** The mutation leaves every property but its own as in the valid
    input. *)
Definition one_field (schema : JsonSchema) (m : Mutation) : Prop :=
  forall f, m_field m <> Some f ->
            prop f (m_input m) = assoc f (generateValidInput schema).

Lemma one_field_set (schema : JsonSchema) (t : MutationType) (k : string)
    (v : json) (d : string) :
  one_field schema
    {| m_type := t; m_field := Some k;
       m_input := JObj (set_field k v (generateValidInput schema));
       m_description := d |}.
Proof.
  intros f Hf. cbn in *. apply assoc_set_field_other. congruence.
Qed.

Lemma at_set (k : string) (v : json) (l : list (string * json)) :
  prop k (JObj (set_field k v l)) = Some v.
Proof. apply assoc_set_field_same. Qed.

(** X20.  Every mutation of [generateMutations] differs from the valid input at
    one property at most, the one it names, and holds there what its type
    announces; the value of a [wrong_type] mutation is never the default
    value of the declared type, and for the types that [getDefaultValue]
    knows it is of another [typeof]. *)
Theorem mutations_touch_one_field (schema : JsonSchema) :
  Forall (fun m => one_field schema m /\ shape schema m)
    (generateMutations schema) /\
  (forall t, getWrongTypeValue t <> getDefaultValue t) /\
  (forall t, getDefaultValue t <> JNull ->
             typeof (getWrongTypeValue t) <> typeof (getDefaultValue t)).
Proof.
  split; [|split].
  - unfold generateMutations. cbv zeta.
    repeat (apply Forall_app; split).
    + constructor; [|constructor]. split; [|by split].
      intros f _. reflexivity.
    + apply Forall_fmap, Forall_forall. intros f Hf. split.
      * intros g Hg. cbn in *. apply assoc_delete_field_other. congruence.
      * exists f. split; [exact Hf|]. split; [reflexivity|].
        apply assoc_delete_field_same.
    + apply Forall_fmap, Forall_forall. intros [f sch] Hp.
      split; [apply one_field_set|].
      exists f, sch. split; [exact Hp|]. split; [reflexivity|apply at_set].
    + apply Forall_fmap, Forall_forall. intros [f sch] Hp.
      split; [apply one_field_set|].
      exists f, sch. split; [exact Hp|]. split; [reflexivity|apply at_set].
    + apply Forall_flat_map, Forall_forall. intros [f sch] Hp. cbn [fst snd].
      case_bool_decide as Hs; [|case_bool_decide as Ha]; repeat constructor;
        try apply one_field_set; exists f, sch; (split; [exact Hp|]);
        [left|right]; (split; [assumption|split; [reflexivity|apply at_set]]).
    + apply Forall_flat_map, Forall_forall. intros [f sch] Hp. cbn [fst snd].
      case_bool_decide as Hs; [|destruct (is_numeric (schema_type sch)) eqn:Hn];
        repeat constructor; try apply one_field_set; exists f, sch;
        (split; [exact Hp|]); [left|left|right|right];
        (split; [assumption|]); [left|right|left|right];
        (split; [reflexivity|apply at_set]).
    + constructor; [|constructor]. split; [apply one_field_set|].
      split; [reflexivity|apply at_set].
  - intros t. unfold getWrongTypeValue, getDefaultValue.
    repeat case_bool_decide; cbn; discriminate.
  - intros t. unfold getWrongTypeValue, getDefaultValue.
    repeat case_bool_decide; cbn; try discriminate; congruence.
Qed.

(** The number of mutations that [generateMutations] derives from one
    property. *)
Definition per_property (p : string * JsonSchema) : nat :=
  let t := schema_type (snd p) in
  2 + (if bool_decide (t = "string") then 3
       else if bool_decide (t = "array") then 1
       else if is_numeric t then 2 else 0).

Definition mutation_count (schema : JsonSchema) : nat :=
  2 + length (schema_required schema)
  + sum_list (map per_property (schema_properties schema)).

(** X21.  [generateMutations] returns the control case first and the extra
    field last; between them one mutation for each required field, and
    for each property a wrong type and a null, an empty value if it is a
    string or an array, and two boundary values if it is a string or a
    number: [mutation_count] in all, at least two. *)
Theorem generateMutations_count (schema : JsonSchema) :
  length (generateMutations schema) = mutation_count schema /\
  m_type <$> head (generateMutations schema) = Some valid /\
  m_type <$> last (generateMutations schema) = Some extra_field.
Proof.
  unfold generateMutations, mutation_count. cbv zeta. split; [|split].
  - rewrite !length_app, !length_map. cbn [length].
    set (ps := schema_properties schema).
    set (e := flat_map _ ps). set (b := flat_map _ ps).
    enough (length ps + (length ps + (length e + length b))
            = sum_list (map per_property ps))%nat as <- by lia.
    subst e b. induction ps as [|p ps IH]; [reflexivity|].
    cbn [flat_map map sum_list length]. rewrite !length_app, <- IH.
    unfold per_property. cbv zeta.
    destruct (bool_decide (schema_type (snd p) = "string"));
      [cbn [length]; unfold id; lia|].
    case_bool_decide as Ha.
    + assert (is_numeric (schema_type (snd p)) = false) as ->
        by (by rewrite Ha).
      cbn [length]. unfold id. lia.
    + destruct (is_numeric _); cbn [length]; unfold id; lia.
  - reflexivity.
  - rewrite !app_assoc. by rewrite last_snoc.
Qed.
End MutatorFacts.

(* ================================================================== *)
(** * A sweep that runs to its end *)
(* ================================================================== *)

Module SweepFacts.
Import Json Events Store Stress.
Local Open Scope list_scope.

(** The number of probes that the tools listed by the server call for. *)
Definition probes_of (entry : option Tool) : nat :=
  match entry with
  | Some tool =>
      match tool_inputSchema tool with
      | Some schema => length (generateMutations schema)
      | None => 0
      end
  | None => 0
  end.

Definition probes (server : Server) : nat :=
  sum_list (map probes_of (tools_listed server)).

(** After [n] probes: the run is still in the table, the counters have
    grown by [n] in all, and so has the number of [stress_mutation]
    events of the run. *)
Definition after (runId : string) (s0 : Sweep) (n : nat) (s : Sweep) : Prop :=
  existsb (has_id runId) (runs (journal s)) = true /\
  passed s + graceful s + crashed s
  = passed s0 + graceful s0 + crashed s0 + Z.of_nat n /\
  count_events runId "stress_mutation" (journal s)
  = count_events runId "stress_mutation" (journal s0) + Z.of_nat n.

Lemma each_steps {A : Type} (f : A -> M Sweep unit) (I : nat -> Sweep -> Prop)
    (w : A -> nat) (l : list A) :
  (forall x n s, x ∈ l -> I n s ->
                 exists s', f x s = (Ok tt, s') /\ I (n + w x)%nat s') ->
  forall n s, I n s ->
    exists s', each f l s = (Ok tt, s') /\ I (n + sum_list (map w l))%nat s'.
Proof.
  induction l as [|x l IH]; intros Hf n s Hs.
  - exists s. split; [reflexivity|]. cbn. by rewrite Nat.add_0_r.
  - destruct (Hf x n s ltac:(left) Hs) as (s1 & H1 & Hs1).
    destruct (IH (fun y m t Hy => Hf y m t ltac:(by right)) _ s1 Hs1)
      as (s2 & H2 & Hs2).
    exists s2. cbn [each]. unfold bind. rewrite H1. split; [exact H2|].
    replace (n + sum_list (map w (x :: l)))%nat
      with (n + w x + sum_list (map w l))%nat; [exact Hs2|].
    cbn [map]. unfold sum_list. cbn [sum_list_with]. unfold id. lia.
Qed.

Lemma sum_list_ones {A : Type} (l : list A) :
  sum_list (map (fun _ => 1%nat) l) = length l.
Proof.
  induction l as [|x l IH]; [reflexivity|].
  cbn [map length]. rewrite <- IH. reflexivity.
Qed.

Lemma probe_steps (server : Server) (runId : string) (tool : Tool)
    (mutation : Mutation) (s0 : Sweep) (n : nat) (s : Sweep) :
  after runId s0 n s ->
  exists s', probe server runId tool mutation s = (Ok tt, s') /\
             after runId s0 (n + 1) s'.
Proof.
  intros (Hex & Hsum & Hcount).
  cbv beta iota zeta delta [probe sendRequest bind modify gets ret of_result
                            fst snd journal messageId].
  unfold insertTraceEvent. cbn [row_of_event]. destruct s as [d i p g c].
  cbn [journal] in *. rewrite Hex.
  eexists. split; [reflexivity|].
  unfold after. rewrite StressFacts.journal_count.
  cbn [with_journal journal runs passed graceful crashed] in *.
  split; [exact Hex|]. split.
  - rewrite StressFacts.sum_count.
    cbn [with_journal passed graceful crashed]. lia.
  - erewrite StressFacts.count_events_snoc; [|reflexivity..]. lia.
Qed.

Lemma sweep_tool_steps (server : Server) (runId : string) (tool : Tool)
    (s0 : Sweep) (n : nat) (s : Sweep) :
  after runId s0 n s ->
  exists s', sweep_tool server runId (Some tool) s = (Ok tt, s') /\
             after runId s0 (n + probes_of (Some tool)) s'.
Proof.
  intros Hs. cbn [sweep_tool probes_of].
  destruct (tool_inputSchema tool) as [schema|].
  - destruct (each_steps (probe server runId tool) (after runId s0)
                (fun _ => 1%nat) (generateMutations schema)
                (fun x m t _ => probe_steps server runId tool x s0 m t) n s Hs)
      as (s' & Hs' & Hn).
    exists s'. split; [exact Hs'|].
    by rewrite <- (sum_list_ones (generateMutations schema)).
  - exists s. split; [reflexivity|]. by rewrite Nat.add_0_r.
Qed.

Lemma existsb_has_id_updateRunStatus (runId id : string) (status : Status)
    (stats : option RunStats) (now : Z) (d : Database) :
  existsb (has_id runId) (runs (updateRunStatus id status stats now d))
  = existsb (has_id runId) (runs d).
Proof.
  unfold updateRunStatus. cbn [runs with_runs].
  apply ProxyFacts.existsb_update_where. intros r.
  apply ProxyFacts.r_id_apply_status.
Qed.


End SweepFacts.

(* ================================================================== *)
(** * The line buffer of the stress runner *)
(* ================================================================== *)

Module LineFacts.
Import Json Stress.
Local Open Scope list_scope.

Definition LF : ascii := ascii_of_nat 10.

(** The chunks of the target's output go through [dataHandler] one after
    the other. *)
Fixpoint feed (chunks : list string) (buffer : string)
  : list string * string :=
  match chunks with
  | [] => ([], buffer)
  | data :: rest =>
      let '(lines, buffer1) := dataHandler data buffer in
      let '(more, buffer2) := feed rest buffer1 in
      (lines ++ more, buffer2)
  end.

Lemma split_lines_cons (s : string) :
  exists l ls, split_lines s = l :: ls.
Proof.
  induction s as [|c s (l & ls & IH)]; cbn; [eauto|].
  case_bool_decide; [eauto|]. rewrite IH. eauto.
Qed.

Lemma removelast_cons {A : Type} (x y : A) (l : list A) :
  removelast (x :: y :: l) = x :: removelast (y :: l).
Proof. reflexivity. Qed.

Lemma split_lines_app (a b : string) :
  split_lines (a ++ b)
  = removelast (split_lines a)
    ++ split_lines (default "" (last (split_lines a)) ++ b).
Proof.
  induction a as [|c a IH]; [reflexivity|].
  rewrite CommandFacts.append_cons. cbn [split_lines].
  destruct (split_lines_cons a) as (l & ls & Ha). rewrite Ha in *.
  case_bool_decide as Hc.
  - rewrite removelast_cons. cbn [last]. rewrite <- app_comm_cons.
    by rewrite IH.
  - rewrite IH. destruct ls as [|l' ls].
    + cbn [removelast last default app]. unfold id.
      rewrite CommandFacts.append_cons. cbn [split_lines].
      by rewrite bool_decide_eq_false_2.
    + rewrite !removelast_cons, <- !app_comm_cons. reflexivity.
Qed.

(** The text of the chunks, one after the other. *)
Definition text_of (chunks : list string) : string :=
  fold_right String.append "" chunks.

Lemma append_assoc (a b c : string) :
  ((a ++ b) ++ c)%string = (a ++ (b ++ c))%string.
Proof.
  induction a as [|x a IH]; [reflexivity|].
  by rewrite !CommandFacts.append_cons, IH.
Qed.

Lemma removelast_last {A : Type} (l : list A) (d : A) :
  l <> [] -> removelast l ++ [default d (last l)] = l.
Proof.
  induction l as [|x l IH]; [contradiction|]. intros _.
  destruct l as [|y l]; [reflexivity|].
  rewrite removelast_cons, <- app_comm_cons. f_equal.
  change (last (x :: y :: l)) with (last (y :: l)). by apply IH.
Qed.

Lemma removelast_app_cons {A : Type} (l1 : list A) (x : A) (l2 : list A) :
  removelast (l1 ++ x :: l2) = l1 ++ removelast (x :: l2).
Proof. apply removelast_app. discriminate. Qed.

(** The text holds no line feed. *)
Definition one_line (s : string) : Prop := LF ∉ list_ascii_of_string s.

Lemma split_lines_one_line (s : string) : Forall one_line (split_lines s).
Proof.
  induction s as [|c s IH]; cbn [split_lines].
  - repeat constructor. apply not_elem_of_nil.
  - case_bool_decide as Hc.
    + constructor; [apply not_elem_of_nil|exact IH].
    + destruct (split_lines s) as [|l ls].
      * repeat constructor. unfold one_line. cbn.
        rewrite not_elem_of_cons. split; [unfold LF; congruence|apply not_elem_of_nil].
      * apply Forall_cons in IH as [Hl Hls]. constructor; [|exact Hls].
        unfold one_line in *. cbn. rewrite not_elem_of_cons.
        split; [unfold LF; congruence|exact Hl].
Qed.

Lemma split_lines_of_one_line (s : string) : one_line s -> split_lines s = [s].
Proof.
  unfold one_line. induction s as [|c s IH]; [reflexivity|].
  cbn. rewrite not_elem_of_cons. intros [Hc Hs].
  rewrite bool_decide_eq_false_2 by (unfold LF in Hc; congruence).
  by rewrite IH.
Qed.

Lemma last_one_line (s : string) :
  one_line (default "" (last (split_lines s))).
Proof.
  pose proof (split_lines_one_line s) as Hall.
  destruct (last (split_lines s)) as [l|] eqn:Hl; [|apply not_elem_of_nil].
  rewrite Forall_forall in Hall. apply Hall. by eapply last_Some_elem_of.
Qed.

Lemma feed_split (chunks : list string) (buffer : string) :
  one_line buffer ->
  feed chunks buffer
  = (removelast (split_lines (buffer ++ text_of chunks)),
     default "" (last (split_lines (buffer ++ text_of chunks)))).
Proof.
  revert buffer. induction chunks as [|data rest IH]; intros buffer Hb.
  - cbn [feed text_of fold_right]. rewrite CommandFacts.append_empty_r.
    by rewrite (split_lines_of_one_line buffer Hb).
  - cbn [feed text_of fold_right]. unfold dataHandler.
    rewrite IH by apply last_one_line.
    fold (text_of rest). rewrite <- append_assoc.
    rewrite (split_lines_app (buffer ++ data) (text_of rest)).
    destruct (split_lines_cons
                (default "" (last (split_lines (buffer ++ data)))
                 ++ text_of rest)) as (l & ls & Hl).
    rewrite Hl, removelast_app_cons, last_app_cons. reflexivity.
Qed.

Lemma concat_split_lines (s : string) :
  String.concat (String LF "") (split_lines s) = s.
Proof.
  induction s as [|c s IH]; [reflexivity|]. cbn [split_lines].
  destruct (split_lines_cons s) as (l & ls & Hs). rewrite Hs in *.
  case_bool_decide as Hc.
  - subst c. change (String.concat (String LF "") ("" :: l :: ls))
      with (String LF (String.concat (String LF "") (l :: ls))).
    by rewrite IH.
  - destruct ls as [|l' ls].
    + cbn in *. by subst.
    + change (String.concat (String LF "") (String c l :: l' :: ls))
        with (String c (String.concat (String LF "") (l :: l' :: ls))).
      by rewrite IH.
Qed.

End LineFacts.

(* ================================================================== *)
(** * A session of the proxy *)
(* ================================================================== *)

Module SessionFacts.
Import Json Events Store Tracer Proxy.
Local Open Scope list_scope.

(** *** A response that matches a request in flight *)

Lemma writeEvent_row (r : Recorder) (run : string) (event : TraceEvent) :
  ProxyFacts.journaling r run ->
  JournalFacts.bindable event = true ->
  exists row,
    row_of_event (last_event_id (db r) + 1) run event = Ok row /\
    writeEvent event r = (Ok tt, ProxyFacts.journaled r event row).
Proof.
  intros Hj Hb.
  pose proof (JournalFacts.row_of_event_bindable (last_event_id (db r) + 1)
                run event) as Hok.
  rewrite Hb in Hok.
  destruct (row_of_event (last_event_id (db r) + 1) run event) as [row|e] eqn:Hrow;
    [|discriminate].
  exists row. split; [reflexivity|].
  by apply (ProxyFacts.writeEvent_journaling r run event row).
Qed.

Lemma journaling_journaled (r : Recorder) (run : string) (event : TraceEvent)
    (row : TraceEventRow) :
  ProxyFacts.journaling r run ->
  ProxyFacts.journaling (ProxyFacts.journaled r event row) run.
Proof. intros (Hrun & Hne & Hex). repeat split; assumption. Qed.


Definition requested : Recorder :=
  recorder
    (handle ProxyFacts.delay_proxy
       (ClientLine "request"
          (Some (ProxyFacts.call_read_file (JNum 1) (JObj []))) 2000)).


(** *** What a listener leaves behind *)

(** A relation between the state before and the state after holds for a
    computation that returns as for one that throws. *)
Definition follows {S A : Type} (R : relation S) (m : M S A) : Prop :=
  forall s, R s (snd (m s)).

Section Follows.
Context {S : Type} (R : relation S) `{!PreOrder R}.

Lemma follows_ret {A : Type} (a : A) : follows R (ret a).
Proof. intros s. reflexivity. Qed.

Lemma follows_throw {A : Type} (e : Exn) : follows R (@throw S A e).
Proof. intros s. reflexivity. Qed.

Lemma follows_gets {A : Type} (f : S -> A) : follows R (gets f).
Proof. intros s. reflexivity. Qed.

Lemma follows_modify (f : S -> S) : (forall s, R s (f s)) -> follows R (modify f).
Proof. intros Hf s. apply Hf. Qed.

Lemma follows_bind {A B : Type} (m : M S A) (k : A -> M S B) :
  follows R m -> (forall a, follows R (k a)) -> follows R (bind m k).
Proof.
  intros Hm Hk s. unfold bind. specialize (Hm s).
  destruct (m s) as [[a|e] s1]; cbn [snd] in *; [|exact Hm].
  etransitivity; [exact Hm|apply Hk].
Qed.

Lemma follows_when (b : bool) (m : M S unit) :
  follows R m -> follows R (when b m).
Proof. intros Hm. destruct b; [exact Hm|apply follows_ret]. Qed.

Lemma follows_member (k : string) (v : json) : follows R (member k v).
Proof. destruct v; first [apply follows_throw | apply follows_ret]. Qed.

End Follows.

(** The effects of a recorder: events it journals. *)
Definition journal_only (e : Effect) : Prop :=
  match e with Journaled _ => True | _ => False end.

(** The effects of a listener before it writes to a peer: events
    journaled, and the delay of the chaos engine. *)
Definition silent (e : Effect) : Prop :=
  match e with Journaled _ | Sleep _ => True | _ => False end.

Definition quiet (r r' : Recorder) : Prop :=
  exists es, effects r' = effects r ++ es /\ Forall journal_only es.

#[local] Instance quiet_preorder : PreOrder quiet.
Proof.
  split.
  - intros r. exists []. split; [by rewrite app_nil_r|constructor].
  - intros r1 r2 r3 (es1 & H1 & Hs1) (es2 & H2 & Hs2).
    exists (es1 ++ es2). split; [by rewrite H2, H1, app_assoc|].
    by apply Forall_app.
Qed.

Lemma quiet_same (r r' : Recorder) : effects r' = effects r -> quiet r r'.
Proof. intros He. exists []. split; [by rewrite app_nil_r|constructor]. Qed.

Lemma follows_writeEvent (event : TraceEvent) : follows quiet (writeEvent event).
Proof.
  intros r. cbv beta iota zeta delta [writeEvent bind gets of_result modify emit].
  destruct (nonempty (runId r)) as [id|]; [|reflexivity].
  destruct (insertTraceEvent id event (db r)) as [d'|e]; [|reflexivity].
  cbn. exists [Journaled event]. split; [reflexivity|]. by repeat constructor.
Qed.

Ltac follow lem := apply lem; try exact _.

Lemma follows_with (f : Recorder -> Recorder) :
  (forall r, effects (f r) = effects r) -> follows quiet (modify f).
Proof. intros Hf. follow @follows_modify. intros r. by apply quiet_same. Qed.

Lemma follows_recordRpcRequest (id : option json) (method : json)
    (params : option json) (now : Z) :
  follows quiet (recordRpcRequest id method params now).
Proof.
  unfold recordRpcRequest.
  follow @follows_bind; [apply follows_writeEvent|]. intros _.
  destruct id as [i|]; [|follow @follows_ret].
  follow @follows_bind; [by apply follows_with|].
  intros _. destruct (is_string _ _); [|follow @follows_ret].
  destruct (truthy_opt _); [|follow @follows_ret].
  follow @follows_bind; [by apply follows_with|].
  intros _. apply follows_writeEvent.
Qed.

Lemma follows_recordRpcResponse (id : option json) (result error : option json)
    (chaos : option Chaos.ChaosApplied) (now : Z) :
  follows quiet (recordRpcResponse id result error chaos now).
Proof.
  unfold recordRpcResponse.
  follow @follows_bind; [|intros latency; apply follows_writeEvent].
  destruct id as [i|]; [|follow @follows_ret].
  follow @follows_bind; [follow @follows_gets|].
  intros [p|]; [|follow @follows_ret].
  follow @follows_bind.
  - follow @follows_when.
    follow @follows_bind; [by apply follows_with|].
    intros _. apply follows_writeEvent.
  - intros _. follow @follows_bind; [by apply follows_with|].
    intros _. follow @follows_ret.
Qed.

(** *** A line goes on exactly once *)

(** From [p] to [p'] the process has journaled, and slept if it has a
    chaos engine; it has written to no peer and has not exited. *)
Definition calm (p p' : Process) : Prop :=
  exit_code p' = exit_code p /\
  exists es,
    effects (recorder p') = effects (recorder p) ++ es /\
    Forall silent es /\
    (injector p = None -> injector p' = None /\ Forall journal_only es).

(** The same, and then [last] was written. *)
Definition then_wrote (last : Effect) (p p' : Process) : Prop :=
  exit_code p' = exit_code p /\
  exists es,
    effects (recorder p') = effects (recorder p) ++ es ++ [last] /\
    Forall silent es /\
    (injector p = None -> injector p' = None /\ Forall journal_only es).

#[local] Instance calm_preorder : PreOrder calm.
Proof.
  split.
  - intros p. split; [reflexivity|]. exists [].
    split; [by rewrite app_nil_r|]. split; [constructor|].
    intros Hi. split; [exact Hi|constructor].
  - intros p1 p2 p3 (Hx1 & es1 & H1 & Hs1 & Hi1) (Hx2 & es2 & H2 & Hs2 & Hi2).
    split; [congruence|]. exists (es1 ++ es2).
    split; [by rewrite H2, H1, app_assoc|].
    split; [by apply Forall_app|].
    intros Hi. destruct (Hi1 Hi) as [Hi' Hj1]. destruct (Hi2 Hi') as [Hi'' Hj2].
    split; [exact Hi''|by apply Forall_app].
Qed.

Lemma journal_only_silent (es : list Effect) :
  Forall journal_only es -> Forall silent es.
Proof.
  intros H. eapply Forall_impl; [exact H|].
  intros [] He; try contradiction; exact I.
Qed.

Lemma follows_lift {A : Type} (m : M Recorder A) :
  follows quiet m -> follows calm (lift m).
Proof.
  intros Hm p. unfold lift. specialize (Hm (recorder p)).
  destruct (m (recorder p)) as [r rec']. cbn [snd recorder exit_code injector] in *.
  destruct Hm as (es & He & Hes). split; [reflexivity|].
  exists es. split; [exact He|]. split; [by apply journal_only_silent|].
  intros Hi. by split.
Qed.

Lemma calm_then (last : Effect) (p p1 : Process) :
  calm p p1 ->
  then_wrote last p (snd (lift (emit last) p1)) /\
  fst (lift (emit last) p1) = Ok tt.
Proof.
  intros (Hx & es & He & Hs & Hi). split; [|reflexivity].
  split; [exact Hx|]. exists es. cbn. rewrite He, <- app_assoc. auto.
Qed.

(** The chaos of [onClientLine]: the delay of the engine, if any. *)
Definition delayed (method params : option json) (p : Process)
  : M Process unit :=
  match injector p with
  | Some i =>
      when (match method with
            | Some m => is_string "tools/call" m
            | None => false
            end)
        (let toolName := opt_prop "name" params in
         let '(delay, i') := Chaos.getDelay toolName i in
         set_injector i' ;;
         when (0 <? delay)%Z (lift (emit (Sleep delay))))
  | None => ret tt
  end.

Lemma calm_delay (method params : option json) (p : Process) :
  calm p (snd (delayed method params p p)) /\
  fst (delayed method params p p) = Ok tt.
Proof.
  unfold delayed.
  destruct (injector p) as [i|] eqn:Hi; [|split; reflexivity].
  destruct (match method with Some m => _ | None => false end);
    [|split; reflexivity].
  cbn [when]. destruct (Chaos.getDelay _ i) as [delay i'].
  cbv beta iota zeta delta [bind set_injector modify].
  destruct (0 <? delay)%Z; cbn; (split; [|reflexivity]).
  - split; [reflexivity|]. exists [Sleep delay]. split; [reflexivity|].
    split; [by repeat constructor|]. rewrite Hi. discriminate.
  - split; [reflexivity|]. exists []. split; [by rewrite app_nil_r|].
    split; [constructor|]. rewrite Hi. discriminate.
Qed.

Lemma onClientLine_writes (line : string) (parsed : option json) (now : Z)
    (p : Process) :
  fst (onClientLine line parsed now p) = Ok tt /\
  then_wrote (ToTarget (line ++ ProxyFacts.newline)) p
    (snd (onClientLine line parsed now p)).
Proof.
  unfold onClientLine, try_catch.
  set (out := ToTarget (line ++ String (ascii_of_nat 10) "")).
  assert (forall (m : M Process unit) q,
            calm p q ->
            match m q with
            | (Ok _, q') => then_wrote out p q'
            | (Throw _, q') => calm p q'
            end ->
            fst (match m q with
                 | (Ok a, q') => (Ok a, q')
                 | (Throw _, q') => lift (emit out) q'
                 end) = Ok tt /\
            then_wrote out p
              (snd (match m q with
                    | (Ok a, q') => (Ok a, q')
                    | (Throw _, q') => lift (emit out) q'
                    end))) as Hcatch.
  { intros m q _ Hm. destruct (m q) as [[[]|e] q']; [by split|].
    destruct (calm_then out p q' Hm) as [Hw Hok]. by split. }
  apply (Hcatch _ p); [reflexivity|].
  unfold bind at 1. destruct parsed as [message|]; [|cbn; reflexivity].
  cbn [parse ret]. unfold bind at 1.
  pose proof (follows_member (S := Process) calm "method" message p) as Hmem.
  destruct (member "method" message p) as [[method|e] p0]; [|exact Hmem].
  cbn [snd] in Hmem. unfold bind at 1.
  assert (calm p0 (snd (when (truthy_opt method)
            (lift (recordRpcRequest (prop "id" message) (default JNull method)
                     (prop "params" message) now)) p0))) as Hreq.
  { follow @follows_when. apply follows_lift, follows_recordRpcRequest. }
  destruct (when (truthy_opt method) _ p0) as [[[]|e] p1];
    cbn [snd] in Hreq; [|by etransitivity].
  unfold bind at 1. unfold gets at 1. unfold bind at 1.
  destruct (calm_delay method (prop "params" message) p1) as [Hd Hok].
  unfold delayed in Hd, Hok.
  destruct (match injector p1 with Some i => _ | None => ret tt end p1)
    as [[[]|e] p2]; [|discriminate Hok].
  cbn [snd] in Hd.
  assert (calm p p2) as Hc
    by (etransitivity; [exact Hmem|]; etransitivity; [exact Hreq|exact Hd]).
  exact (proj1 (calm_then out p p2 Hc)).
Qed.

Lemma onTargetLine_writes (line : string) (parsed : option json) (now : Z)
    (p : Process) :
  fst (onTargetLine line parsed now p) = Ok tt /\
  exit_code (snd (onTargetLine line parsed now p)) = exit_code p /\
  injector (snd (onTargetLine line parsed now p)) = injector p /\
  exists es,
    effects (recorder (snd (onTargetLine line parsed now p)))
    = effects (recorder p) ++ es ++ [ToStdout (line ++ ProxyFacts.newline)] /\
    Forall journal_only es.
Proof.
  unfold onTargetLine.
  set (body := let* message := parse parsed in _).
  assert (exists es q,
            snd (body p)
            = {| recorder := q; injector := injector p;
                 exit_code := exit_code p |} /\
            effects q = effects (recorder p) ++ es /\
            Forall journal_only es) as (es & q & Hq & He & Hes).
  { assert (exists es q,
              p = {| recorder := q; injector := injector p;
                     exit_code := exit_code p |} /\
              effects q = effects (recorder p) ++ es /\
              Forall journal_only es) as Hsame.
    { exists [], (recorder p). split; [by destruct p|].
      split; [by rewrite app_nil_r|constructor]. }
    unfold body, bind at 1.
    destruct parsed as [message|]; [|exact Hsame]. cbn [parse ret].
    unfold bind at 1.
    destruct message; cbn [member throw ret snd]; try exact Hsame;
      (match goal with
       | |- context [prop "id" ?m] => destruct (prop "id" m) as [id|]
       end; [|exact Hsame]);
      unfold bind at 1; unfold gets at 1; unfold lift;
      match goal with
      | |- context [recordRpcResponse ?a ?b ?c ?d ?e (recorder p)] =>
          pose proof (follows_recordRpcResponse a b c d e (recorder p))
            as (es & He & Hes);
          destruct (recordRpcResponse a b c d e (recorder p)) as [res q];
          exists es, q; cbn [snd] in *; by repeat split
      end. }
  unfold bind, try_catch.
  destruct (body p) as [[[]|e] p1]; cbn [snd] in Hq; subst p1;
    cbn; rewrite He, <- app_assoc; repeat split; by exists es.
Qed.

(** The lines that [evs] brings, as they leave the proxy. *)
Definition forwarded (ev : Event) : list Effect :=
  match ev with
  | ClientLine line _ _ => [ToTarget (line ++ ProxyFacts.newline)]
  | TargetLine line _ _ => [ToStdout (line ++ ProxyFacts.newline)]
  | Signal _ | ClientClosed _ | TargetClosed _ _ => []
  end.

Definition is_line (ev : Event) : bool :=
  match ev with
  | ClientLine _ _ _ | TargetLine _ _ _ => true
  | Signal _ | ClientClosed _ | TargetClosed _ _ => false
  end.

(** What leaves the process: the effects that are not journal entries. *)
Definition on_wire (es : list Effect) : list Effect :=
  List.filter (fun e => match e with Journaled _ => false | _ => true end) es.

Lemma on_wire_journal_only (es : list Effect) :
  Forall journal_only es -> on_wire es = [].
Proof.
  induction 1 as [|e es He _ IH]; [reflexivity|].
  destruct e; try contradiction. exact IH.
Qed.

Lemma on_wire_app (es es' : list Effect) :
  on_wire (es ++ es') = on_wire es ++ on_wire es'.
Proof. apply List.filter_app. Qed.



Lemma handle_line_without_chaos (p : Process) (ev : Event) :
  exit_code p = None -> injector p = None -> is_line ev = true ->
  exit_code (handle p ev) = None /\
  injector (handle p ev) = None /\
  on_wire (effects (recorder (handle p ev)))
  = on_wire (effects (recorder p)) ++ forwarded ev.
Proof.
  intros Hexit Hinj Hline. unfold handle. rewrite Hexit.
  destruct ev as [line parsed now | line parsed now | | | ]; try discriminate;
    cbn [listener forwarded].
  - destruct (onClientLine_writes line parsed now p)
      as (Hok & Hx & es & He & Hs & Hi).
    destruct (onClientLine line parsed now p) as [res p'].
    cbn [fst snd] in *. subst res. destruct (Hi Hinj) as [Hinj' Hes].
    split; [congruence|]. split; [exact Hinj'|].
    rewrite He, !on_wire_app, (on_wire_journal_only es Hes). reflexivity.
  - destruct (onTargetLine_writes line parsed now p)
      as (Hok & Hx & Hinj' & es & He & Hes).
    destruct (onTargetLine line parsed now p) as [res p'].
    cbn [fst snd] in *. subst res.
    split; [congruence|]. split; [congruence|].
    rewrite He, !on_wire_app, (on_wire_journal_only es Hes). reflexivity.
Qed.

(** X26.  Without a chaos configuration the proxy is transparent.  Whatever
    lines arrive, JSON or not, what leaves the process is these lines, each
    with a line feed and to the other side, in the order of arrival and
    nothing else: no sleep, no line dropped, repeated or changed, and the
    process goes on running. *)
Theorem transparent_without_chaos (p : Process) (evs : list Event) :
  exit_code p = None ->
  injector p = None ->
  forallb is_line evs = true ->
  exit_code (run p evs) = None /\
  on_wire (effects (recorder (run p evs)))
  = on_wire (effects (recorder p)) ++ concat (map forwarded evs).
Proof.
  revert p. induction evs as [|ev evs IH]; intros p Hexit Hinj Hlines.
  - split; [exact Hexit|]. by rewrite app_nil_r.
  - cbn [forallb] in Hlines. apply andb_prop in Hlines as [Hline Hlines].
    destruct (handle_line_without_chaos p ev Hexit Hinj Hline)
      as (Hexit' & Hinj' & Hwire).
    cbn [run fold_left]. fold (run (handle p ev) evs).
    destruct (IH (handle p ev) Hexit' Hinj' Hlines) as [Hx Hw].
    split; [exact Hx|].
    rewrite Hw, Hwire. cbn [map concat]. by rewrite <- !app_assoc.
Qed.

Definition plain_proxy : Process :=
  start "run-1" 1000 1000 "node server.js" None None None empty_db.

Lemma transparent_without_chaos_witness :
  exit_code plain_proxy = None /\
  injector plain_proxy = None /\
  on_wire
    (effects
       (recorder
          (run plain_proxy
             [ ClientLine "ping" None 2000;
               TargetLine "pong" (Some (ProxyFacts.result_for (JNum 1) JNull))
                 2100 ])))
  = [ ToTarget ("ping" ++ ProxyFacts.newline);
      ToStdout ("pong" ++ ProxyFacts.newline) ].
Proof.
  assert (exit_code plain_proxy = None) as Hx by reflexivity.
  assert (injector plain_proxy = None) as Hi by reflexivity.
  split; [exact Hx|]. split; [exact Hi|].
  rewrite (proj2 (transparent_without_chaos plain_proxy
                    [ ClientLine "ping" None 2000;
                      TargetLine "pong"
                        (Some (ProxyFacts.result_for (JNum 1) JNull)) 2100 ]
                    Hx Hi eq_refl)).
  reflexivity.
Defined.

(** *** The totals of a session *)

(** [SELECT COUNT( * )] of the [tool_result] rows of a run that carry an
    error. *)
Definition count_failures (run : string) (d : Database) : Z :=
  Z.of_nat (length (filter (fun e => ev_run_id e = run
                                     /\ ev_event_type e = "tool_result"%string
                                     /\ ev_error_json e <> None)
                      (trace_events d))).

(** The counters of the recorder are those of its journal. *)
Definition tallied (run : string) (r : Recorder) : Prop :=
  ProxyFacts.journaling r run /\
  callCount r = count_events run "tool_result" (db r) /\
  errorCount r = count_failures run (db r).

Lemma count_events_after (run type : string) (d d' : Database)
    (row : TraceEventRow) :
  trace_events d' = trace_events d ++ [row] ->
  count_events run type d'
  = count_events run type d
    + (if bool_decide (ev_run_id row = run /\ ev_event_type row = type)
       then 1 else 0).
Proof.
  intros He. unfold count_events. rewrite He, filter_app, length_app.
  rewrite Nat2Z.inj_add. f_equal. case_bool_decide as Hrow.
  - by rewrite filter_cons_True.
  - by rewrite filter_cons_False.
Qed.

Lemma count_failures_after (run : string) (d d' : Database)
    (row : TraceEventRow) :
  trace_events d' = trace_events d ++ [row] ->
  count_failures run d'
  = count_failures run d
    + (if bool_decide (ev_run_id row = run
                       /\ ev_event_type row = "tool_result"%string
                       /\ ev_error_json row <> None)
       then 1 else 0).
Proof.
  intros He. unfold count_failures. rewrite He, filter_app, length_app.
  rewrite Nat2Z.inj_add. f_equal. case_bool_decide as Hrow.
  - by rewrite filter_cons_True.
  - by rewrite filter_cons_False.
Qed.

Lemma tallied_same (run : string) (r r' : Recorder) :
  runId r' = runId r -> runs (db r') = runs (db r) ->
  trace_events (db r') = trace_events (db r) ->
  callCount r' = callCount r -> errorCount r' = errorCount r ->
  tallied run r -> tallied run r'.
Proof.
  unfold tallied, ProxyFacts.journaling, count_events, count_failures.
  intros -> -> -> -> ->. exact id.
Qed.

Lemma stringify_if_truthy_None (o : option json) :
  stringify_if_truthy o = None <-> truthy_opt o = false.
Proof.
  destruct o as [v|]; cbn; [|tauto].
  destruct (truthy v); split; congruence.
Qed.

Section Tallied.
Variable run : string.

Abbreviation T := (tallied run).

Lemma tallied_emit (e : Effect) : ProxyFacts.keeps T (emit e).
Proof. apply ProxyFacts.keeps_modify. intros r. by apply tallied_same. Qed.

Lemma tallied_pending (f : Recorder -> gmap string Pending) :
  ProxyFacts.keeps T (modify (fun r => with_pending (f r) r)).
Proof. apply ProxyFacts.keeps_modify. intros r. by apply tallied_same. Qed.

(** An event that is no [tool_result] leaves the counts as they are. *)
Lemma tallied_writeEvent (event : TraceEvent) :
  event_t event <> "tool_result"%string ->
  ProxyFacts.keeps T (writeEvent event).
Proof.
  intros Ht r (Hj & Hc & He).
  destruct (row_of_event (last_event_id (db r) + 1) run event) as [row|e]
    eqn:Hrow.
  - rewrite (ProxyFacts.writeEvent_journaling r run event row Hj Hrow).
    cbn [snd]. apply JournalFacts.row_of_event_row in Hrow
      as (_ & _ & Htype & _).
    split; [by apply journaling_journaled|].
    rewrite (count_events_after run "tool_result" (db r)
               (db (ProxyFacts.journaled r event row)) row eq_refl).
    rewrite (count_failures_after run (db r)
               (db (ProxyFacts.journaled r event row)) row eq_refl).
    rewrite !bool_decide_eq_false_2; cbn [callCount errorCount ProxyFacts.journaled];
      [lia|rewrite Htype; tauto|rewrite Htype; tauto].
  - destruct Hj as (Hrun & Hne & Hex).
    cbv beta iota zeta delta [writeEvent bind gets of_result modify emit].
    rewrite Hrun. cbn [nonempty]. rewrite bool_decide_eq_false_2 by exact Hne.
    unfold insertTraceEvent. rewrite Hrow. by repeat split.
Qed.

(** The counters go up with the [tool_result] event they count. *)
Lemma tallied_tool_result (callId : string) (result error : option json)
    (now latency : Z) (chaos : option Chaos.ChaosApplied) :
  ProxyFacts.keeps T
    (modify (fun r =>
       with_counts (callCount r + 1)
         (if truthy_opt error then errorCount r + 1 else errorCount r) r) ;;
     writeEvent (tool_result callId (negb (truthy_opt error)) result error now
                   latency chaos)).
Proof.
  intros r (Hj & Hc & He).
  cbv beta iota zeta delta [bind modify].
  set (r1 := with_counts _ _ r).
  assert (ProxyFacts.journaling r1 run) as Hj1 by exact Hj.
  set (event := tool_result callId (negb (truthy_opt error)) result error now
                  latency chaos).
  destruct (writeEvent_row r1 run event Hj1 eq_refl) as (row & Hrow & ->).
  cbn [snd]. split; [by apply journaling_journaled|].
  rewrite (count_events_after run "tool_result" (db r1)
             (db (ProxyFacts.journaled r1 event row)) row eq_refl).
  rewrite (count_failures_after run (db r1)
             (db (ProxyFacts.journaled r1 event row)) row eq_refl).
  cbn in Hrow. injection Hrow as <-.
  cbn [ev_run_id ev_event_type ev_error_json callCount errorCount
       ProxyFacts.journaled r1 with_counts db].
  rewrite bool_decide_eq_true_2 by done. split; [lia|].
  destruct (truthy_opt error) eqn:Herr.
  - rewrite bool_decide_eq_true_2; [lia|]. repeat split.
    rewrite stringify_if_truthy_None. congruence.
  - rewrite bool_decide_eq_false_2; [lia|]. intros (_ & _ & Hn). apply Hn.
    by apply stringify_if_truthy_None.
Qed.

Lemma tallied_recordRpcRequest (id : option json) (method : json)
    (params : option json) (now : Z) :
  ProxyFacts.keeps T (recordRpcRequest id method params now).
Proof.
  unfold recordRpcRequest.
  apply ProxyFacts.keeps_bind; [by apply tallied_writeEvent|]. intros _.
  destruct id as [i|]; [|apply ProxyFacts.keeps_ret].
  apply ProxyFacts.keeps_bind; [apply tallied_pending|]. intros _.
  destruct (is_string _ _); [|apply ProxyFacts.keeps_ret].
  destruct (truthy_opt _); [|apply ProxyFacts.keeps_ret].
  apply ProxyFacts.keeps_bind; [apply tallied_pending|]. intros _.
  by apply tallied_writeEvent.
Qed.

Lemma tallied_recordRpcResponse (id : option json) (result error : option json)
    (chaos : option Chaos.ChaosApplied) (now : Z) :
  ProxyFacts.keeps T (recordRpcResponse id result error chaos now).
Proof.
  unfold recordRpcResponse.
  apply ProxyFacts.keeps_bind;
    [|intros latency; by apply tallied_writeEvent].
  destruct id as [i|]; [|apply ProxyFacts.keeps_ret].
  apply ProxyFacts.keeps_bind; [apply ProxyFacts.keeps_gets|].
  intros [p|]; [|apply ProxyFacts.keeps_ret].
  apply ProxyFacts.keeps_bind.
  - apply ProxyFacts.keeps_when, tallied_tool_result.
  - intros _. apply ProxyFacts.keeps_bind; [apply tallied_pending|]. intros _.
    apply ProxyFacts.keeps_ret.
Qed.

Abbreviation TP := (fun p => tallied run (recorder p)).

Lemma tallied_lift {A : Type} (m : M Recorder A) :
  ProxyFacts.keeps T m -> ProxyFacts.keeps TP (lift m).
Proof.
  intros Hm p Hp. unfold lift. specialize (Hm (recorder p) Hp).
  destruct (m (recorder p)) as [r rec']. exact Hm.
Qed.

Lemma tallied_line (ev : Event) :
  is_line ev = true -> ProxyFacts.keeps TP (listener ev).
Proof.
  assert (forall e, ProxyFacts.keeps TP (lift (emit e))) as Hemit
    by (intros e; apply tallied_lift, tallied_emit).
  destruct ev as [line parsed now | line parsed now | | | ]; try discriminate;
    intros _; cbn [listener].
  - unfold onClientLine. apply ProxyFacts.keeps_try_catch; [|apply Hemit].
    apply ProxyFacts.keeps_bind;
      [destruct parsed; [apply ProxyFacts.keeps_ret|apply ProxyFacts.keeps_throw]|].
    intros message.
    apply ProxyFacts.keeps_bind; [apply ProxyFacts.keeps_member|]. intros method.
    apply ProxyFacts.keeps_bind;
      [apply ProxyFacts.keeps_when, tallied_lift, tallied_recordRpcRequest|].
    intros _. apply ProxyFacts.keeps_bind; [apply ProxyFacts.keeps_gets|].
    intros inj. apply ProxyFacts.keeps_bind; [|intros _; apply Hemit].
    destruct inj as [i|]; [|apply ProxyFacts.keeps_ret].
    apply ProxyFacts.keeps_when. destruct (Chaos.getDelay _ i) as [delay i'].
    apply ProxyFacts.keeps_bind; [apply ProxyFacts.keeps_modify; auto|].
    intros _. apply ProxyFacts.keeps_when, Hemit.
  - unfold onTargetLine.
    apply ProxyFacts.keeps_bind; [|intros _; apply Hemit].
    apply ProxyFacts.keeps_try_catch; [|apply ProxyFacts.keeps_ret].
    apply ProxyFacts.keeps_bind;
      [destruct parsed; [apply ProxyFacts.keeps_ret|apply ProxyFacts.keeps_throw]|].
    intros message.
    apply ProxyFacts.keeps_bind; [apply ProxyFacts.keeps_member|]. intros id.
    destruct id as [i|]; [|apply ProxyFacts.keeps_ret].
    apply ProxyFacts.keeps_bind; [apply ProxyFacts.keeps_gets|]. intros inj.
    apply tallied_lift, tallied_recordRpcResponse.
Qed.


(** [end()] journals the [session_end] event and closes the run with the
    counters. *)
Lemma tallied_end (now : Z) (r : Recorder) :
  tallied run r ->
  fst (end_ now r) = Ok tt /\
  tallied run (snd (end_ now r)) /\
  effects (snd (end_ now r))
  = effects r
    ++ [Journaled (session_end (sessionId r) now (callCount r) (errorCount r))] /\
  callCount (snd (end_ now r)) = callCount r /\
  errorCount (snd (end_ now r)) = errorCount r /\
  exists x,
    getRun run (db (snd (end_ now r))) = Some x /\
    r_status x = completed /\ r_ended_at x = Some now /\
    r_total_calls x = callCount r /\ r_total_errors x = errorCount r.
Proof.
  intros Ht.
  set (event := session_end (sessionId r) now (callCount r) (errorCount r)).
  pose proof (tallied_writeEvent event ltac:(discriminate) r Ht) as Ht1.
  destruct Ht as (Hj & Hc & He).
  destruct (writeEvent_row r run event Hj eq_refl) as (row & Hrow & Hw).
  cbv beta iota zeta delta [end_ bind gets]. fold event. rewrite Hw in *.
  cbn [snd] in Ht1. destruct Hj as (Hrun & Hne & Hex).
  rewrite Hrun. cbn [nonempty]. rewrite bool_decide_eq_false_2 by exact Hne.
  cbv beta iota zeta delta [modify]. cbn [fst snd].
  split; [reflexivity|]. split.
  { destruct Ht1 as ((Hrun1 & _ & Hex1) & Hc1 & He1).
    split; [|split; [exact Hc1|exact He1]].
    split; [exact Hrun1|]. split; [exact Hne|].
    cbn [db with_db updateRunStatus runs with_runs].
    rewrite ProxyFacts.existsb_update_where; [exact Hex1|].
    intros x. apply ProxyFacts.r_id_apply_status. }
  split; [reflexivity|]. split; [reflexivity|]. split; [reflexivity|].
  cbn [db with_db ProxyFacts.journaled updateRunStatus runs with_runs getRun].
  unfold getRun, updateRunStatus. cbn [runs with_runs].
  rewrite StoreFacts.find_update_where
    by (intros x; unfold has_id; by rewrite ProxyFacts.r_id_apply_status).
  destruct (find (has_id run) (runs (db r))) as [x|] eqn:Hfind;
    [|apply JournalFacts.existsb_find_none in Hfind; congruence].
  apply find_some in Hfind as [_ Hid]. cbn [fmap option_fmap option_map].
  rewrite Hid. eexists. split; [reflexivity|].
  unfold apply_status. cbn [stat totalCalls totalErrors].
  rewrite (bool_decide_eq_false_2 (completed = running)) by discriminate.
  rewrite (bool_decide_eq_true_2 (completed = completed)) by reflexivity.
  cbn [orb]. repeat split.
Qed.

End Tallied.

Lemma cleanupStaleRuns_trace_events (agentId : option string)
    (runType : option RunType) (now : Z) (d : Database) :
  trace_events (snd (cleanupStaleRuns agentId runType now d)) = trace_events d.
Proof. unfold cleanupStaleRuns. by destruct (nonempty agentId). Qed.

Lemma no_events_no_count (run : string) (d : Database) :
  JournalFacts.events_of run d = [] ->
  count_events run "tool_result" d = 0 /\ count_failures run d = 0.
Proof.
  unfold JournalFacts.events_of, count_events, count_failures. intros Hn.
  assert (forall e, e ∈ trace_events d -> ev_run_id e <> run) as Hfresh.
  { intros e He Hrun.
    assert (e ∈ filter (fun e => ev_run_id e = run) (trace_events d)) as Hin
      by (by apply list_elem_of_filter).
    rewrite Hn in Hin. by apply elem_of_nil in Hin. }
  split.
  - rewrite JournalFacts.filter_none; [reflexivity|].
    intros e He [Hrun _]. by apply (Hfresh e).
  - rewrite JournalFacts.filter_none; [reflexivity|].
    intros e He [Hrun _]. by apply (Hfresh e).
Qed.

(** The proxy that [start] leaves running has counted nothing, and its
    journal holds no [tool_result] of the run. *)
Lemma started_proxy_tallied (uuid : string) (now seedClock : Z)
    (target : string) (chaosConfig : option Chaos.ChaosConfig)
    (chaosText agent : option string) (d : Database) :
  uuid <> ""%string ->
  JournalFacts.events_of uuid d = [] ->
  exit_code (start uuid now seedClock target chaosConfig chaosText agent d)
  = None ->
  tallied uuid
    (recorder (start uuid now seedClock target chaosConfig chaosText agent d)).
Proof.
  intros Hne Hfresh. unfold start.
  destruct (Command.parseCommand target) as [[cmd|] args]; [|discriminate].
  unfold new_TraceRecorder, createRun.
  pose proof (cleanupStaleRuns_trace_events agent (Some proxy) now d) as Hev.
  destruct (cleanupStaleRuns agent (Some proxy) now d) as [n d1].
  cbn [snd] in Hev.
  destruct (existsb (has_id uuid) (runs d1)); [discriminate|].
  destruct (match nonempty agent with Some _ => _ | None => _ end);
    [discriminate|].
  cbn [r_id]. intros _.
  match goal with
  | |- tallied _ (recorder (let '(_, rec) := writeEvent ?e ?r in _)) =>
      pose proof (tallied_writeEvent uuid e ltac:(discriminate) r) as H;
      destruct (writeEvent e r) as [res rec]; cbn [recorder snd] in *; apply H
  end.
  split.
  - repeat split; [exact Hne|].
    cbn [db updateRunStatus runs with_runs].
    rewrite ProxyFacts.existsb_update_where
      by (intros x; apply ProxyFacts.r_id_apply_status).
    by apply ProxyFacts.existsb_has_id_snoc.
  - assert (JournalFacts.events_of uuid d1 = []) as Hfresh1
      by (unfold JournalFacts.events_of in *; by rewrite Hev).
    destruct (no_events_no_count uuid d1 Hfresh1) as [Hc He].
    split; [exact (eq_sym Hc)|exact (eq_sym He)].
Qed.

Lemma handle_line_running (p : Process) (ev : Event) :
  exit_code p = None -> is_line ev = true -> exit_code (handle p ev) = None.
Proof.
  intros Hexit Hline. unfold handle. rewrite Hexit.
  destruct ev as [line parsed now | line parsed now | | | ]; try discriminate;
    cbn [listener].
  - destruct (onClientLine_writes line parsed now p) as (Hok & Hx & _).
    destruct (onClientLine line parsed now p) as [res p'].
    cbn [fst snd] in *. subst res. congruence.
  - destruct (onTargetLine_writes line parsed now p) as (Hok & Hx & _).
    destruct (onTargetLine line parsed now p) as [res p'].
    cbn [fst snd] in *. subst res. congruence.
Qed.

Lemma handle_line_tallied (run : string) (p : Process) (ev : Event) :
  is_line ev = true ->
  tallied run (recorder p) -> tallied run (recorder (handle p ev)).
Proof.
  intros Hline Hp. unfold handle. destruct (exit_code p); [exact Hp|].
  pose proof (tallied_line run ev Hline p Hp) as H.
  destruct (listener ev p) as [[u|e] p']; exact H.
Qed.

Lemma run_lines (run_ : string) (evs : list Event) (p : Process) :
  forallb is_line evs = true ->
  exit_code p = None -> tallied run_ (recorder p) ->
  exit_code (run p evs) = None /\ tallied run_ (recorder (run p evs)).
Proof.
  revert p. induction evs as [|ev evs IH]; intros p Hlines Hexit Hp;
    [by split|].
  cbn [forallb] in Hlines. apply andb_prop in Hlines as [Hline Hlines].
  cbn [run fold_left]. fold (run (handle p ev) evs).
  apply IH; [exact Hlines|by apply handle_line_running|
             by apply handle_line_tallied].
Qed.

Lemma run_exited (evs : list Event) (p : Process) (code : Z) :
  exit_code p = Some code -> run p evs = p.
Proof.
  intros Hexit. induction evs as [|ev evs IH]; [reflexivity|].
  cbn [run fold_left]. unfold handle at 2. rewrite Hexit. exact IH.
Qed.

(** The event that ends a session, its clock value and the exit code it
    gives the process. *)
Definition closing_time (ev : Event) : Z :=
  match ev with
  | ClientLine _ _ now | TargetLine _ _ now | Signal now | ClientClosed now
  | TargetClosed _ now => now
  end.

Definition closing_code (ev : Event) : Z :=
  match ev with
  | TargetClosed code _ => default 0 code
  | _ => 0
  end.

Definition kills_target (ev : Event) : bool :=
  match ev with
  | Signal _ | ClientClosed _ => true
  | _ => false
  end.

Lemma handle_closing (run_ : string) (p : Process) (ev : Event) :
  exit_code p = None -> is_line ev = false -> tallied run_ (recorder p) ->
  exit_code (handle p ev) = Some (closing_code ev) /\
  tallied run_ (recorder (handle p ev)) /\
  effects (recorder (handle p ev))
  = effects (recorder p)
    ++ [Journaled (session_end (sessionId (recorder p)) (closing_time ev)
                     (callCount (recorder p)) (errorCount (recorder p)))]
    ++ (if kills_target ev then [KillTarget] else []) /\
  exists x,
    getRun run_ (db (recorder (handle p ev))) = Some x /\
    r_status x = completed /\ r_ended_at x = Some (closing_time ev) /\
    r_total_calls x = callCount (recorder p) /\
    r_total_errors x = errorCount (recorder p) /\
    callCount (recorder (handle p ev)) = callCount (recorder p) /\
    errorCount (recorder (handle p ev)) = errorCount (recorder p).
Proof.
  intros Hexit Hline Hp. unfold handle. rewrite Hexit.
  destruct ev as [| | now | now | code now]; try discriminate;
    cbn [listener closing_code closing_time kills_target];
    destruct (tallied_end run_ now (recorder p) Hp)
      as (Hok & Ht & Heff & Hcalls & Herrors & x & Hx & Hs & He & Hc & Hr);
    cbv beta iota zeta delta [cleanup onTargetClose bind lift exit modify emit];
    destruct (end_ now (recorder p)) as [res r']; cbn [fst snd] in *;
    subst res; cbn [recorder exit_code effects db];
    (split; [reflexivity|]); (split; [exact Ht|]);
    (split; [by rewrite Heff, <- ?app_assoc, ?app_nil_r|]);
    exists x; destruct Ht as (_ & Hc' & He'); repeat split; try assumption.
Qed.


End SessionFacts.

(* ================================================================== *)
(** * Further properties of the diff engine *)
(* ================================================================== *)

Module CompareFacts.
Import Json Diff.
Local Open Scope list_scope.
Local Open Scope nat_scope.

(** *** Sums over the methods *)

Lemma sum_list_with_ext {A : Type} (f g : A -> nat) (l : list A) :
  (forall x, x ∈ l -> f x = g x) -> sum_list_with f l = sum_list_with g l.
Proof.
  induction l as [|x l IH]; intros H; [reflexivity|].
  cbn [sum_list_with]. rewrite (H x) by left. rewrite IH; [reflexivity|].
  intros y Hy. apply H. by right.
Qed.

Lemma sum_list_with_zero {A : Type} (f : A -> nat) (l : list A) :
  (forall x, x ∈ l -> f x = 0) -> sum_list_with f l = 0.
Proof.
  induction l as [|x l IH]; intros H; [reflexivity|].
  cbn [sum_list_with]. rewrite (H x) by left. rewrite IH; [reflexivity|].
  intros y Hy. apply H. by right.
Qed.

Lemma sum_list_with_add {A : Type} (f g : A -> nat) (l : list A) :
  sum_list_with (fun x => f x + g x) l = sum_list_with f l + sum_list_with g l.
Proof. induction l as [|x l IH]; cbn [sum_list_with]; lia. Qed.

(** A sum over distinct keys is a sum over any larger list of distinct
    keys outside which the summand is zero. *)
Lemma sum_support (f : string -> nat) (K1 K2 : list string) :
  NoDup K1 -> NoDup K2 -> (forall k, k ∈ K1 -> k ∈ K2) ->
  (forall k, k ∈ K2 -> k ∉ K1 -> f k = 0) ->
  sum_list_with f K1 = sum_list_with f K2.
Proof.
  intros H1 H2 Hsub Hzero.
  destruct (submseteq_Permutation K1 K2 (NoDup_submseteq K1 K2 H1 Hsub))
    as [R HR].
  rewrite HR, sum_list_with_app.
  rewrite (sum_list_with_zero f R); [lia|].
  intros k Hk. rewrite HR in H2. apply NoDup_app in H2 as (_ & Hdis & _).
  apply Hzero; [rewrite HR; apply elem_of_app; by right|].
  intros Hk1. by apply (Hdis k Hk1).
Qed.

Lemma length_flat_map_sum {A B : Type} (f : A -> list B) (l : list A) :
  length (flat_map f l) = sum_list_with (fun x => length (f x)) l.
Proof.
  induction l as [|x l IH]; [reflexivity|].
  cbn [flat_map sum_list_with]. by rewrite length_app, IH.
Qed.

(** *** The groups, by their keys *)

Definition methods (cs : list TraceCall) : list string :=
  map fst (groupByMethod cs).

Lemma elem_methods (k : string) (cs : list TraceCall) :
  k ∈ methods cs <-> DiffFacts.calls_of k cs <> [].
Proof.
  unfold methods. rewrite list_elem_of_fmap. split.
  - intros ([k' l] & -> & Hg). apply DiffFacts.group_elem in Hg as [-> Hl].
    exact Hl.
  - intros Hne. exists (k, DiffFacts.calls_of k cs). split; [reflexivity|].
    by apply DiffFacts.group_elem.
Qed.

Lemma sum_groups (F : string -> list TraceCall -> nat) (cs : list TraceCall) :
  sum_list_with (fun g => F (fst g) (snd g)) (groupByMethod cs)
  = sum_list_with (fun k => F k (DiffFacts.calls_of k cs)) (methods cs).
Proof.
  unfold methods.
  assert (forall g, g ∈ groupByMethod cs ->
            snd g = DiffFacts.calls_of (fst g) cs) as Hg.
  { intros [k l] Hin. by apply DiffFacts.group_elem in Hin as [-> _]. }
  induction (groupByMethod cs) as [|g G IH]; [reflexivity|].
  cbn [map sum_list_with]. rewrite (Hg g) by left.
  rewrite IH; [reflexivity|]. intros g' Hg'. apply Hg. by right.
Qed.

(** Every call is in the group of its method, and in no other. *)
Lemma sum_indicator (k0 : string) (K : list string) :
  NoDup K -> k0 ∈ K ->
  sum_list_with (fun k => if bool_decide (k0 = k) then 1 else 0) K = 1.
Proof.
  induction 1 as [|k K Hk Hnd IH]; intros Hin; [by apply elem_of_nil in Hin|].
  cbn [sum_list_with]. case_bool_decide as Heq.
  - subst k. rewrite sum_list_with_zero; [lia|].
    intros k Hin'. rewrite bool_decide_eq_false_2; [reflexivity|].
    intros ->. contradiction.
  - apply elem_of_cons in Hin as [?|Hin]; [contradiction|].
    rewrite IH by exact Hin. lia.
Qed.

Lemma sum_calls_of (K : list string) (cs : list TraceCall) :
  NoDup K -> (forall c, c ∈ cs -> tc_method c ∈ K) ->
  sum_list_with (fun k => length (DiffFacts.calls_of k cs)) K = length cs.
Proof.
  intros Hnd. induction cs as [|c cs IH]; intros Hin.
  - by apply sum_list_with_zero.
  - rewrite (sum_list_with_ext _
               (fun k => (if bool_decide (tc_method c = k) then 1 else 0)
                         + length (DiffFacts.calls_of k cs))).
    + rewrite sum_list_with_add, sum_indicator, IH; [reflexivity| |exact Hnd|].
      * intros c' Hc'. apply Hin. by right.
      * apply Hin. left.
    + intros k _. unfold DiffFacts.calls_of. case_bool_decide as Heq.
      * by rewrite filter_cons_True.
      * by rewrite filter_cons_False.
Qed.

(** The methods of the two traces, each once. *)
Definition all_methods (base cur : list TraceCall) : list string :=
  methods base ++ filter (fun k => k ∉ methods base) (methods cur).

Lemma NoDup_all_methods (base cur : list TraceCall) :
  NoDup (all_methods base cur).
Proof.
  unfold all_methods. apply NoDup_app. split; [apply DiffFacts.NoDup_groupByMethod|].
  split.
  - intros k Hk Hf. apply list_elem_of_filter in Hf as [Hn _]. contradiction.
  - apply NoDup_filter, DiffFacts.NoDup_groupByMethod.
Qed.

Lemma elem_all_methods (k : string) (base cur : list TraceCall) :
  k ∈ all_methods base cur <-> k ∈ methods base \/ k ∈ methods cur.
Proof.
  unfold all_methods. rewrite elem_of_app, list_elem_of_filter.
  destruct (decide (k ∈ methods base)); tauto.
Qed.

Lemma length_surplus (k : string) (a b : list TraceCall) :
  length (surplus k a b) = length b - length a.
Proof. unfold surplus. by rewrite length_map, length_drop. Qed.

Lemma length_only_in (mine other : list TraceCall) (K : list string) :
  NoDup K -> (forall k, k ∈ methods mine -> k ∈ K) ->
  length (only_in (groupByMethod mine) (groupByMethod other))
  = sum_list_with
      (fun k => if bool_decide (DiffFacts.calls_of k other = [])
                then length (DiffFacts.calls_of k mine) else 0) K.
Proof.
  intros Hnd Hsub. unfold only_in. rewrite length_flat_map_sum.
  rewrite (sum_groups
             (fun k l => length (match assoc k (groupByMethod other) with
                                 | Some _ => []
                                 | None => map (entry k) l
                                 end)) mine).
  rewrite (sum_support _ (methods mine) K);
    [|apply DiffFacts.NoDup_groupByMethod|exact Hnd|exact Hsub|].
  - apply sum_list_with_ext. intros k _.
    rewrite DiffFacts.assoc_groupByMethod.
    destruct (DiffFacts.calls_of k other) as [|o os] eqn:Ho.
    + by rewrite length_map, bool_decide_eq_true_2.
    + by rewrite bool_decide_eq_false_2.
  - intros k _ Hk. rewrite elem_methods in Hk.
    destruct (DiffFacts.calls_of k mine); [|exfalso; by apply Hk].
    by destruct (assoc k (groupByMethod other)).
Qed.

Lemma length_shared {A : Type}
    (f : string -> list TraceCall -> list TraceCall -> list A)
    (base cur : list TraceCall) (K : list string) :
  NoDup K -> (forall k, k ∈ methods base -> k ∈ K) ->
  length (shared f (groupByMethod base) (groupByMethod cur))
  = sum_list_with
      (fun k => if bool_decide (DiffFacts.calls_of k base = []) then 0
                else if bool_decide (DiffFacts.calls_of k cur = []) then 0
                else length (f k (DiffFacts.calls_of k base)
                               (DiffFacts.calls_of k cur))) K.
Proof.
  intros Hnd Hsub. unfold shared. rewrite length_flat_map_sum.
  rewrite (sum_groups
             (fun k l => length (match assoc k (groupByMethod cur) with
                                 | None => []
                                 | Some currentCalls => f k l currentCalls
                                 end)) base).
  rewrite (sum_list_with_ext _
             (fun k => if bool_decide (DiffFacts.calls_of k base = []) then 0
                       else if bool_decide (DiffFacts.calls_of k cur = [])
                       then 0
                       else length (f k (DiffFacts.calls_of k base)
                                      (DiffFacts.calls_of k cur)))
             (methods base)).
  - apply sum_support;
      [apply DiffFacts.NoDup_groupByMethod|exact Hnd|exact Hsub|].
    intros k _ Hk. rewrite elem_methods in Hk.
    case_bool_decide as Hb; [reflexivity|contradiction].
  - intros k Hk. apply elem_methods in Hk.
    rewrite DiffFacts.assoc_groupByMethod.
    rewrite (bool_decide_eq_false_2 _ Hk).
    destruct (DiffFacts.calls_of k cur) as [|c cs] eqn:Hc.
    + by rewrite bool_decide_eq_true_2.
    + by rewrite bool_decide_eq_false_2.
Qed.

Lemma method_of_call (c : TraceCall) (cs : list TraceCall) :
  c ∈ cs -> tc_method c ∈ methods cs.
Proof.
  intros Hc. apply elem_methods. intros Hnil.
  assert (c ∈ DiffFacts.calls_of (tc_method c) cs) as Hin
    by (by apply list_elem_of_filter).
  rewrite Hnil in Hin. by apply elem_of_nil in Hin.
Qed.

(** X28.  The comparison accounts for every call.  The [added] entries and the
    calls of the baseline are as many as the [removed] entries and the
    calls of the current trace: what the current trace has more, method
    by method, is added, what it has less is removed. *)
Theorem added_removed_balance (baseline current : Trace) :
  length (added (compareTraces baseline current))
  + baselineCalls (compareTraces baseline current)
  = length (removed (compareTraces baseline current))
    + currentCalls (compareTraces baseline current).
Proof.
  unfold compareTraces. cbn [added removed baselineCalls currentCalls].
  set (base := calls baseline). set (cur := calls current).
  set (K := all_methods base cur).
  assert (NoDup K) as Hnd by apply NoDup_all_methods.
  assert (forall k, k ∈ methods base -> k ∈ K) as Hb
    by (intros k Hk; apply elem_all_methods; by left).
  assert (forall k, k ∈ methods cur -> k ∈ K) as Hc
    by (intros k Hk; apply elem_all_methods; by right).
  rewrite !length_app.
  rewrite (length_only_in cur base K Hnd Hc), (length_only_in base cur K Hnd Hb).
  rewrite !(length_shared _ base cur K Hnd Hb).
  rewrite <- (sum_calls_of K base Hnd), <- (sum_calls_of K cur Hnd).
  - rewrite <- !sum_list_with_add. apply sum_list_with_ext. intros k _.
    rewrite !length_surplus.
    destruct (DiffFacts.calls_of k base) as [|b bs],
             (DiffFacts.calls_of k cur) as [|c cs];
      repeat case_bool_decide; try done; cbn [length]; lia.
  - intros c Hin. by apply Hc, method_of_call.
  - intros c Hin. by apply Hb, method_of_call.
Qed.

(** *** What the comparison does not look at *)

(** What the three lists of differences read of a call: its method, and
    the texts of its arguments and of its result. *)
Definition seen (c : TraceCall) : string * option string * option string :=
  (tc_method c, stringify_opt (tc_params c), stringify_opt (tc_result c)).

Lemma seen_calls_of (k : string) (base cur : list TraceCall) :
  map seen base = map seen cur ->
  map seen (DiffFacts.calls_of k base) = map seen (DiffFacts.calls_of k cur).
Proof.
  revert cur. induction base as [|b base IH]; intros [|c cur] Heq;
    try discriminate; [reflexivity|].
  cbn [map] in Heq.
  assert (seen b = seen c /\ map seen base = map seen cur) as [Hseen Heq']
    by (split; congruence).
  clear Heq. rename Heq' into Heq.
  assert (tc_method b = tc_method c) as Hm by (unfold seen in Hseen; congruence).
  unfold DiffFacts.calls_of. destruct (decide (tc_method b = k)) as [Hk|Hk].
  - rewrite !filter_cons_True by congruence. cbn [map]. f_equal; [exact Hseen|].
    by apply IH.
  - rewrite !filter_cons_False by congruence. by apply IH.
Qed.

Lemma seen_lookup (a b : list TraceCall) (i : nat) (x y : TraceCall) :
  map seen a = map seen b -> a !! i = Some x -> b !! i = Some y ->
  seen x = seen y.
Proof.
  intros Heq Ha Hb.
  assert (map seen a !! i = Some (seen x)) as Hx
    by (by rewrite list_lookup_fmap, Ha).
  assert (map seen b !! i = Some (seen y)) as Hy
    by (by rewrite list_lookup_fmap, Hb).
  rewrite Heq in Hx. congruence.
Qed.

Lemma seen_length (a b : list TraceCall) :
  map seen a = map seen b -> length a = length b.
Proof. intros Heq. by rewrite <- (length_map seen a), Heq, length_map. Qed.

(** X29.  The lists [added], [removed] and [changed] read nothing of a call but
    its method and the texts of its arguments and of its result.  Two
    traces whose calls agree on these, one by one, have no difference in
    the three lists, whatever the identifiers, the timestamps, the
    latencies, the errors and the chaos descriptors of the calls: a call
    that fails where the baseline succeeded goes unreported unless its
    result text changes. *)
Theorem same_calls_no_difference (baseline current : Trace) :
  map seen (calls baseline) = map seen (calls current) ->
  added (compareTraces baseline current) = [] /\
  removed (compareTraces baseline current) = [] /\
  changed (compareTraces baseline current) = [].
Proof.
  intros Heq. unfold compareTraces. cbn [added removed changed].
  set (base := calls baseline) in *. set (cur := calls current) in *.
  assert (forall k, length (DiffFacts.calls_of k base)
                    = length (DiffFacts.calls_of k cur)) as Hlen
    by (intros k; by apply seen_length, seen_calls_of).
  assert (forall (a b : list TraceCall) i c,
            length a = length b -> b !! i = Some c -> ~ (length a <= i))
    as Hshort.
  { intros a b i c Hl Hi Hle. apply lookup_lt_Some in Hi. lia. }
  assert (forall mine other,
            (forall k, length (DiffFacts.calls_of k mine)
                       = length (DiffFacts.calls_of k other)) ->
            only_in (groupByMethod mine) (groupByMethod other) = []) as Honly.
  { intros mine other Hl. apply elem_of_nil_inv. intros e He.
    apply DiffFacts.elem_only_in in He as (k & c & Ho & Hc & _).
    specialize (Hl k). rewrite Ho in Hl.
    destruct (DiffFacts.calls_of k mine); [by apply elem_of_nil in Hc|].
    discriminate. }
  split; [|split].
  - rewrite Honly by (intros k; symmetry; apply Hlen). cbn [app].
    apply elem_of_nil_inv. intros e He.
    apply DiffFacts.elem_shared in He as (k & _ & _ & He).
    apply DiffFacts.elem_surplus in He as (i & c & Hi & Hle & _).
    by apply (Hshort _ _ i c (Hlen k) Hi).
  - rewrite Honly by exact Hlen. cbn [app].
    apply elem_of_nil_inv. intros e He.
    apply DiffFacts.elem_shared in He as (k & _ & _ & He).
    apply DiffFacts.elem_surplus in He as (i & c & Hi & Hle & _).
    by apply (Hshort _ _ i c (eq_sym (Hlen k)) Hi).
  - apply elem_of_nil_inv. intros e He.
    apply DiffFacts.elem_shared in He as (k & _ & _ & He).
    apply DiffFacts.elem_change_at in He as (i & x & y & Hx & Hy & Hd & _).
    pose proof (seen_lookup _ _ i x y (seen_calls_of k base cur Heq) Hx Hy)
      as Hs.
    unfold seen in Hs. destruct Hd as [Hd|Hd]; apply Hd; congruence.
Qed.

(** A call that succeeded, and the same call failing later and slower. *)
Definition succeeded : Trace :=
  {| calls :=
       [ {| tc_id := 1; tc_timestamp := "2025-01-01T00:00:00.000Z";
            tc_method := "tools/call";
            tc_params := Some (JObj [("name", JStr "read_file")]);
            tc_result := None; tc_error := None; tc_latencyMs := 10%float;
            tc_chaos := None |} ] |}.

Definition failed : Trace :=
  {| calls :=
       [ {| tc_id := 7; tc_timestamp := "2025-01-02T00:00:00.000Z";
            tc_method := "tools/call";
            tc_params := Some (JObj [("name", JStr "read_file")]);
            tc_result := None;
            tc_error := Some (JObj [("message", JStr "no such file")]);
            tc_latencyMs := 900%float; tc_chaos := None |} ] |}.

Lemma same_calls_no_difference_witness :
  map seen (calls succeeded) = map seen (calls failed) /\
  changed (compareTraces succeeded failed) = [].
Proof.
  assert (map seen (calls succeeded) = map seen (calls failed)) as H
    by reflexivity.
  split; [exact H|].
  exact (proj2 (proj2 (same_calls_no_difference succeeded failed H))).
Defined.
End CompareFacts.
